(** * Meeting-summary agent: adapter fallback chain and context optimizer

    A shallow embedding of [ai_service_adapter.py] (the degradation
    templates of the three adapter families and [AIServiceManager]) and of
    [context_optimizer.py] (meeting-type detection, keyword extraction and
    the post-processing passes), with the properties stated about them.

    Python [str] values are sequences of Unicode code points, so [len] and
    slicing count code points; they are modelled as [list N].  String
    literals of the source are written as UTF-8 literals and decoded once
    by [u]. *)

From Stdlib Require Import ZArith NArith List Ascii String Lia Bool.
From Stdlib Require Import Sorted Permutation.
From Stdlib Require QArith.
From stdpp Require Import base option list gmap.
Import ListNotations.

Local Open Scope N_scope.

(** ** Python strings *)

Module PyStr.

Abbreviation str := (list N).

(** UTF-8 decoding of a source literal: [need] continuation bytes are
    still expected for the code point accumulated in [acc]. *)
Fixpoint utf8_go (bs : list N) (need : nat) (acc : N) : str :=
  match bs with
  | [] => []
  | b :: rest =>
      match need with
      | O =>
          if b <? 128 then b :: utf8_go rest 0 0
          else if b <? 224 then utf8_go rest 1 (b - 192)
          else if b <? 240 then utf8_go rest 2 (b - 224)
          else utf8_go rest 3 (b - 240)
      | S O => (acc * 64 + (b - 128)) :: utf8_go rest 0 0
      | S n => utf8_go rest n (acc * 64 + (b - 128))
      end
  end.

Definition u (s : string) : str :=
  utf8_go (map N_of_ascii (list_ascii_of_string s)) 0 0.

(** [a == b] on two strings. *)
Fixpoint str_eqb (a b : str) : bool :=
  match a, b with
  | [], [] => true
  | x :: a', y :: b' => (x =? y) && str_eqb a' b'
  | _, _ => false
  end.

(** [s.startswith(p)]. *)
Fixpoint startswith (p s : str) : bool :=
  match p, s with
  | [], _ => true
  | x :: p', y :: s' => (x =? y) && startswith p' s'
  | _ :: _, [] => false
  end.

(** [p in s] for two strings: [p] occurs in [s] as a contiguous
    substring (the empty string occurs everywhere). *)
Fixpoint contains (p s : str) : bool :=
  startswith p s ||
  match s with
  | [] => false
  | _ :: s' => contains p s'
  end.

(** [any(w in s for w in words)]. *)
Definition any_contains (words : list str) (s : str) : bool :=
  existsb (fun w => contains w s) words.

(** [w in keywords] for a list of strings. *)
Definition str_in (w : str) (l : list str) : bool :=
  existsb (str_eqb w) l.

Definition newline : N := 10.

(** [s.split('\n')]: always at least one piece. *)
Fixpoint split_lines (s : str) : list str :=
  match s with
  | [] => [[]]
  | c :: rest =>
      if c =? newline then [] :: split_lines rest
      else
        match split_lines rest with
        | l :: ls => (c :: l) :: ls
        | [] => [[c]]
        end
  end.

(** Decimal rendering of a natural number, as [f"{n}"] gives it. *)
Fixpoint uint_digits (d : Decimal.uint) : str :=
  match d with
  | Decimal.Nil => []
  | Decimal.D0 d => 48 :: uint_digits d
  | Decimal.D1 d => 49 :: uint_digits d
  | Decimal.D2 d => 50 :: uint_digits d
  | Decimal.D3 d => 51 :: uint_digits d
  | Decimal.D4 d => 52 :: uint_digits d
  | Decimal.D5 d => 53 :: uint_digits d
  | Decimal.D6 d => 54 :: uint_digits d
  | Decimal.D7 d => 55 :: uint_digits d
  | Decimal.D8 d => 56 :: uint_digits d
  | Decimal.D9 d => 57 :: uint_digits d
  end.

Definition str_of_nat (n : nat) : str := uint_digits (Nat.to_uint n).

(** ["\n".join(lines)] *)
Fixpoint join_lines (lines : list str) : str :=
  match lines with
  | [] => []
  | [l] => l
  | l :: ls => l ++ newline :: join_lines ls
  end.

End PyStr.
Export PyStr.

(** ** Python values as [json.loads] produces them *)

Module PyVal.

(** Numbers are kept as integers: the code only tests a number for
    truth and for being a container. *)
#[warnings="-register-all"]
Inductive pyval :=
| PNone
| PBool (b : bool)
| PNum (z : Z)
| PStr (s : str)
| PList (l : list pyval)
| PDict (d : list (str * pyval)).

(** A [dict] keeps its keys in insertion order. *)
Abbreviation dict := (list (str * pyval)).

(** Errors the interpreter raises in the optimizer's passes. *)
Inductive pyerr :=
| TypeError       (* [x in v] or [for x in v] on a value that is no container *)
| AttributeError. (* [v.get] on a value that is no dict *)

Inductive res (A : Type) :=
| Ok (a : A)
| Raise (e : pyerr).
Arguments Ok {A} a.
Arguments Raise {A} e.

#[global] Instance res_ret : MRet res := fun A a => Ok a.
#[global] Instance res_bind : MBind res := fun A B f m =>
  match m with
  | Ok a => f a
  | Raise e => Raise e
  end.

(** [d.get(k)] *)
Fixpoint dict_get (k : str) (d : dict) : option pyval :=
  match d with
  | [] => None
  | (k', v) :: d' => if str_eqb k k' then Some v else dict_get k d'
  end.

(** [d.get(k, dflt)] *)
Definition dict_get_default (k : str) (dflt : pyval) (d : dict) : pyval :=
  match dict_get k d with
  | Some v => v
  | None => dflt
  end.

(** [d[k] = v]: an existing key keeps its place, a new one goes last. *)
Fixpoint dict_set (k : str) (v : pyval) (d : dict) : dict :=
  match d with
  | [] => [(k, v)]
  | (k', v') :: d' =>
      if str_eqb k k' then (k, v) :: d' else (k', v') :: dict_set k v d'
  end.

(** [bool(v)] *)
Definition truthy (v : pyval) : bool :=
  match v with
  | PNone => false
  | PBool b => b
  | PNum z => negb (z =? 0)%Z
  | PStr s => negb (str_eqb s [])
  | PList l => match l with [] => false | _ => true end
  | PDict d => match d with [] => false | _ => true end
  end.

(** [w == v] for a string [w]. *)
Definition str_eq_val (w : str) (v : pyval) : bool :=
  match v with
  | PStr s => str_eqb w s
  | _ => false
  end.

(** [w in v] for a string [w]: substring of a string, element of a list,
    key of a dict; anything else is no container. *)
Definition py_in (w : str) (v : pyval) : res bool :=
  match v with
  | PStr s => Ok (contains w s)
  | PList l => Ok (existsb (str_eq_val w) l)
  | PDict d => Ok (existsb (fun kv => str_eqb w (fst kv)) d)
  | PNone | PBool _ | PNum _ => Raise TypeError
  end.

(** [any(w in v for w in words)], and equally [w1 in v or w2 in v or ...]:
    left to right, stopping at the first hit. *)
Fixpoint any_in (words : list str) (v : pyval) : res bool :=
  match words with
  | [] => Ok false
  | w :: ws => b ← py_in w v; if b : bool then Ok true else any_in ws v
  end.

End PyVal.
Export PyVal.

(** ** [ai_service_adapter.py] *)

Module Adapter.

(** *** Degradation templates *)

(** One entry of [key_points]: [{"topic": f"{label}{i+1}", "content": line,
    "participants": ["未知"], "timestamp": "未知"}]. *)
Definition key_point (label : str) (i : nat) (line : str) : pyval :=
  PDict [ (u "topic", PStr (label ++ str_of_nat (i + 1)));
          (u "content", PStr line);
          (u "participants", PList [PStr (u "未知")]);
          (u "timestamp", PStr (u "未知")) ].

(** [OpenAIAdapter._create_fallback_summary] *)
Definition _create_fallback_summary (transcript : str) : pyval :=
  let lines := take 5 (split_lines transcript) in
  PDict [ (u "title", PStr (u "会议摘要（OpenAI降级版）"));
          (u "overview",
            PStr (u "会议包含" ++ str_of_nat (length lines) ++ u "个主要讨论点"));
          (u "key_points", PList (imap (key_point (u "讨论点")) lines));
          (u "decisions", PList []);
          (u "action_items", PList []);
          (u "risks", PList []);
          (u "opportunities", PList []) ].

(** [LocalModelAdapter._create_local_fallback_summary] *)
Definition _create_local_fallback_summary (transcript : str) : pyval :=
  let lines := take 3 (split_lines transcript) in
  PDict [ (u "title", PStr (u "会议摘要（本地模型版）"));
          (u "overview", PStr (u "基于本地模型生成的会议摘要"));
          (u "key_points", PList (imap (key_point (u "要点")) lines));
          (u "decisions", PList []);
          (u "action_items", PList []);
          (u "risks", PList []);
          (u "opportunities", PList []) ].

(** [BaiduAIAdapter._create_baidu_fallback_summary] *)
Definition _create_baidu_fallback_summary (transcript : str) : pyval :=
  let lines := take 4 (split_lines transcript) in
  PDict [ (u "title", PStr (u "会议摘要（百度AI版）"));
          (u "overview", PStr (u "基于百度文心一言生成的会议摘要"));
          (u "key_points", PList (imap (key_point (u "关键讨论")) lines));
          (u "decisions", PList []);
          (u "action_items", PList []);
          (u "risks", PList []);
          (u "opportunities", PList []) ].

(** The three adapter families and their templates. *)
Inductive family := OpenAI | LocalModel | BaiduAI.

Definition degradation_template (f : family) : str → pyval :=
  match f with
  | OpenAI => _create_fallback_summary
  | LocalModel => _create_local_fallback_summary
  | BaiduAI => _create_baidu_fallback_summary
  end.

(** What distinguishes the three templates. *)
Definition line_limit (f : family) : nat :=
  match f with OpenAI => 5 | LocalModel => 3 | BaiduAI => 4 end%nat.

Definition topic_label (f : family) : str :=
  match f with
  | OpenAI => u "讨论点"
  | LocalModel => u "要点"
  | BaiduAI => u "关键讨论"
  end.

Definition title_marker (f : family) : str :=
  match f with
  | OpenAI => u "会议摘要（OpenAI降级版）"
  | LocalModel => u "会议摘要（本地模型版）"
  | BaiduAI => u "会议摘要（百度AI版）"
  end.

(** The overview of a template with [n] key points. *)
Definition overview_text (f : family) (n : nat) : str :=
  match f with
  | OpenAI => u "会议包含" ++ str_of_nat n ++ u "个主要讨论点"
  | LocalModel => u "基于本地模型生成的会议摘要"
  | BaiduAI => u "基于百度文心一言生成的会议摘要"
  end.

(** *** The shape of a summary document

    The structure the prompt of [optimize_summary_prompt] asks a backend
    for, less the tags that post-processing adds: [title] and [overview]
    are strings, the five collections are lists of dicts, a key point has
    the strings [topic], [content], [timestamp] and the string list
    [participants]. *)
Definition is_str (v : pyval) : bool :=
  match v with PStr _ => true | _ => false end.

Definition is_dict (v : pyval) : bool :=
  match v with PDict _ => true | _ => false end.

Definition is_list_of (elem : pyval → bool) (v : pyval) : bool :=
  match v with PList l => forallb elem l | _ => false end.

Definition has_field (k : str) (shape : pyval → bool) (d : dict) : bool :=
  match dict_get k d with
  | Some v => shape v
  | None => false
  end.

Definition is_key_point (v : pyval) : bool :=
  match v with
  | PDict d =>
      has_field (u "topic") is_str d && has_field (u "content") is_str d
      && has_field (u "participants") (is_list_of is_str) d
      && has_field (u "timestamp") is_str d
  | _ => false
  end.

Definition is_summary_document (v : pyval) : bool :=
  match v with
  | PDict d =>
      has_field (u "title") is_str d && has_field (u "overview") is_str d
      && has_field (u "key_points") (is_list_of is_key_point) d
      && has_field (u "decisions") (is_list_of is_dict) d
      && has_field (u "action_items") (is_list_of is_dict) d
      && has_field (u "risks") (is_list_of is_dict) d
      && has_field (u "opportunities") (is_list_of is_dict) d
  | _ => false
  end.

(** *** The service manager *)

(** An exception object [e]: its class and [str(e)].  Everything an
    adapter raises towards the manager is an [Exception]. *)
Record exn := Exception { exn_class : string; exn_str : str }.

Definition RuntimeError (msg : str) : exn := Exception "RuntimeError" msg.
Definition ValueError (msg : str) : exn := Exception "ValueError" msg.

(** How a call ends. *)
Inductive outcome (A : Type) :=
| Returned (a : A)
| Raised (e : exn).
Arguments Returned {A} a.
Arguments Raised {A} e.

(** What the manager does that an observer can see: the methods it
    invokes on adapters and the records it hands to the logger. *)
Inductive event :=
| CallIsAvailable (name : str)
| CallGenerateSummary (name transcript prompt : str)
| LogInfo (msg : str)
| LogWarning (msg : str)
| LogError (msg : str).

Section Manager.

(** The state outside the manager that adapters read and change: network,
    remote services, loaded models. *)
Context {W : Type}.

(** [AIServiceAdapter]: the two abstract methods the manager calls.
    [is_available] answers with a bool: of the three adapters one catches
    whatever its probe raises and two only read a field. *)
Record AIServiceAdapter := {
  is_available : W → bool * W;
  generate_summary : str → str → W → outcome pyval * W
}.

(** A computation of the manager: from a state of the world to the
    events it caused, its value and the new state. *)
Definition eff (A : Type) : Type := W → list event * A * W.

#[global] Instance eff_ret : MRet eff := fun A a w => ([], a, w).
#[global] Instance eff_bind : MBind eff := fun A B f m w =>
  let '(tr1, a, w1) := m w in
  let '(tr2, b, w2) := f a w1 in
  (tr1 ++ tr2, b, w2).

Definition log (e : event) : eff unit := fun w => ([e], tt, w).

Definition call_is_available (name : str) (a : AIServiceAdapter) : eff bool :=
  fun w => let '(b, w1) := is_available a w in ([CallIsAvailable name], b, w1).

Definition call_generate_summary (name : str) (a : AIServiceAdapter)
    (transcript prompt : str) : eff (outcome pyval) :=
  fun w =>
    let '(r, w1) := generate_summary a transcript prompt w in
    ([CallGenerateSummary name transcript prompt], r, w1).

(** [AIServiceManager]: [current_adapter] is [None] until a primary is set. *)
Record AIServiceManager := {
  adapters : gmap str AIServiceAdapter;
  current_adapter : option str;
  fallback_order : list str
}.

(** [AIServiceManager()] *)
Definition new_manager : AIServiceManager :=
  {| adapters := ∅; current_adapter := None; fallback_order := [] |}.

Definition register_adapter (name : str) (a : AIServiceAdapter)
    (m : AIServiceManager) : list event * AIServiceManager :=
  ([LogInfo (u "注册AI适配器: " ++ name)],
   {| adapters := <[name := a]> (adapters m);
      current_adapter := current_adapter m;
      fallback_order := fallback_order m |}).

Definition set_primary_adapter (name : str) (m : AIServiceManager)
    : list event * outcome AIServiceManager :=
  match adapters m !! name with
  | Some _ =>
      ([LogInfo (u "设置主适配器: " ++ name)],
       Returned {| adapters := adapters m;
                   current_adapter := Some name;
                   fallback_order := fallback_order m |})
  | None =>
      ([LogError (u "适配器不存在: " ++ name)],
       Raised (ValueError (u "适配器不存在: " ++ name)))
  end.

(** The order is a list of strings; its rendering in the log record is
    not modelled. *)
Definition set_fallback_order (order : list str) (m : AIServiceManager)
    : AIServiceManager :=
  {| adapters := adapters m;
     current_adapter := current_adapter m;
     fallback_order := order |}.

(** The test [if self.current_adapter]: [None] and the empty name are
    both false. *)
Definition designated (m : AIServiceManager) : option str :=
  match current_adapter m with
  | Some (c :: n) => Some (c :: n)
  | Some [] | None => None
  end.

(** The first block of [generate_summary_with_fallback]: [Some doc] when
    the primary returned [doc], [None] when control falls through to the
    fallback loop. *)
Definition try_primary (m : AIServiceManager) (transcript prompt : str)
    : eff (option pyval) :=
  match designated m with
  | None => mret None
  | Some name =>
      match adapters m !! name with
      | None => mret None
      | Some adapter =>
          avail ← call_is_available name adapter;
          if avail : bool then
            _ ← log (LogInfo (u "使用适配器: " ++ name));
            r ← call_generate_summary name adapter transcript prompt;
            match r with
            | Returned doc => mret (Some doc)
            | Raised e =>
                _ ← log (LogWarning (u "主适配器失败: " ++ exn_str e));
                mret None
            end
          else mret None
      end
  end.

(** The loop [for fallback_name in self.fallback_order]. *)
Fixpoint try_fallbacks (m : AIServiceManager) (transcript prompt : str)
    (order : list str) : eff (option pyval) :=
  match order with
  | [] => mret None
  | fallback_name :: rest =>
      match adapters m !! fallback_name with
      | None => try_fallbacks m transcript prompt rest
      | Some adapter =>
          avail ← call_is_available fallback_name adapter;
          if avail : bool then
            _ ← log (LogInfo (u "使用降级适配器: " ++ fallback_name));
            r ← call_generate_summary fallback_name adapter transcript prompt;
            match r with
            | Returned doc => mret (Some doc)
            | Raised e =>
                _ ← log (LogWarning (u "降级适配器失败: " ++ exn_str e));
                try_fallbacks m transcript prompt rest
            end
          else try_fallbacks m transcript prompt rest
      end
  end.

Definition exhausted : exn := RuntimeError (u "所有AI适配器都不可用").

Definition generate_summary_with_fallback (m : AIServiceManager)
    (transcript prompt : str) : eff (outcome pyval) :=
  r ← try_primary m transcript prompt;
  match r with
  | Some doc => mret (Returned doc)
  | None =>
      r' ← try_fallbacks m transcript prompt (fallback_order m);
      match r' with
      | Some doc => mret (Returned doc)
      | None => mret (Raised exhausted)
      end
  end.

(** The ways the first block can end without a result, as the
    specification lists them: the primary is absent (none designated, or
    the designated name not registered), unavailable, or its call
    raised.  The relation gives the events seen and the world left. *)
Inductive primary_fails (m : AIServiceManager) (transcript prompt : str)
    : W → list event → W → Prop :=
| primary_not_designated w :
    designated m = None →
    primary_fails m transcript prompt w [] w
| primary_not_registered name w :
    designated m = Some name →
    adapters m !! name = None →
    primary_fails m transcript prompt w [] w
| primary_unavailable name a w w1 :
    designated m = Some name →
    adapters m !! name = Some a →
    is_available a w = (false, w1) →
    primary_fails m transcript prompt w [CallIsAvailable name] w1
| primary_raised name a w w1 e w2 :
    designated m = Some name →
    adapters m !! name = Some a →
    is_available a w = (true, w1) →
    generate_summary a transcript prompt w1 = (Raised e, w2) →
    primary_fails m transcript prompt w
      [ CallIsAvailable name;
        LogInfo (u "使用适配器: " ++ name);
        CallGenerateSummary name transcript prompt;
        LogWarning (u "主适配器失败: " ++ exn_str e) ]
      w2.

(** The fallback names that yield no result, as the specification lists
    them: a name that is not registered is skipped without a trace, an
    unavailable adapter is skipped after its probe, an adapter whose call
    raises is logged and the walk goes on. *)
Inductive passes_over (m : AIServiceManager) (transcript prompt : str)
    : list str → W → list event → W → Prop :=
| passes_nil w :
    passes_over m transcript prompt [] w [] w
| passes_absent name rest w tr w' :
    adapters m !! name = None →
    passes_over m transcript prompt rest w tr w' →
    passes_over m transcript prompt (name :: rest) w tr w'
| passes_unavailable name a rest w w1 tr w' :
    adapters m !! name = Some a →
    is_available a w = (false, w1) →
    passes_over m transcript prompt rest w1 tr w' →
    passes_over m transcript prompt (name :: rest) w
      (CallIsAvailable name :: tr) w'
| passes_raised name a rest w w1 e w2 tr w' :
    adapters m !! name = Some a →
    is_available a w = (true, w1) →
    generate_summary a transcript prompt w1 = (Raised e, w2) →
    passes_over m transcript prompt rest w2 tr w' →
    passes_over m transcript prompt (name :: rest) w
      ([ CallIsAvailable name;
         LogInfo (u "使用降级适配器: " ++ name);
         CallGenerateSummary name transcript prompt;
         LogWarning (u "降级适配器失败: " ++ exn_str e) ] ++ tr)
      w'.

(** [name in self.adapters] *)
Definition registered (m : AIServiceManager) (name : str) : bool :=
  match adapters m !! name with
  | Some _ => true
  | None => false
  end.

(** The names probed and the names called in a trace, in order. *)
Definition probes (tr : list event) : list str :=
  omap (fun e => match e with CallIsAvailable n => Some n | _ => None end) tr.

Definition calls (tr : list event) : list str :=
  omap (fun e => match e with CallGenerateSummary n _ _ => Some n | _ => None end)
    tr.





(** Traces in which [generate_summary] is only ever called, with the
    given transcript and prompt, on the adapter probed just before it. *)
Inductive well_probed (transcript prompt : str) : list event → Prop :=
| well_probed_nil :
    well_probed transcript prompt []
| well_probed_probe name tr :
    well_probed transcript prompt tr →
    well_probed transcript prompt (CallIsAvailable name :: tr)
| well_probed_call name msg tr :
    well_probed transcript prompt tr →
    well_probed transcript prompt
      (CallIsAvailable name :: LogInfo msg
         :: CallGenerateSummary name transcript prompt :: tr)
| well_probed_warning msg tr :
    well_probed transcript prompt tr →
    well_probed transcript prompt (LogWarning msg :: tr).

End Manager.

Arguments AIServiceAdapter W : clear implicits.
Arguments AIServiceManager W : clear implicits.

(** *** Adapters without restriction

    [AIServiceAdapter] describes adapters whose [is_available] answers and
    whose [generate_summary] raises instances of [Exception] only, as the
    three adapters of this module do.  The manager takes any object with
    the two methods: [is_available] may raise, and it is called outside
    the [try]; and [generate_summary] may raise what [except Exception]
    does not catch.  The operation is given here for such adapters. *)

(** An object raised, and whether it is an instance of [Exception]
    ([KeyboardInterrupt] and [SystemExit] are not). *)
Record thrown := Thrown { thrown_exn : exn; is_Exception : bool }.

Section AnyAdapter.

Context {W : Type}.

(** [any_is_available] gives the truth of what [is_available()] returns,
    or what it raised. *)
Record AnyAdapter := {
  any_is_available : W → (bool + thrown) * W;
  any_generate_summary : str → str → W → (pyval + thrown) * W
}.

Record AnyManager := {
  any_adapters : gmap str AnyAdapter;
  any_current_adapter : option str;
  any_fallback_order : list str
}.

Definition any_designated (m : AnyManager) : option str :=
  match any_current_adapter m with
  | Some (c :: n) => Some (c :: n)
  | Some [] | None => None
  end.

Definition any_call_is_available (name : str) (a : AnyAdapter)
    : @eff W (bool + thrown) :=
  fun w =>
    let '(b, w1) := any_is_available a w in ([CallIsAvailable name], b, w1).

Definition any_call_generate_summary (name : str) (a : AnyAdapter)
    (transcript prompt : str) : @eff W (pyval + thrown) :=
  fun w =>
    let '(r, w1) := any_generate_summary a transcript prompt w in
    ([CallGenerateSummary name transcript prompt], r, w1).

(** The first block: [Some r] when the operation ends there, returning
    or raising [r]; [None] when control falls through to the loop. *)
Definition any_try_primary (m : AnyManager) (transcript prompt : str)
    : @eff W (option (pyval + thrown)) :=
  match any_designated m with
  | None => mret None
  | Some name =>
      match any_adapters m !! name with
      | None => mret None
      | Some adapter =>
          answer ← any_call_is_available name adapter;
          match answer with
          | inr raised => mret (Some (inr raised))
          | inl false => mret None
          | inl true =>
              _ ← log (LogInfo (u "使用适配器: " ++ name));
              r ← any_call_generate_summary name adapter transcript prompt;
              match r with
              | inl doc => mret (Some (inl doc))
              | inr raised =>
                  if is_Exception raised then
                    _ ← log (LogWarning
                               (u "主适配器失败: " ++ exn_str (thrown_exn raised)));
                    mret None
                  else mret (Some (inr raised))
              end
          end
      end
  end.

(** The loop [for fallback_name in self.fallback_order]. *)
Fixpoint any_try_fallbacks (m : AnyManager) (transcript prompt : str)
    (order : list str) : @eff W (option (pyval + thrown)) :=
  match order with
  | [] => mret None
  | fallback_name :: rest =>
      match any_adapters m !! fallback_name with
      | None => any_try_fallbacks m transcript prompt rest
      | Some adapter =>
          answer ← any_call_is_available fallback_name adapter;
          match answer with
          | inr raised => mret (Some (inr raised))
          | inl false => any_try_fallbacks m transcript prompt rest
          | inl true =>
              _ ← log (LogInfo (u "使用降级适配器: " ++ fallback_name));
              r ← any_call_generate_summary fallback_name adapter
                    transcript prompt;
              match r with
              | inl doc => mret (Some (inl doc))
              | inr raised =>
                  if is_Exception raised then
                    _ ← log (LogWarning
                               (u "降级适配器失败: " ++ exn_str (thrown_exn raised)));
                    any_try_fallbacks m transcript prompt rest
                  else mret (Some (inr raised))
              end
          end
      end
  end.

(** [generate_summary_with_fallback]: the document returned, or what is
    raised towards the caller. *)
Definition any_generate_summary_with_fallback (m : AnyManager)
    (transcript prompt : str) : @eff W (pyval + thrown) :=
  r ← any_try_primary m transcript prompt;
  match r with
  | Some ending => mret ending
  | None =>
      r' ← any_try_fallbacks m transcript prompt (any_fallback_order m);
      match r' with
      | Some ending => mret ending
      | None => mret (inr (Thrown exhausted true))
      end
  end.


(** An adapter and a manager of the restricted kind, taken as they
    are. *)
Definition as_ending (r : outcome pyval) : pyval + thrown :=
  match r with
  | Returned doc => inl doc
  | Raised e => inr (Thrown e true)
  end.

Definition any_of (a : AIServiceAdapter W) : AnyAdapter :=
  {| any_is_available := fun w =>
       let '(b, w1) := is_available a w in (inl b, w1);
     any_generate_summary := fun transcript prompt w =>
       let '(r, w1) := generate_summary a transcript prompt w in
       (as_ending r, w1) |}.

Definition any_manager_of (m : AIServiceManager W) : AnyManager :=
  {| any_adapters := any_of <$> adapters m;
     any_current_adapter := current_adapter m;
     any_fallback_order := fallback_order m |}.

End AnyAdapter.

Arguments AnyAdapter W : clear implicits.
Arguments AnyManager W : clear implicits.

(** *** The reply of the local model *)

Definition lbrace : N := 123.
Definition rbrace : N := 125.

(** [s.find(c)] and [s.rfind(c)] for a character [c]: the lowest and the
    highest index of [c] in [s], or -1. *)
Fixpoint find (c : N) (s : str) : Z :=
  match s with
  | [] => -1
  | x :: rest =>
      if x =? c then 0%Z
      else let i := find c rest in if (i =? -1)%Z then (-1)%Z else (i + 1)%Z
  end.

Fixpoint rfind (c : N) (s : str) : Z :=
  match s with
  | [] => -1
  | x :: rest =>
      let i := rfind c rest in
      if (i =? -1)%Z then (if x =? c then 0%Z else (-1)%Z) else (i + 1)%Z
  end.

(** [s[a:b]] for [0 <= a]. *)
Definition slice (s : str) (a b : Z) : str :=
  take (Z.to_nat (b - a)) (drop (Z.to_nat a) s).

Section LocalReply.

(** [json_loads s]: the value [json.loads(s)] returns, or [None] when it
    raises. *)
Context (json_loads : str → option pyval).

(** [LocalModelAdapter.generate_summary], from the model's [response]
    on. *)
Definition summary_of_response (transcript response : str) : pyval :=
  let json_start := find lbrace response in
  let json_end := (rfind rbrace response + 1)%Z in
  if negb (json_start =? -1)%Z && (json_start <? json_end)%Z then
    let json_str := slice response json_start json_end in
    match json_loads json_str with
    | Some v => v
    | None => _create_local_fallback_summary transcript
    end
  else _create_local_fallback_summary transcript.

End LocalReply.

End Adapter.

(** ** [context_optimizer.py] *)

Module ContextOptimizer.

(** [MeetingContext]; [participants] and [duration] are whatever
    [meeting_info] holds. *)
Record MeetingContext := {
  meeting_type : str;
  industry : str;
  participants : pyval;
  duration : pyval;
  keywords : list str;
  historical_context : option pyval
}.

(** [self.industry_keywords] *)
Definition industry_keywords_items : list (str * list str) :=
  [ (u "tech",
      map u ["敏捷开发"; "迭代"; "MVP"; "技术栈"; "架构"; "部署"; "测试"; "上线"]);
    (u "finance",
      map u ["ROI"; "预算"; "成本"; "收益"; "风险"; "投资"; "回报率"; "现金流"]);
    (u "manufacturing",
      map u ["产能"; "供应链"; "质量控制"; "成本优化"; "生产效率"; "设备"]);
    (u "healthcare",
      map u ["合规"; "临床试验"; "监管"; "安全性"; "有效性"; "FDA"]) ]%string.

Definition industry_keywords : gmap str (list str) :=
  list_to_map industry_keywords_items.

(** One entry of [self.meeting_templates]. *)
Record template := {
  focus_areas : list str;
  decision_patterns : list str;
  action_patterns : list str
}.

Definition meeting_templates_items : list (str * template) :=
  [ (u "project_review",
      {| focus_areas := map u ["进度"; "风险"; "资源"; "下一步计划"];
         decision_patterns := map u ["批准"; "同意"; "决定"; "确认"];
         action_patterns := map u ["负责"; "完成"; "提交"; "跟进"] |});
    (u "weekly_meeting",
      {| focus_areas := map u ["本周工作"; "下周计划"; "问题"; "协调"];
         decision_patterns := map u ["安排"; "调整"; "协调"; "确认"];
         action_patterns := map u ["完成"; "跟进"; "汇报"; "处理"] |});
    (u "strategic_planning",
      {| focus_areas := map u ["战略"; "目标"; "方向"; "投资"];
         decision_patterns := map u ["决定"; "确定"; "批准"; "通过"];
         action_patterns := map u ["制定"; "调研"; "分析"; "提交"] |}) ]%string.

Definition meeting_templates : gmap str template :=
  list_to_map meeting_templates_items.

(** Chinese characters (the CJK Unified Ideographs block), which have no
    upper or lower case. *)
Definition han (c : N) : bool := (0x4E00 <=? c) && (c <=? 0x9FFF).

Definition all_han (kw : str) : Prop := forallb han kw = true.

Section Classification.

(** What the interpreter's Unicode tables decide: [isw c] says whether
    [\w] of the [re] module matches [c]; [lower_at before c after] is what
    [str.lower()] puts in place of the character [c] standing between
    [before] and [after] (only the capital sigma looks at its
    neighbours). *)
Context (isw : N → bool) (lower_at : str → N → str → str).

Fixpoint lower_go (before s : str) : str :=
  match s with
  | [] => []
  | c :: rest => lower_at before c rest ++ lower_go (before ++ [c]) rest
  end.

(** [s.lower()] *)
Definition lower (s : str) : str := lower_go [] s.

Definition project_review_words : list str :=
  map u ["项目"; "进度"; "里程碑"; "交付"; "延期"]%string.
Definition weekly_meeting_words : list str :=
  map u ["本周"; "下周"; "例会"; "日常工作"]%string.
Definition strategic_planning_words : list str :=
  map u ["战略"; "规划"; "目标"; "投资"; "方向"]%string.

Definition _detect_meeting_type (transcript : str) : str :=
  let transcript_lower := lower transcript in
  if any_contains project_review_words transcript_lower then
    u "project_review"
  else if any_contains weekly_meeting_words transcript_lower then
    u "weekly_meeting"
  else if any_contains strategic_planning_words transcript_lower then
    u "strategic_planning"
  else u "general_meeting".

Definition tech_keywords : list str :=
  map u ["开发"; "代码"; "测试"; "部署"; "架构"; "敏捷"; "迭代"]%string.
Definition finance_keywords : list str :=
  map u ["投资"; "预算"; "ROI"; "成本"; "收益"; "风险"; "现金流"]%string.
Definition manufacturing_keywords : list str :=
  map u ["生产"; "产能"; "供应链"; "设备"; "质量控制"]%string.
Definition healthcare_keywords : list str :=
  map u ["临床"; "医疗"; "合规"; "FDA"; "安全性"; "有效性"]%string.

Definition _detect_industry (transcript : str) : str :=
  let transcript_lower := lower transcript in
  if any_contains tech_keywords transcript_lower then u "tech"
  else if any_contains finance_keywords transcript_lower then u "finance"
  else if any_contains manufacturing_keywords transcript_lower then
    u "manufacturing"
  else if any_contains healthcare_keywords transcript_lower then
    u "healthcare"
  else u "general".

(** The word collected so far, held in reverse, is emitted when it ends. *)
Definition flush (cur : str) : list str :=
  match cur with
  | [] => []
  | _ :: _ => [rev cur]
  end.

(** [re.findall(r'\b\w+\b', s)]: the maximal runs of word characters of
    [s], left to right. *)
Fixpoint findall_words (cur s : str) : list str :=
  match s with
  | [] => flush cur
  | c :: rest =>
      if isw c then findall_words (c :: cur) rest
      else flush cur ++ findall_words [] rest
  end.

(** [word_freq[word] = word_freq.get(word, 0) + 1] on an insertion-ordered
    dict. *)
Fixpoint bump (word : str) (word_freq : list (str * nat)) : list (str * nat) :=
  match word_freq with
  | [] => [(word, 1%nat)]
  | (k, n) :: rest =>
      if str_eqb word k then (k, S n) :: rest else (k, n) :: bump word rest
  end.

(** The counting loop with its filter [len(word) > 2]. *)
Definition count_words (words : list str) : list (str * nat) :=
  fold_left
    (fun word_freq word =>
       if (2 <? length word)%nat then bump word word_freq else word_freq)
    words [].

(** [sorted(items, key=lambda x: x[1], reverse=True)]: a stable sort, so
    items of equal frequency keep their order. *)
Fixpoint insert_desc (x : str * nat) (l : list (str * nat)) : list (str * nat) :=
  match l with
  | [] => [x]
  | y :: l' =>
      if (snd x <? snd y)%nat then y :: insert_desc x l' else x :: y :: l'
  end.

Definition sorted_desc (items : list (str * nat)) : list (str * nat) :=
  foldr insert_desc [] items.

(** The loop over [industry_words] with its [keywords.insert(0, word)]. *)
Definition add_industry_words (transcript : str) (industry_words : list str)
    (keywords : list str) : list str :=
  fold_left
    (fun keywords word =>
       if contains word transcript && negb (str_in word keywords)
       then word :: keywords else keywords)
    industry_words keywords.

Definition _extract_keywords (transcript industry : str) : list str :=
  let words := findall_words [] transcript in
  let word_freq := count_words words in
  let keywords := map fst (take 20 (sorted_desc word_freq)) in
  let keywords :=
    match industry_keywords !! industry with
    | Some industry_words => add_industry_words transcript industry_words keywords
    | None => keywords
    end in
  take 15 keywords.

(** How often [w] occurs among [words], and the count a frequency table
    holds for [w] (0 when absent). *)
Definition occurrences (w : str) (words : list str) : nat :=
  length (List.filter (str_eqb w) words).

Fixpoint lookup_freq (w : str) (word_freq : list (str * nat)) : nat :=
  match word_freq with
  | [] => 0
  | (k, n) :: rest => if str_eqb w k then n else lookup_freq w rest
  end.

(** What the counting loop maintains: distinct keys, positive counts, and
    for every word the number of its occurrences so far if it is longer
    than 2 and nothing otherwise. *)
Definition counted (seen : list str) (table : list (str * nat)) : Prop :=
  NoDup (map fst table) ∧
  Forall (fun p => 0 < snd p)%nat table ∧
  ∀ w, lookup_freq w table =
         if (2 <? length w)%nat then occurrences w seen else 0%nat.

(** Descending order of frequency. *)
Definition by_frequency (x y : str * nat) : Prop := (snd y ≤ snd x)%nat.

Definition analyze_meeting_context (transcript : str) (meeting_info : dict)
    : MeetingContext :=
  let meeting_type := _detect_meeting_type transcript in
  let industry := _detect_industry transcript in
  let participants := dict_get_default (u "participants") (PList []) meeting_info in
  let keywords := _extract_keywords transcript industry in
  {| meeting_type := meeting_type;
     industry := industry;
     participants := participants;
     duration := dict_get_default (u "duration") (PNum 60) meeting_info;
     keywords := keywords;
     historical_context := None |}.

End Classification.

(** *** Post-processing *)

(** The values a [for x in v] loop visits. *)
Definition py_iter (v : pyval) : res (list pyval) :=
  match v with
  | PList l => Ok l
  | PStr s => Ok (map (fun c => PStr [c]) s)
  | PDict d => Ok (map (fun kv => PStr (fst kv)) d)
  | PNone | PBool _ | PNum _ => Raise TypeError
  end.

(** A loop body that starts with [x.get(...)], run on one visited value:
    only a dict has [get]. *)
Definition on_dict {A} (body : dict → res A) (x : pyval) : res A :=
  match x with
  | PDict d => body d
  | _ => Raise AttributeError
  end.

(** The loop changes the visited dicts in place; they are elements of the
    summary only when the value looped over is a list. *)
Definition written_back (v : pyval) (items : list pyval) : pyval :=
  match v with
  | PList _ => PList items
  | _ => v
  end.

(** [for x in summary.get(key, []): body(x)] where the body updates [x]. *)
Definition for_each_item (key : str) (body : dict → res dict) (summary : dict)
    : res dict :=
  match dict_get key summary with
  | None => Ok summary
  | Some v =>
      items ← py_iter v;
      items' ← mapM (on_dict (fun d => d' ← body d; mret (PDict d'))) items;
      mret (dict_set key (written_back v items') summary)
  end.

Definition set_str (k v : str) (d : dict) : dict := dict_set k (PStr v) d.

Definition adjust_point (context : MeetingContext) (point : dict) : res dict :=
  let content := dict_get_default (u "content") (PStr []) point in
  if str_eqb (meeting_type context) (u "project_review") then
    b ← any_in (map u ["风险"; "延期"; "阻塞"]%string) content;
    mret (if b : bool then set_str (u "importance") (u "high") point else point)
  else if str_eqb (meeting_type context) (u "strategic_planning") then
    b ← any_in (map u ["投资"; "战略"; "方向"]%string) content;
    mret (if b : bool then set_str (u "importance") (u "high") point else point)
  else mret point.

Definition _adjust_priority_by_meeting_type (summary : dict)
    (context : MeetingContext) : res dict :=
  for_each_item (u "key_points") (adjust_point context) summary.

Definition urgent_deadline_words : list str := map u ["本周"; "明天"; "今天"]%string.
Definition soon_deadline_words : list str := map u ["下周"; "月底"]%string.

(** The [try] block of [_add_time_sensitivity]: the priority it picks. *)
Definition deadline_priority (deadline : pyval) : res str :=
  b ← any_in urgent_deadline_words deadline;
  if b : bool then mret (u "high")
  else
    b' ← any_in soon_deadline_words deadline;
    if b' : bool then mret (u "medium") else mret (u "low").

(** The body of the loop over the action items; the bare [except:] turns
    anything raised into [medium]. *)
Definition time_sensitive (action : dict) : dict :=
  let deadline := dict_get_default (u "deadline") (PStr []) action in
  if truthy deadline then
    match deadline_priority deadline with
    | Ok p => set_str (u "priority") p action
    | Raise _ => set_str (u "priority") (u "medium") action
    end
  else action.

(** [current_time = datetime.now()] is read and never used. *)
Definition _add_time_sensitivity (summary : dict) : res dict :=
  for_each_item (u "action_items") (fun a => mret (time_sensitive a)) summary.

Definition high_impact_words : list str :=
  map u ["批准"; "同意"; "决定"; "确定"; "通过"; "投资"; "预算"]%string.

(** [importance_score] of one decision's content. *)
Definition importance_score (context : MeetingContext) (content : pyval)
    : res nat :=
  s ← match meeting_templates !! meeting_type context with
      | Some t =>
          b ← any_in (decision_patterns t) content;
          mret (if b : bool then 2 else 0)%nat
      | None => mret 0%nat
      end;
  b ← any_in high_impact_words content;
  mret (if b : bool then s + 1 else s)%nat.

(** The body of the loop over the decisions: the decision with its
    [urgency], and whether it was appended to [key_decisions]. *)
Definition tag_decision (context : MeetingContext) (decision : dict)
    : res (dict * bool) :=
  let content := dict_get_default (u "content") (PStr []) decision in
  score ← importance_score context content;
  if (2 <=? score)%nat then
    mret (set_str (u "urgency") (u "high") decision, true)
  else if (1 <=? score)%nat then
    mret (set_str (u "urgency") (u "medium") decision, false)
  else mret (set_str (u "urgency") (u "low") decision, false).

(** The loop over the decisions: the decisions as it leaves them, and
    [key_decisions] in the order of appending. *)
Fixpoint tag_decisions (context : MeetingContext) (items : list pyval)
    : res (list pyval * list pyval) :=
  match items with
  | [] => mret ([], [])
  | x :: rest =>
      '(d, key) ← on_dict (tag_decision context) x;
      '(rest', keys) ← tag_decisions context rest;
      mret (PDict d :: rest', if key : bool then PDict d :: keys else keys)
  end.

Definition _identify_key_decisions (summary : dict) (context : MeetingContext)
    : res dict :=
  '(summary, key_decisions) ←
    match dict_get (u "decisions") summary with
    | None => mret (summary, [])
    | Some v =>
        items ← py_iter v;
        '(items', keys) ← tag_decisions context items;
        mret (dict_set (u "decisions") (written_back v items') summary, keys)
    end;
  match key_decisions with
  | [] => mret summary
  | _ :: _ => mret (dict_set (u "key_decisions") (PList (take 3 key_decisions)) summary)
  end.

(** *** The scoring rule as the specification words it

    Plus 2 when the content contains a decision pattern of the meeting
    type, plus 1 when it contains a high-impact word; 2 or more is
    [high], exactly 1 is [medium], 0 is [low]. *)
Definition patterns_for (mt : str) : list str :=
  match meeting_templates !! mt with
  | Some t => decision_patterns t
  | None => []
  end.

Definition stated_score (mt content : str) : nat :=
  ((if any_contains (patterns_for mt) content then 2 else 0)
   + (if any_contains high_impact_words content then 1 else 0))%nat.

Definition stated_urgency (score : nat) : str :=
  if (2 <=? score)%nat then u "high"
  else if (score =? 1)%nat then u "medium"
  else u "low".

(** The content of a decision when it is a string (the default [""] when
    the decision has none). *)
Definition content_of (decision : dict) : option str :=
  match dict_get_default (u "content") (PStr []) decision with
  | PStr s => Some s
  | _ => None
  end.

Definition content_text (decision : dict) : str :=
  default [] (content_of decision).

Definition stated_tag (mt : str) (decision : dict) : dict :=
  set_str (u "urgency")
    (stated_urgency (stated_score mt (content_text decision))) decision.

Definition shortlisted (mt : str) (decision : dict) : bool :=
  (2 <=? stated_score mt (content_text decision))%nat.

(** A decision whose urgency is [medium] or [low]. *)
Definition not_high (x : pyval) : Prop :=
  ∃ decision, x = PDict decision ∧
    (dict_get (u "urgency") decision = Some (PStr (u "medium")) ∨
     dict_get (u "urgency") decision = Some (PStr (u "low"))).

(** Item assignment needs a dict. *)
Definition post_process_summary (summary : pyval) (context : MeetingContext)
    : res pyval :=
  match summary with
  | PDict summary =>
      let summary := set_str (u "industry") (industry context) summary in
      let summary := set_str (u "meeting_type") (meeting_type context) summary in
      summary ← _adjust_priority_by_meeting_type summary context;
      summary ← _add_time_sensitivity summary;
      summary ← _identify_key_decisions summary context;
      mret (PDict summary)
  | _ => Raise TypeError
  end.

(** *** Shapes on which the passes run through *)

(** A value on which [w in v] does not raise. *)
Definition scannable (v : pyval) : bool :=
  match v with
  | PStr _ | PList _ | PDict _ => true
  | PNone | PBool _ | PNum _ => false
  end.

(** A collection of the summary: absent, or a list whose elements all
    have the shape [elem]. *)
Definition collection_of (key : str) (elem : pyval → bool) (summary : dict)
    : bool :=
  match dict_get key summary with
  | None => true
  | Some (PList l) => forallb elem l
  | Some _ => false
  end.

(** A dict whose [content] (or the default [""]) can be scanned. *)
Definition has_scannable_content (x : pyval) : bool :=
  match x with
  | PDict d => scannable (dict_get_default (u "content") (PStr []) d)
  | _ => false
  end.

Definition processable (summary : dict) : bool :=
  collection_of (u "key_points") has_scannable_content summary
  && collection_of (u "action_items") Adapter.is_dict summary
  && collection_of (u "decisions") has_scannable_content summary.

(** Two dicts that agree on every key but [tag]. *)
Definition same_except (tag : str) (x x' : pyval) : Prop :=
  ∃ d d', x = PDict d ∧ x' = PDict d' ∧
    ∀ k, k ≠ tag → dict_get k d' = dict_get k d.

(** The loop of [for_each_item] on the value it finds under the key. *)
Definition loop_items (body : dict → res dict) (v : pyval) : res pyval :=
  items ← py_iter v;
  items' ← mapM (on_dict (fun d => d' ← body d; mret (PDict d'))) items;
  mret (written_back v items').

(** What one round of a loop does to an element. *)
Definition steps (body : dict → res dict) (x x' : pyval) : Prop :=
  ∃ d d', x = PDict d ∧ x' = PDict d' ∧ body d = Ok d'.

(** A body that changes nothing when run on its own result. *)
Definition settles (body : dict → res dict) : Prop :=
  ∀ d d', body d = Ok d' → body d' = Ok d'.

(** The loop of [_identify_key_decisions] on the value under
    [decisions], and the closing assignment of [key_decisions]. *)
Definition tag_value (context : MeetingContext) (v : pyval)
    : res (pyval * list pyval) :=
  items ← py_iter v;
  '(items', keys) ← tag_decisions context items;
  mret (written_back v items', keys).

Definition with_key_decisions (keys : list pyval) (summary : dict) : dict :=
  match keys with
  | [] => summary
  | _ :: _ => dict_set (u "key_decisions") (PList (take 3 keys)) summary
  end.

(** The keys post-processing writes at the top level of a summary. *)
Definition written_keys : list str :=
  map u [ "industry"; "meeting_type"; "key_points"; "action_items";
          "decisions"; "key_decisions" ]%string.

End ContextOptimizer.

(** ** [meeting_summary_agent.py] and [enhanced_agent_demo.py] *)

Module Agent.
Import Adapter.

(** [MeetingSegment] *)
Record MeetingSegment := {
  start_time : str;
  end_time : str;
  speaker : str;
  content : str
}.

(** [MeetingSummary]; the two floats of the source are the dyadic
    numbers 0.5 and 0.0. *)
Record MeetingSummary := {
  title : str;
  overview : str;
  key_points : list pyval;
  decisions : list pyval;
  action_items : list pyval;
  confidence_score : QArith_base.Q;
  processing_time : QArith_base.Q
}.

Definition lbracket : N := 91.
Definition rbracket : N := 93.
Definition colon : N := 58.
Definition space : N := 32.

(** [s.split(sep)] for a separator of one character: always at least
    one piece. *)
Fixpoint split_on (sep : N) (s : str) : list str :=
  match s with
  | [] => [[]]
  | c :: rest =>
      if c =? sep then [] :: split_on sep rest
      else
        match split_on sep rest with
        | l :: ls => (c :: l) :: ls
        | [] => [[c]]
        end
  end.

(** [s.split(sep, 1)[1]]: what follows the first separator; there is no
    such piece ([IndexError]) when the separator does not occur. *)
Fixpoint after_first (sep : N) (s : str) : option str :=
  match s with
  | [] => None
  | c :: rest => if c =? sep then Some rest else after_first sep rest
  end.

(** [f"{n:02d}"] *)
Definition fmt_02d (n : nat) : str :=
  if (n <? 10)%nat then 48 :: str_of_nat n else str_of_nat n.

(** The line of one segment in [_segments_to_text]. *)
Definition segment_line (segment : MeetingSegment) : str :=
  u "[" ++ start_time segment ++ u "] " ++ speaker segment ++ u ": "
    ++ content segment.

(** [MeetingSummaryAgent._segments_to_text] *)
Definition _segments_to_text (segments : list MeetingSegment) : str :=
  join_lines (map segment_line segments).

(** [c] does not occur in [s]. *)
Definition no_char (c : N) (s : str) : bool :=
  forallb (fun x => negb (x =? c)) s.

(** The line of a segment with or without the blank after its colon:
    the blank is lost when a line that ends with it is stripped. *)
Definition written (blank : bool) (segment : MeetingSegment) : str :=
  lbracket :: start_time segment ++ rbracket :: space :: speaker segment
    ++ colon :: (if blank then [space] else []) ++ content segment.

Section Whitespace.

(** [isspace c]: whether the character [c] is whitespace in the
    interpreter's Unicode tables, which is what [str.strip()] removes. *)
Context (isspace : N → bool).

Fixpoint lstrip (s : str) : str :=
  match s with
  | [] => []
  | c :: rest => if isspace c then lstrip rest else s
  end.

Definition rstrip (s : str) : str := rev (lstrip (rev s)).

(** [s.strip()] *)
Definition strip (s : str) : str := rstrip (lstrip s).

(** The segment of the subtitle line [i], the line passed by, or the
    [except] branch taken. *)
Inductive parsed :=
| Segment (segment : MeetingSegment)
| Skipped
| Failed.

(** From [speaker_part = line.split(']')[1].strip()] on. *)
Definition parse_part (i : nat) (part : str) : parsed :=
  let speaker_part := strip part in
  if contains (u ":") speaker_part then
    let speaker := strip (hd [] (split_on colon speaker_part)) in
    match after_first colon speaker_part with
    | None => Failed
    | Some rest =>
        let content := strip rest in
        Segment {| start_time := u "00:00:" ++ fmt_02d (i * 15);
                   end_time := u "00:00:" ++ fmt_02d ((i + 1) * 15);
                   speaker := speaker;
                   content := content |}
    end
  else Skipped.

(** The body of the loop of [_parse_subtitle_text]. *)
Definition parse_line (i : nat) (line : str) : parsed :=
  if negb (str_eqb (strip line) []) && contains (u "]") line
       && contains (u ":") line then
    match split_on rbracket line !! 1%nat with
    | None => Failed
    | Some part => parse_part i part
    end
  else Skipped.

Fixpoint parse_lines (i : nat) (lines : list str) : list MeetingSegment :=
  match lines with
  | [] => []
  | line :: rest =>
      match parse_line i line with
      | Segment segment => segment :: parse_lines (S i) rest
      | _ => parse_lines (S i) rest
      end
  end.

(** [EnhancedMeetingAgent._parse_subtitle_text] *)
Definition _parse_subtitle_text (subtitle_text : str) : list MeetingSegment :=
  parse_lines 0 (split_lines (strip subtitle_text)).

(** The loop of [_create_basic_summary] over the lines from [i] on. *)
Fixpoint basic_points (i : nat) (lines : list str) : list pyval :=
  match lines with
  | [] => []
  | line :: rest =>
      if negb (str_eqb (strip line) [])
      then key_point (u "讨论点") i (strip line) :: basic_points (S i) rest
      else basic_points (S i) rest
  end.

(** [MeetingSummaryAgent._create_basic_summary] *)
Definition _create_basic_summary (transcript_text : str) : MeetingSummary :=
  let lines := split_lines transcript_text in
  {| title := u "会议摘要（基础版）";
     overview :=
       u "会议共包含" ++ str_of_nat (length lines) ++ u "个发言片段";
     key_points := basic_points 0 (take 5 lines);
     decisions := [];
     action_items := [];
     confidence_score := QArith_base.Qmake 1 2;
     processing_time := QArith_base.Qmake 0 1 |}.

(** A segment whose speaker and content survive being written out and
    read back: no line break and no [']'] in start time, speaker and
    content, no [':'] in the speaker, speaker and content without
    surrounding whitespace.  The end time is not written. *)
Definition clean (segment : MeetingSegment) : bool :=
  no_char newline (start_time segment) && no_char rbracket (start_time segment)
  && no_char newline (speaker segment) && no_char rbracket (speaker segment)
  && no_char colon (speaker segment)
  && str_eqb (strip (speaker segment)) (speaker segment)
  && no_char newline (content segment) && no_char rbracket (content segment)
  && str_eqb (strip (content segment)) (content segment).

(** What reading back leaves of the segment written as line [i]. *)
Definition reread (i : nat) (segment : MeetingSegment) : MeetingSegment :=
  {| start_time := u "00:00:" ++ fmt_02d (i * 15);
     end_time := u "00:00:" ++ fmt_02d ((i + 1) * 15);
     speaker := speaker segment;
     content := content segment |}.

End Whitespace.

End Agent.

(** ** Sample inputs *)

Module Samples.
Import Adapter ContextOptimizer.

Definition openai : str := u "openai".
Definition local_model : str := u "local_model".
Definition baidu : str := u "baidu".

(** Adapters over a world that counts the calls of [generate_summary]. *)
Definition unavailable : AIServiceAdapter nat :=
  {| is_available := fun w => (false, w);
     generate_summary := fun _ _ w => (Raised (Exception "ConnectionError" (u "unreachable")), S w) |}.

Definition raising : AIServiceAdapter nat :=
  {| is_available := fun w => (true, w);
     generate_summary := fun _ _ w => (Raised (Exception "ConnectionError" (u "timeout")), S w) |}.

(** Answers with its degradation template, as the OpenAI adapter does on
    a reply that is no JSON. *)
Definition degrading : AIServiceAdapter nat :=
  {| is_available := fun w => (true, w);
     generate_summary := fun transcript _ w => (Returned (_create_fallback_summary transcript), S w) |}.

(** Raises on the first call of the run and answers afterwards. *)
Definition flaky : AIServiceAdapter nat :=
  {| is_available := fun w => (true, w);
     generate_summary := fun transcript _ w =>
       match w with
       | O => (Raised (Exception "ConnectionError" (u "timeout")), S w)
       | S _ => (Returned (_create_local_fallback_summary transcript), S w)
       end |}.

(** A manager set up the way [create_ai_service_manager] does it:
    register the adapters, designate the primary, set the order. *)
Definition manager_of (primary : str) (order : list str)
    (regs : list (str * AIServiceAdapter nat)) : AIServiceManager nat :=
  let m := foldl (fun m r => snd (register_adapter (fst r) (snd r) m))
             new_manager regs in
  let m := match snd (set_primary_adapter primary m) with
           | Returned m' => m'
           | Raised _ => m
           end in
  set_fallback_order order m.

(** Primary degrades, the only fallback would raise. *)
Definition primary_wins : AIServiceManager nat :=
  manager_of openai [local_model] [(openai, degrading); (local_model, raising)].

(** Three registered adapters, none available. *)
Definition all_down : AIServiceManager nat :=
  manager_of openai [local_model; baidu]
    [(openai, unavailable); (local_model, unavailable); (baidu, unavailable)].

(** The primary raises; the order names an unregistered adapter, an
    unavailable one, a raising one and then one that answers. *)
Definition long_walk : AIServiceManager nat :=
  manager_of openai [u "qwen"; local_model; u "backup"; baidu]
    [(openai, raising); (local_model, unavailable); (u "backup", raising); (baidu, degrading)].

(** The primary is also the first fallback name. *)
Definition primary_listed : AIServiceManager nat :=
  manager_of openai [openai; baidu] [(openai, flaky); (baidu, degrading)].

(** An adapter registered and made primary under the empty name. *)
Definition unnamed_primary : AIServiceManager nat :=
  manager_of [] [baidu] [([], degrading); (baidu, degrading)].

(** An adapter whose call is interrupted from the keyboard, and one whose
    probe raises. *)
Definition interrupted : AnyAdapter nat :=
  {| any_is_available := fun w => (inl true, w);
     any_generate_summary := fun _ _ w =>
       (inr (Thrown (Exception "KeyboardInterrupt" (u "")) false), S w) |}.

Definition probe_raising : AnyAdapter nat :=
  {| any_is_available := fun w =>
       (inr (Thrown (Exception "ConnectionError" (u "refused")) true), w);
     any_generate_summary := fun transcript _ w =>
       (inl (_create_fallback_summary transcript), S w) |}.

(** Each as primary, with a fallback that always answers. *)
Definition interrupted_primary : AnyManager nat :=
  {| any_adapters := <[openai := interrupted]> {[ baidu := any_of degrading ]};
     any_current_adapter := Some openai;
     any_fallback_order := [baidu] |}.

Definition probe_raising_primary : AnyManager nat :=
  {| any_adapters := <[openai := probe_raising]> {[ baidu := any_of degrading ]};
     any_current_adapter := Some openai;
     any_fallback_order := [baidu] |}.

Definition sample_transcript : str := u "[00:00:00] A: 开始".
Definition sample_prompt : str := u "请总结: {transcript}".

(** Word characters and lower-casing restricted to ASCII and Chinese. *)
Definition isw_ascii_han (c : N) : bool :=
  ((48 <=? c) && (c <=? 57)) || ((65 <=? c) && (c <=? 90))
  || ((97 <=? c) && (c <=? 122)) || (c =? 95) || han c.

Definition lower_ascii (before : str) (c : N) (after : str) : str :=
  if (65 <=? c) && (c <=? 90) then [c + 32] else [c].

Definition context_of (mt : str) : MeetingContext :=
  {| meeting_type := mt;
     industry := u "general";
     participants := PList [];
     duration := PNum 60;
     keywords := [];
     historical_context := None |}.

(** A backend's reply to the summary prompt. *)
Definition sample_reply : dict :=
  [ (u "title", PStr (u "周会"));
    (u "key_points",
      PList [PDict [(u "content", PStr (u "项目延期的风险"))]]);
    (u "decisions",
      PList [PDict [(u "content", PStr (u "同意调整排期"))]]);
    (u "action_items",
      PList [PDict [(u "task", PStr (u "更新计划")); (u "deadline", PStr (u "明天"))]]) ].

(** Whitespace among the ASCII characters: the blank and the controls
    from tab to carriage return. *)
Definition isspace_ascii (c : N) : bool :=
  (c =? 32) || ((9 <=? c) && (c <=? 13)).

(** Two segments of a transcription, the second without content. *)
Definition sample_segments : list Agent.MeetingSegment :=
  [ {| Agent.start_time := u "00:01:05"; Agent.end_time := u "00:01:09";
       Agent.speaker := u "张三"; Agent.content := u "开始: 项目评审" |};
    {| Agent.start_time := u "00:01:09"; Agent.end_time := u "00:01:12";
       Agent.speaker := u "李四"; Agent.content := u "" |} ].

(** A stand-in for [json.loads] that accepts the empty object only. *)
Definition json_loads_empty_object (s : str) : option pyval :=
  if str_eqb s (u "{}") then Some (PDict []) else None.

End Samples.

(** * Properties *)

(** ** Strings and dicts *)

Section StringFacts.

Lemma str_eqb_eq (a b : str) : str_eqb a b = true ↔ a = b.
Proof.
  revert b; induction a as [|x a IH]; intros [|y b]; simpl; try easy.
  rewrite andb_true_iff, N.eqb_eq, IH. split.
  - intros [-> ->]; reflexivity.
  - intros [= -> ->]; auto.
Qed.

Lemma str_eqb_refl (a : str) : str_eqb a a = true.
Proof. apply str_eqb_eq; reflexivity. Qed.

Lemma str_eqb_neq (a b : str) : str_eqb a b = false ↔ a ≠ b.
Proof.
  rewrite <- str_eqb_eq. destruct (str_eqb a b); split; congruence.
Qed.

Lemma startswith_spec (p s : str) :
  startswith p s = true ↔ ∃ r, s = p ++ r.
Proof.
  revert s; induction p as [|x p IH]; intros s; simpl.
  - split; eauto.
  - destruct s as [|y s].
    + split; [discriminate | intros [r [=]]].
    + rewrite andb_true_iff, N.eqb_eq, IH. split.
      * intros [-> [r ->]]; eauto.
      * intros [r [= -> ->]]; eauto.
Qed.

Lemma contains_spec (p s : str) :
  contains p s = true ↔ ∃ a b, s = a ++ p ++ b.
Proof.
  induction s as [|c s IH]; simpl.
  - rewrite orb_false_r, startswith_spec. split.
    + intros [r ->]. exists [], r; reflexivity.
    + intros (a & b & E). symmetry in E.
      apply app_eq_nil in E as [-> E]. exists b; auto.
  - rewrite orb_true_iff, startswith_spec, IH. split.
    + intros [[r ->] | (a & b & ->)].
      * exists [], r; reflexivity.
      * exists (c :: a), b; reflexivity.
    + intros ([|x a] & b & E); simpl in E.
      * left; eauto.
      * injection E as -> ->. right; eauto.
Qed.

Lemma any_contains_spec (words : list str) (s : str) :
  any_contains words s = true ↔ ∃ w, In w words ∧ contains w s = true.
Proof. unfold any_contains. apply existsb_exists. Qed.

Lemma dict_get_here (k : str) (v : pyval) (d : dict) :
  dict_get k ((k, v) :: d) = Some v.
Proof. simpl. rewrite str_eqb_refl. reflexivity. Qed.

Lemma dict_get_skip (k k' : str) (v : pyval) (d : dict) :
  str_eqb k k' = false → dict_get k ((k', v) :: d) = dict_get k d.
Proof. intros E. simpl. rewrite E. reflexivity. Qed.

Lemma dict_set_here (k : str) (v v' : pyval) (d : dict) :
  dict_set k v ((k, v') :: d) = (k, v) :: d.
Proof. simpl. rewrite str_eqb_refl. reflexivity. Qed.

Lemma dict_set_skip (k k' : str) (v v' : pyval) (d : dict) :
  str_eqb k k' = false → dict_set k v ((k', v') :: d) = (k', v') :: dict_set k v d.
Proof. intros E. simpl. rewrite E. reflexivity. Qed.

Lemma dict_get_set_eq (k : str) (v : pyval) (d : dict) :
  dict_get k (dict_set k v d) = Some v.
Proof.
  induction d as [|[k' v'] d IH]; simpl.
  - rewrite str_eqb_refl; reflexivity.
  - destruct (str_eqb k k') eqn:E; simpl.
    + rewrite str_eqb_refl; reflexivity.
    + rewrite E; exact IH.
Qed.

Lemma dict_get_set_ne (k k' : str) (v : pyval) (d : dict) :
  k ≠ k' → dict_get k (dict_set k' v d) = dict_get k d.
Proof.
  intros Hne. induction d as [|[k2 v2] d IH]; simpl.
  - apply str_eqb_neq in Hne. rewrite Hne; reflexivity.
  - destruct (str_eqb k' k2) eqn:E; simpl.
    + apply str_eqb_eq in E; subst k2.
      apply str_eqb_neq in Hne. rewrite Hne; reflexivity.
    + destruct (str_eqb k k2); [reflexivity | exact IH].
Qed.

End StringFacts.

(** Looking up a literal key in a dict written out entry by entry. *)
Ltac dict_lookup :=
  repeat (rewrite dict_get_skip by (vm_compute; reflexivity));
  rewrite dict_get_here.

(** ** The service manager *)

Module ManagerFacts.
Import Adapter.

Ltac eff_run :=
  unfold mbind, mret, eff_bind, eff_ret, log,
    call_is_available, call_generate_summary.

Section Facts.

Context {W : Type}.
Implicit Types (m : AIServiceManager W) (a : AIServiceAdapter W).
Implicit Types (w : W) (tr : list event) (t p name : str).

(** The first block, case by case. *)
Lemma try_primary_returned m name a t p w w1 doc w2 :
  designated m = Some name →
  adapters m !! name = Some a →
  is_available a w = (true, w1) →
  generate_summary a t p w1 = (Returned doc, w2) →
  try_primary m t p w =
    ([ CallIsAvailable name;
       LogInfo (u "使用适配器: " ++ name);
       CallGenerateSummary name t p ],
     Some doc, w2).
Proof.
  intros Hd Hreg Hav Hgen. unfold try_primary. rewrite Hd, Hreg.
  eff_run. rewrite Hav, Hgen. reflexivity.
Qed.

Lemma try_primary_fails m t p w tr w' :
  primary_fails m t p w tr w' → try_primary m t p w = (tr, None, w').
Proof.
  intros H. destruct H as
    [w Hd | name w Hd Hreg | name a w w1 Hd Hreg Hav
     | name a w w1 e w2 Hd Hreg Hav Hgen];
    unfold try_primary; rewrite Hd; try rewrite Hreg; eff_run;
    try rewrite Hav; try rewrite Hgen; reflexivity.
Qed.

(** The fallback loop over names that yield nothing, then the rest. *)
Lemma try_fallbacks_passes m t p pre post w tr w' :
  passes_over m t p pre w tr w' →
  try_fallbacks m t p (pre ++ post) w =
    (let '(tr2, r, w2) := try_fallbacks m t p post w' in (tr ++ tr2, r, w2)).
Proof.
  induction 1 as
    [w | name rest w tr w' Hreg _ IH | name a rest w w1 tr w' Hreg Hav _ IH
     | name a rest w w1 e w2 tr w' Hreg Hav Hgen _ IH].
  - simpl. destruct (try_fallbacks m t p post w) as [[tr2 r] w2]. reflexivity.
  - cbn [app try_fallbacks]. rewrite Hreg. exact IH.
  - cbn [app try_fallbacks]. rewrite Hreg. eff_run. rewrite Hav, IH.
    destruct (try_fallbacks m t p post w') as [[trq rq] wq]. reflexivity.
  - cbn [try_fallbacks]. rewrite <- app_comm_cons. cbn [try_fallbacks].
    rewrite Hreg. eff_run. rewrite Hav, Hgen, IH.
    destruct (try_fallbacks m t p post w') as [[trq rq] wq]. reflexivity.
Qed.

Lemma try_fallbacks_all_pass m t p order w tr w' :
  passes_over m t p order w tr w' →
  try_fallbacks m t p order w = (tr, None, w').
Proof.
  intros H. pose proof (try_fallbacks_passes m t p order [] w tr w' H) as E.
  rewrite app_nil_r in E. rewrite E. simpl. eff_run.
  rewrite app_nil_r. reflexivity.
Qed.

Lemma try_fallbacks_head_returned m t p name a rest w w1 doc w2 :
  adapters m !! name = Some a →
  is_available a w = (true, w1) →
  generate_summary a t p w1 = (Returned doc, w2) →
  try_fallbacks m t p (name :: rest) w =
    ([ CallIsAvailable name;
       LogInfo (u "使用降级适配器: " ++ name);
       CallGenerateSummary name t p ],
     Some doc, w2).
Proof.
  intros Hreg Hav Hgen. cbn [try_fallbacks]. rewrite Hreg.
  eff_run. rewrite Hav, Hgen. reflexivity.
Qed.

(** The whole operation once the first block has fallen through. *)
Lemma fallback_after_primary m t p w tr0 w0 :
  primary_fails m t p w tr0 w0 →
  generate_summary_with_fallback m t p w =
    (let '(tr1, r, w1) := try_fallbacks m t p (fallback_order m) w0 in
     (tr0 ++ tr1 ++ [],
      match r with Some doc => Returned doc | None => Raised exhausted end,
      w1)).
Proof.
  intros H. unfold generate_summary_with_fallback.
  unfold mbind at 1. unfold eff_bind at 1.
  rewrite (try_primary_fails _ _ _ _ _ _ H).
  unfold mbind, eff_bind.
  destruct (try_fallbacks m t p (fallback_order m) w0) as [[tr1 [doc|]] w1];
    reflexivity.
Qed.

(** Every run of the first block either returns the primary's document
    or fails in one of the listed ways. *)
Lemma try_primary_cases m t p w :
  (∃ name a w1 doc w2,
     designated m = Some name ∧ adapters m !! name = Some a ∧
     is_available a w = (true, w1) ∧
     generate_summary a t p w1 = (Returned doc, w2)) ∨
  (∃ tr w', primary_fails m t p w tr w').
Proof.
  destruct (designated m) as [name |] eqn:Hd;
    [| right; eexists _, _; apply primary_not_designated; exact Hd].
  destruct (adapters m !! name) as [a |] eqn:Hreg;
    [| right; eexists _, _; eapply primary_not_registered; eassumption].
  destruct (is_available a w) as [[|] w1] eqn:Hav;
    [| right; eexists _, _; eapply primary_unavailable; eassumption].
  destruct (generate_summary a t p w1) as [[doc | e] w2] eqn:Hgen.
  - left. eexists _, _, _, _, _. eauto.
  - right. eexists _, _. eapply primary_raised; eassumption.
Qed.

(** Every walk either passes over the whole order or stops at the first
    registered, available adapter whose call returns. *)
Lemma fallback_walk_cases m t p order w :
  (∃ tr w', passes_over m t p order w tr w') ∨
  (∃ pre name post a tr1 w1 w2 doc w3,
     order = pre ++ name :: post ∧
     passes_over m t p pre w tr1 w1 ∧
     adapters m !! name = Some a ∧
     is_available a w1 = (true, w2) ∧
     generate_summary a t p w2 = (Returned doc, w3)).
Proof.
  revert w; induction order as [|name rest IH]; intros w.
  - left. eexists _, _. apply passes_nil.
  - destruct (adapters m !! name) as [a |] eqn:Hreg.
    + destruct (is_available a w) as [[|] w1] eqn:Hav.
      * destruct (generate_summary a t p w1) as [[doc | e] w2] eqn:Hgen.
        -- right. exists [], name, rest, a, [], w, w1, doc, w2.
           repeat apply conj; auto. apply passes_nil.
        -- destruct (IH w2) as
             [(tr & w' & H)
             | (pre & n & post & b & tr1 & v1 & v2 & doc & v3 & -> & H & Hrest)].
           ++ left. eexists _, _. eapply passes_raised; eassumption.
           ++ right. exists (name :: pre), n, post, b. eexists _, _, _, _, _.
              split; [reflexivity |]. split; [| exact Hrest].
              eapply passes_raised; eassumption.
      * destruct (IH w1) as
          [(tr & w' & H)
          | (pre & n & post & b & tr1 & v1 & v2 & doc & v3 & -> & H & Hrest)].
        -- left. eexists _, _. eapply passes_unavailable; eassumption.
        -- right. exists (name :: pre), n, post, b. eexists _, _, _, _, _.
           split; [reflexivity |]. split; [| exact Hrest].
           eapply passes_unavailable; eassumption.
    + destruct (IH w) as
        [(tr & w' & H)
        | (pre & n & post & b & tr1 & v1 & v2 & doc & v3 & -> & H & Hrest)].
      * left. eexists _, _. apply passes_absent; eassumption.
      * right. exists (name :: pre), n, post, b. eexists _, _, _, _, _.
        split; [reflexivity |]. split; [| exact Hrest].
        apply passes_absent; eassumption.
Qed.

(** C1: when a primary is designated, registered, available and its call
    returns [doc] (a degraded document included), the operation returns
    [doc]; the only adapter methods invoked are the primary's probe and
    its call, whatever the fallback order holds. *)
Theorem primary_success_short_circuits m name a t p w w1 doc w2 :
  designated m = Some name →
  adapters m !! name = Some a →
  is_available a w = (true, w1) →
  generate_summary a t p w1 = (Returned doc, w2) →
  generate_summary_with_fallback m t p w =
    ([ CallIsAvailable name;
       LogInfo (u "使用适配器: " ++ name);
       CallGenerateSummary name t p ],
     Returned doc, w2).
Proof.
  intros Hd Hreg Hav Hgen. unfold generate_summary_with_fallback.
  unfold mbind at 1. unfold eff_bind at 1.
  rewrite (try_primary_returned _ _ _ _ _ _ _ _ _ Hd Hreg Hav Hgen).
  reflexivity.
Qed.





(** C3: when the primary is absent, unavailable or raised, the fallback
    order is walked in sequence: unregistered names leave no trace,
    unavailable adapters are only probed, a raising adapter is logged
    with a warning, and the first available registered adapter whose call
    returns supplies the result; later names are not touched. *)
Theorem fallback_walk_first_success m t p w tr0 w0 pre name post a tr1 w1 w2 doc w3 :
  primary_fails m t p w tr0 w0 →
  fallback_order m = pre ++ name :: post →
  passes_over m t p pre w0 tr1 w1 →
  adapters m !! name = Some a →
  is_available a w1 = (true, w2) →
  generate_summary a t p w2 = (Returned doc, w3) →
  generate_summary_with_fallback m t p w =
    (tr0 ++ tr1 ++
       [ CallIsAvailable name;
         LogInfo (u "使用降级适配器: " ++ name);
         CallGenerateSummary name t p ],
     Returned doc, w3).
Proof.
  intros Hp Hord Hpre Hreg Hav Hgen.
  rewrite (fallback_after_primary _ _ _ _ _ _ Hp), Hord.
  rewrite (try_fallbacks_passes _ _ _ _ (name :: post) _ _ _ Hpre).
  rewrite (try_fallbacks_head_returned _ _ _ _ _ post _ _ _ _ Hreg Hav Hgen).
  rewrite app_nil_r. reflexivity.
Qed.

(** C9: when the primary's call raised and its name stands in the
    fallback order, the walk reaches that name like any other: the same
    adapter is probed again and, if available, called a second time, and
    a result of that second call is returned before any later name is
    looked at. *)
Theorem primary_retried_in_fallback m name a t p w w1 e w2 pre post trp w3 :
  designated m = Some name →
  adapters m !! name = Some a →
  is_available a w = (true, w1) →
  generate_summary a t p w1 = (Raised e, w2) →
  fallback_order m = pre ++ name :: post →
  passes_over m t p pre w2 trp w3 →
  ∃ tr_rest r w',
    generate_summary_with_fallback m t p w =
      ([ CallIsAvailable name;
         LogInfo (u "使用适配器: " ++ name);
         CallGenerateSummary name t p;
         LogWarning (u "主适配器失败: " ++ exn_str e) ]
       ++ trp ++ CallIsAvailable name :: tr_rest, r, w') ∧
    ∀ w4, is_available a w3 = (true, w4) →
      ∃ tr2,
        tr_rest =
          LogInfo (u "使用降级适配器: " ++ name)
          :: CallGenerateSummary name t p :: tr2 ∧
        ∀ doc w5, generate_summary a t p w4 = (Returned doc, w5) →
          tr2 = [] ∧ r = Returned doc ∧ w' = w5.
Proof.
  intros Hd Hreg Hav Hgen Hord Hpre.
  rewrite (fallback_after_primary m t p w _ w2
             (primary_raised m t p name a w w1 e w2 Hd Hreg Hav Hgen)).
  rewrite Hord, (try_fallbacks_passes _ _ _ _ (name :: post) _ _ _ Hpre).
  cbn [try_fallbacks]. rewrite Hreg. eff_run.
  destruct (is_available a w3) as [[|] w4] eqn:Hav2.
  - destruct (generate_summary a t p w4) as [[doc|e2] w5] eqn:Hgen2.
    + eexists _, _, _. split.
      * cbn [app]. rewrite !app_nil_r. reflexivity.
      * intros w4' [= <-]. eexists. split; [reflexivity|].
        intros doc' w5' Hgen'. rewrite Hgen2 in Hgen'.
        injection Hgen' as <- <-. auto.
    + destruct (try_fallbacks m t p post w5) as [[tr5 r5] w6].
      eexists _, _, _. split.
      * cbn [app]. rewrite !app_nil_r. reflexivity.
      * intros w4' [= <-]. eexists. split; [reflexivity|].
        intros doc' w5' Hgen'. rewrite Hgen2 in Hgen'. discriminate.
  - destruct (try_fallbacks m t p post w4) as [[tr5 r5] w6].
    eexists _, _, _. split.
    + cbn [app]. rewrite !app_nil_r. reflexivity.
    + intros w4' [=].
Qed.

End Facts.
End ManagerFacts.

(** ** The service manager on sample registries *)

Module ManagerExamples.
Import Adapter Samples ManagerFacts.

(** The primary answers with its degradation template; the fallback
    [local_model], which would raise, is never called. *)
Lemma primary_success_short_circuits_witness :
  designated primary_wins = Some openai ∧
  adapters primary_wins !! openai = Some degrading ∧
  is_available degrading 0%nat = (true, 0%nat) ∧
  generate_summary degrading sample_transcript sample_prompt 0%nat =
    (Returned (_create_fallback_summary sample_transcript), 1%nat) ∧
  generate_summary_with_fallback primary_wins sample_transcript sample_prompt 0%nat =
    ([ CallIsAvailable openai;
       LogInfo (u "使用适配器: " ++ openai);
       CallGenerateSummary openai sample_transcript sample_prompt ],
     Returned (_create_fallback_summary sample_transcript), 1%nat).
Proof.
  do 4 (split; [reflexivity |]).
  apply (primary_success_short_circuits primary_wins openai degrading
           sample_transcript sample_prompt 0%nat 0%nat _ 1%nat); reflexivity.
Defined.





Lemma long_walk_primary_fails :
  primary_fails long_walk sample_transcript sample_prompt 0%nat
    [ CallIsAvailable openai;
      LogInfo (u "使用适配器: " ++ openai);
      CallGenerateSummary openai sample_transcript sample_prompt;
      LogWarning (u "主适配器失败: " ++ u "timeout") ] 1%nat.
Proof.
  apply (primary_raised _ _ _ openai raising 0%nat 0%nat
           (Exception "ConnectionError" (u "timeout")) 1%nat); reflexivity.
Defined.

Lemma long_walk_passes :
  passes_over long_walk sample_transcript sample_prompt [u "qwen"; local_model; u "backup"] 1%nat
    ([CallIsAvailable local_model] ++
     [ CallIsAvailable (u "backup");
       LogInfo (u "使用降级适配器: " ++ u "backup");
       CallGenerateSummary (u "backup") sample_transcript sample_prompt;
       LogWarning (u "降级适配器失败: " ++ u "timeout") ]) 2%nat.
Proof.
  apply passes_absent; [reflexivity |].
  apply (passes_unavailable _ _ _ local_model unavailable _ _ 1%nat);
    [reflexivity | reflexivity |].
  apply (passes_raised _ _ _ (u "backup") raising [] 1%nat 1%nat
           (Exception "ConnectionError" (u "timeout")) 2%nat [] 2%nat);
    [reflexivity | reflexivity | reflexivity |].
  apply passes_nil.
Defined.

(** The primary raises; [qwen] is not registered, [local_model] is
    unavailable, [backup] raises, [baidu] answers. *)
Lemma fallback_walk_first_success_witness :
  fallback_order long_walk = [u "qwen"; local_model; u "backup"] ++ baidu :: [] ∧
  adapters long_walk !! baidu = Some degrading ∧
  is_available degrading 2%nat = (true, 2%nat) ∧
  generate_summary degrading sample_transcript sample_prompt 2%nat =
    (Returned (_create_fallback_summary sample_transcript), 3%nat) ∧
  ∃ tr, generate_summary_with_fallback long_walk sample_transcript sample_prompt 0%nat =
    (tr, Returned (_create_fallback_summary sample_transcript), 3%nat).
Proof.
  do 4 (split; [reflexivity |]). eexists.
  apply (fallback_walk_first_success long_walk sample_transcript sample_prompt 0%nat _ 1%nat
           [u "qwen"; local_model; u "backup"] baidu [] degrading _ 2%nat 2%nat _ 3%nat
           long_walk_primary_fails eq_refl long_walk_passes);
    reflexivity.
Defined.

(** [openai] is primary and first fallback: it raises, is probed again,
    is called again and this time answers. *)
Lemma primary_retried_in_fallback_witness :
  designated primary_listed = Some openai ∧
  adapters primary_listed !! openai = Some flaky ∧
  is_available flaky 0%nat = (true, 0%nat) ∧
  generate_summary flaky sample_transcript sample_prompt 0%nat =
    (Raised (Exception "ConnectionError" (u "timeout")), 1%nat) ∧
  fallback_order primary_listed = [] ++ openai :: [baidu] ∧
  ∃ tr_rest r w',
    generate_summary_with_fallback primary_listed sample_transcript sample_prompt 0%nat =
      ([ CallIsAvailable openai;
         LogInfo (u "使用适配器: " ++ openai);
         CallGenerateSummary openai sample_transcript sample_prompt;
         LogWarning (u "主适配器失败: " ++ u "timeout") ]
       ++ [] ++ CallIsAvailable openai :: tr_rest, r, w') ∧
    ∀ w4, is_available flaky 1%nat = (true, w4) →
      ∃ tr2,
        tr_rest =
          LogInfo (u "使用降级适配器: " ++ openai)
          :: CallGenerateSummary openai sample_transcript sample_prompt :: tr2 ∧
        ∀ doc w5, generate_summary flaky sample_transcript sample_prompt w4 = (Returned doc, w5) →
          tr2 = [] ∧ r = Returned doc ∧ w' = w5.
Proof.
  do 5 (split; [reflexivity |]).
  exact (primary_retried_in_fallback primary_listed openai flaky sample_transcript sample_prompt
           0%nat 0%nat (Exception "ConnectionError" (u "timeout")) 1%nat
           [] [baidu] [] 1%nat
           eq_refl eq_refl eq_refl eq_refl eq_refl
           (passes_nil primary_listed sample_transcript sample_prompt 1%nat)).
Defined.

(** The test [if self.current_adapter] is false for the empty name: a
    primary registered under it is not tried, the walk starts at once. *)
Example unnamed_primary_run :
  current_adapter unnamed_primary = Some [] ∧
  designated unnamed_primary = None ∧
  generate_summary_with_fallback unnamed_primary sample_transcript sample_prompt 0%nat =
    ([ CallIsAvailable baidu;
       LogInfo (u "使用降级适配器: " ++ baidu);
       CallGenerateSummary baidu sample_transcript sample_prompt ],
     Returned (_create_fallback_summary sample_transcript), 1%nat).
Proof. repeat apply conj; vm_compute; reflexivity. Qed.

(** The second call of [openai] is the one that supplies the result. *)
Example primary_listed_run :
  generate_summary_with_fallback primary_listed sample_transcript sample_prompt 0%nat =
    ([ CallIsAvailable openai;
       LogInfo (u "使用适配器: " ++ openai);
       CallGenerateSummary openai sample_transcript sample_prompt;
       LogWarning (u "主适配器失败: " ++ u "timeout");
       CallIsAvailable openai;
       LogInfo (u "使用降级适配器: " ++ openai);
       CallGenerateSummary openai sample_transcript sample_prompt ],
     Returned (_create_local_fallback_summary sample_transcript), 2%nat).
Proof. vm_compute. reflexivity. Qed.

End ManagerExamples.

(** ** The degradation templates *)

Module TemplateFacts.
Import Adapter.

Lemma split_lines_nonempty (s : str) : split_lines s ≠ [].
Proof.
  destruct s as [|c s]; simpl; [discriminate |].
  destruct (c =? newline); [discriminate |].
  destruct (split_lines s); discriminate.
Qed.

(** The pieces, joined by newlines, are the text again: the template
    works on the lines of the transcript itself. *)
Lemma join_split_lines (s : str) : join_lines (split_lines s) = s.
Proof.
  induction s as [|c s IH]; [reflexivity |].
  cbn [split_lines]. destruct (c =? newline) eqn:E.
  - apply N.eqb_eq in E; subst c.
    pose proof (split_lines_nonempty s) as Hne.
    destruct (split_lines s) as [|l ls]; [congruence |].
    cbn [join_lines app]. cbn [join_lines] in IH. rewrite IH. reflexivity.
  - pose proof (split_lines_nonempty s) as Hne.
    destruct (split_lines s) as [|l ls]; [congruence |].
    destruct ls as [|l2 ls]; cbn [join_lines] in *.
    + rewrite IH; reflexivity.
    + rewrite <- IH. reflexivity.
Qed.

Lemma split_lines_no_newline (s : str) :
  Forall (fun l => ¬ In newline l) (split_lines s).
Proof.
  induction s as [|c s IH]; cbn [split_lines].
  - constructor; [intros [] | constructor].
  - destruct (c =? newline) eqn:E.
    + constructor; [intros [] | exact IH].
    + apply N.eqb_neq in E.
      destruct (split_lines s) as [|l ls]; inversion IH; subst.
      * constructor; [| constructor]. intros [H | []]; congruence.
      * constructor; [| assumption]. intros [H | H]; [congruence | tauto].
Qed.

Lemma imap_all_key_points (g : nat → str → pyval) (lines : list str) :
  (∀ i l, is_key_point (g i l) = true) →
  forallb is_key_point (imap g lines) = true.
Proof.
  revert g; induction lines as [|l lines IH]; intros g Hg; [reflexivity |].
  cbn [imap forallb]. rewrite Hg. apply IH. intros i x; apply Hg.
Qed.

Lemma key_point_shape (label : str) (i : nat) (line : str) :
  is_key_point (key_point label i line) = true.
Proof. reflexivity. Qed.

Lemma taken_lines_bounds (n : nat) (s : str) :
  (1 ≤ n → 1 ≤ length (take n (split_lines s)) ≤ n)%nat.
Proof.
  intros Hn. rewrite length_take.
  pose proof (split_lines_nonempty s).
  destruct (split_lines s); [congruence | simpl; lia].
Qed.

(** C6 (as the code has it): for every transcript, the empty one and one
    without newlines included, each family's template is a well-shaped
    summary document whose key points are made, in order, from the first
    [line_limit] lines of the transcript (at least one, as splitting
    always yields a line), whose other four collections are empty and
    whose title is the family's fixed marker; the overview is a fixed
    marker for the local and Baidu families and, for the OpenAI family,
    the sentence giving the number of key points. *)
Theorem degradation_template_shape (f : family) (transcript : str) :
  let lines := take (line_limit f) (split_lines transcript) in
  is_summary_document (degradation_template f transcript) = true ∧
  (∃ d, degradation_template f transcript = PDict d ∧
     map fst d = map u [ "title"; "overview"; "key_points"; "decisions";
                         "action_items"; "risks"; "opportunities" ]%string ∧
     dict_get (u "title") d = Some (PStr (title_marker f)) ∧
     dict_get (u "overview") d = Some (PStr (overview_text f (length lines))) ∧
     dict_get (u "key_points") d =
       Some (PList (imap (key_point (topic_label f)) lines)) ∧
     dict_get (u "decisions") d = Some (PList []) ∧
     dict_get (u "action_items") d = Some (PList []) ∧
     dict_get (u "risks") d = Some (PList []) ∧
     dict_get (u "opportunities") d = Some (PList [])) ∧
  (∀ i line, lines !! i = Some line →
     imap (key_point (topic_label f)) lines !! i =
       Some (PDict [ (u "topic", PStr (topic_label f ++ str_of_nat (i + 1)));
                     (u "content", PStr line);
                     (u "participants", PList [PStr (u "未知")]);
                     (u "timestamp", PStr (u "未知")) ])) ∧
  (1 ≤ length lines ≤ line_limit f)%nat ∧
  join_lines (split_lines transcript) = transcript.
Proof.
  intros lines. split; [| split; [| split; [| split]]].
  - destruct f; cbn [degradation_template];
      unfold _create_fallback_summary, _create_local_fallback_summary,
        _create_baidu_fallback_summary, is_summary_document;
      rewrite !andb_true_iff; repeat apply conj; try reflexivity.
    all: unfold has_field; dict_lookup; cbn [is_list_of].
    all: apply imap_all_key_points; intros; apply key_point_shape.
  - destruct f; eexists; (split; [reflexivity |]); repeat apply conj;
      try (vm_compute; reflexivity); dict_lookup; reflexivity.
  - intros i line Hi. rewrite list_lookup_imap, Hi. reflexivity.
  - apply taken_lines_bounds. destruct f; simpl; lia.
  - apply join_split_lines.
Qed.

(** C6, as stated, fails: the overview of the OpenAI template is not one
    fixed string, it changes with the number of lines taken. *)
Lemma openai_overview_not_fixed :
  ¬ ∀ f : family, ∃ marker : str, ∀ transcript d,
      degradation_template f transcript = PDict d →
      dict_get (u "overview") d = Some (PStr marker).
Proof.
  intros H. destruct (H OpenAI) as [marker Hm].
  pose proof (Hm (u "") _ eq_refl) as H1.
  pose proof (Hm [97; newline; 98] _ eq_refl) as H2.
  vm_compute in H1, H2. congruence.
Qed.

(** The Baidu template of a text without newline. *)
Lemma degradation_template_shape_witness :
  is_summary_document (degradation_template BaiduAI (u "大家好")) = true ∧
  dict_get (u "key_points")
    (match degradation_template BaiduAI (u "大家好") with
     | PDict d => d
     | _ => []
     end) =
    Some (PList [ PDict [ (u "topic", PStr (u "关键讨论1"));
                          (u "content", PStr (u "大家好"));
                          (u "participants", PList [PStr (u "未知")]);
                          (u "timestamp", PStr (u "未知")) ] ]).
Proof.
  destruct (degradation_template_shape BaiduAI (u "大家好"))
    as (Hdoc & (d & Hd & _ & _ & _ & Hkp & _) & _).
  split; [exact Hdoc |]. rewrite Hd, Hkp. vm_compute. reflexivity.
Defined.

Example openai_template_of_empty :
  _create_fallback_summary (u "") =
    PDict [ (u "title", PStr (u "会议摘要（OpenAI降级版）"));
            (u "overview", PStr (u "会议包含1个主要讨论点"));
            (u "key_points",
              PList [ PDict [ (u "topic", PStr (u "讨论点1"));
                              (u "content", PStr (u ""));
                              (u "participants", PList [PStr (u "未知")]);
                              (u "timestamp", PStr (u "未知")) ] ]);
            (u "decisions", PList []);
            (u "action_items", PList []);
            (u "risks", PList []);
            (u "opportunities", PList []) ].
Proof. vm_compute. reflexivity. Qed.

End TemplateFacts.

(** ** Meeting-type detection *)

Module ClassificationFacts.
Import ContextOptimizer Samples.

Section Lowering.

Context (lower_at : str → N → str → str).

(** Chinese characters are their own lower case; any other character
    is replaced by at least one character, none of them Chinese. *)
Hypothesis lower_han : ∀ before c after,
  han c = true → lower_at before c after = [c].
Hypothesis lower_other : ∀ before c after,
  han c = false →
  lower_at before c after ≠ [] ∧
  ∀ x, In x (lower_at before c after) → han x = false.

Lemma lower_go_han_prefix (kw pre rest : str) :
  all_han kw →
  lower_go lower_at pre (kw ++ rest) = kw ++ lower_go lower_at (pre ++ kw) rest.
Proof.
  revert pre; induction kw as [|c kw IH]; intros pre Hkw.
  - rewrite app_nil_r. reflexivity.
  - unfold all_han in Hkw. cbn [forallb] in Hkw.
    apply andb_true_iff in Hkw as [Hc Hkw].
    cbn [app lower_go]. rewrite (lower_han _ _ _ Hc), (IH _ Hkw).
    rewrite <- app_assoc. reflexivity.
Qed.

Lemma lower_go_keeps (kw a b pre : str) :
  all_han kw → ∃ x y, lower_go lower_at pre (a ++ kw ++ b) = x ++ kw ++ y.
Proof.
  intros Hkw. revert pre; induction a as [|c a IH]; intros pre.
  - exists [], (lower_go lower_at (pre ++ kw) b).
    cbn [app]. apply lower_go_han_prefix, Hkw.
  - destruct (IH (pre ++ [c])) as (x & y & E).
    exists (lower_at pre c (a ++ kw ++ b) ++ x), y.
    cbn [app lower_go]. rewrite E, <- app_assoc. reflexivity.
Qed.

(** A Chinese keyword at the head of the lowered text stood at the head
    of the text. *)
Lemma lowered_han_prefix (kw s pre y : str) :
  all_han kw → lower_go lower_at pre s = kw ++ y → ∃ r, s = kw ++ r.
Proof.
  revert s pre; induction kw as [|k kw IH]; intros s pre Hkw E.
  - exists s; reflexivity.
  - unfold all_han in Hkw. cbn [forallb] in Hkw.
    apply andb_true_iff in Hkw as [Hk Hkw].
    destruct s as [|c s]; [discriminate E |].
    cbn [lower_go] in E. destruct (han c) eqn:Hc.
    + rewrite (lower_han _ _ _ Hc) in E. injection E as -> E.
      destruct (IH _ _ Hkw E) as [r ->]. exists r; reflexivity.
    + destruct (lower_other pre c s Hc) as [Hne Hall].
      destruct (lower_at pre c s) as [|x blk]; [congruence |].
      injection E as -> _. rewrite (Hall k) in Hk; [discriminate | left; reflexivity].
Qed.

(** A Chinese keyword cannot overlap characters that are not Chinese. *)
Lemma han_occurrence_after_block (blk rest x kw y : str) :
  (∀ c, In c blk → han c = false) → kw ≠ [] → all_han kw →
  blk ++ rest = x ++ kw ++ y → ∃ x', rest = x' ++ kw ++ y.
Proof.
  revert x; induction blk as [|b blk IH]; intros x Hblk Hne Hkw E.
  - exists x; exact E.
  - destruct x as [|c x].
    + destruct kw as [|k kw]; [congruence |].
      injection E as -> _. unfold all_han in Hkw. cbn [forallb] in Hkw.
      apply andb_true_iff in Hkw as [Hk _].
      rewrite (Hblk k) in Hk; [discriminate | left; reflexivity].
    + injection E as _ E. apply (IH x); auto.
      intros c0 Hc0; apply Hblk; right; exact Hc0.
Qed.

Lemma lower_go_reflects (kw s pre x y : str) :
  kw ≠ [] → all_han kw →
  lower_go lower_at pre s = x ++ kw ++ y → ∃ a b, s = a ++ kw ++ b.
Proof.
  intros Hne Hkw. revert pre x; induction s as [|c s IH]; intros pre x E.
  - cbn [lower_go] in E. symmetry in E.
    apply app_eq_nil in E as [_ E]. apply app_eq_nil in E as [E _]. congruence.
  - cbn [lower_go] in E. destruct (han c) eqn:Hc.
    + rewrite (lower_han _ _ _ Hc) in E. destruct x as [|x0 x].
      * destruct kw as [|k kw]; [congruence |].
        cbn [app] in E. injection E as -> E.
        unfold all_han in Hkw. cbn [forallb] in Hkw.
        apply andb_true_iff in Hkw as [_ Hkw].
        destruct (lowered_han_prefix _ _ _ _ Hkw E) as [r ->].
        exists [], r; reflexivity.
      * cbn [app] in E. injection E as _ E.
        destruct (IH _ _ E) as (a & b & ->).
        exists (c :: a), b; reflexivity.
    + destruct (lower_other pre c s Hc) as [_ Hall].
      destruct (han_occurrence_after_block _ _ _ _ _ Hall Hne Hkw E) as [x' E'].
      destruct (IH _ _ E') as (a & b & ->).
      exists (c :: a), b; reflexivity.
Qed.

(** Lower-casing neither hides nor creates an occurrence of a Chinese
    keyword. *)
Lemma contains_lower (kw s : str) :
  kw ≠ [] → all_han kw →
  contains kw (lower lower_at s) = contains kw s.
Proof.
  intros Hne Hkw. apply eq_true_iff_eq. rewrite !contains_spec. split.
  - intros (x & y & E). exact (lower_go_reflects _ _ _ _ _ Hne Hkw E).
  - intros (a & b & ->). apply lower_go_keeps, Hkw.
Qed.

Lemma any_contains_lower (words : list str) (s : str) :
  Forall (fun kw => kw ≠ [] ∧ all_han kw) words →
  any_contains words (lower lower_at s) = any_contains words s.
Proof.
  unfold any_contains. induction 1 as [|kw words [Hne Hkw] _ IH]; [reflexivity |].
  cbn [existsb]. rewrite IH, (contains_lower _ _ Hne Hkw). reflexivity.
Qed.

Lemma chinese_words (words : list str) :
  forallb (fun kw => negb (str_eqb kw []) && forallb han kw) words = true →
  Forall (fun kw => kw ≠ [] ∧ all_han kw) words.
Proof.
  intros H. apply List.Forall_forall. intros kw Hin.
  rewrite forallb_forall in H. specialize (H kw Hin).
  apply andb_true_iff in H as [H1 H2]. split; [| exact H2].
  apply negb_true_iff, str_eqb_neq in H1. exact H1.
Qed.

(** C8: the three keyword sets are tried against the transcript in the
    order project_review, weekly_meeting, strategic_planning, the first
    set with a keyword occurring in the transcript decides, and with no
    occurrence at all the type is general_meeting; so a transcript with
    both 项目 and 战略 in it is a project_review. *)
Theorem meeting_type_priority_order (transcript : str) :
  _detect_meeting_type lower_at transcript =
    (if any_contains project_review_words transcript then u "project_review"
     else if any_contains weekly_meeting_words transcript then u "weekly_meeting"
     else if any_contains strategic_planning_words transcript
          then u "strategic_planning"
     else u "general_meeting") ∧
  (contains (u "项目") transcript = true →
   contains (u "战略") transcript = true →
   _detect_meeting_type lower_at transcript = u "project_review" ∧
   _detect_meeting_type lower_at transcript ≠ u "strategic_planning").
Proof.
  assert (_detect_meeting_type lower_at transcript =
    (if any_contains project_review_words transcript then u "project_review"
     else if any_contains weekly_meeting_words transcript then u "weekly_meeting"
     else if any_contains strategic_planning_words transcript
          then u "strategic_planning"
     else u "general_meeting")) as E.
  { unfold _detect_meeting_type.
    rewrite !any_contains_lower
      by (apply chinese_words; vm_compute; reflexivity).
    reflexivity. }
  split; [exact E |].
  intros Hp _. rewrite E.
  assert (any_contains project_review_words transcript = true) as ->.
  { apply any_contains_spec. exists (u "项目"). split; [| exact Hp].
    left. reflexivity. }
  split; [reflexivity |]. vm_compute. discriminate.
Qed.

End Lowering.

Lemma lower_ascii_han (before : str) (c : N) (after : str) :
  han c = true → lower_ascii before c after = [c].
Proof.
  unfold han, lower_ascii. intros H.
  apply andb_true_iff in H as [H _]. apply N.leb_le in H.
  destruct (65 <=? c) eqn:E1; [| reflexivity].
  destruct (c <=? 90) eqn:E2; [| reflexivity].
  apply N.leb_le in E2. lia.
Qed.

Lemma lower_ascii_other (before : str) (c : N) (after : str) :
  han c = false →
  lower_ascii before c after ≠ [] ∧
  ∀ x, In x (lower_ascii before c after) → han x = false.
Proof.
  unfold lower_ascii. intros H.
  destruct ((65 <=? c) && (c <=? 90)) eqn:E.
  - split; [discriminate |]. intros x [<- | []].
    apply andb_true_iff in E as [E1 E2].
    apply N.leb_le in E1, E2. unfold han.
    apply andb_false_iff. left. apply N.leb_gt. lia.
  - split; [discriminate |]. intros x [<- | []]. exact H.
Qed.

(** A transcript that names both a project and a strategy. *)
Lemma meeting_type_priority_order_witness :
  contains (u "项目") (u "[00:00:00] A: 讨论项目的战略方向") = true ∧
  contains (u "战略") (u "[00:00:00] A: 讨论项目的战略方向") = true ∧
  _detect_meeting_type lower_ascii (u "[00:00:00] A: 讨论项目的战略方向")
    = u "project_review".
Proof.
  split; [vm_compute; reflexivity |]. split; [vm_compute; reflexivity |].
  apply (meeting_type_priority_order lower_ascii lower_ascii_han lower_ascii_other
           (u "[00:00:00] A: 讨论项目的战略方向"));
    vm_compute; reflexivity.
Defined.

Example only_strategy_is_strategic :
  _detect_meeting_type lower_ascii (u "A: 明年的战略") = u "strategic_planning".
Proof. vm_compute. reflexivity. Qed.

Example no_keyword_is_general :
  _detect_meeting_type lower_ascii (u "Hello World") = u "general_meeting".
Proof. vm_compute. reflexivity. Qed.

End ClassificationFacts.

(** ** Post-processing *)

Module PostProcessFacts.
Import ContextOptimizer Samples.

Lemma bind_ok {A B} (f : A → res B) (m : res A) (b : B) :
  (m ≫= f) = Ok b → ∃ a, m = Ok a ∧ f a = Ok b.
Proof. destruct m as [a | e]; [eauto | discriminate]. Qed.

Lemma bind_Ok {A B} (f : A → res B) (a : A) : (Ok a ≫= f) = f a.
Proof. reflexivity. Qed.

Lemma any_in_str (words : list str) (s : str) :
  any_in words (PStr s) = Ok (any_contains words s).
Proof.
  induction words as [|w words IH]; [reflexivity |].
  cbn [any_in py_in]. unfold mbind, res_bind. unfold any_contains. cbn [existsb].
  destruct (contains w s); [reflexivity | exact IH].
Qed.

(** On a value that is no container the first membership test raises. *)
Lemma any_in_raises (w : str) (words : list str) (v : pyval) (e : pyerr) :
  py_in w v = Raise e → ∀ w', any_in (w' :: words) v = Raise TypeError.
Proof.
  intros H w'. destruct v; try discriminate H; reflexivity.
Qed.

Lemma mapM_on_dicts (g : dict → dict) (items : list dict) :
  mapM (on_dict (fun d => d' ← mret (g d); mret (PDict d'))) (map PDict items)
    = Ok (map PDict (map g items)).
Proof.
  induction items as [|d items IH]; [reflexivity |].
  cbn [mapM map on_dict]. rewrite IH. reflexivity.
Qed.

(** A loop whose body cannot fail, over a list of dicts. *)
Lemma for_each_item_dicts (key : str) (g : dict → dict) (summary : dict)
    (items : list dict) :
  dict_get key summary = Some (PList (map PDict items)) →
  for_each_item key (fun d => mret (g d)) summary =
    Ok (dict_set key (PList (map PDict (map g items))) summary).
Proof.
  intros Hk. unfold for_each_item. rewrite Hk. cbn [py_iter].
  unfold mbind at 1. unfold res_bind at 1.
  rewrite mapM_on_dicts. reflexivity.
Qed.

Lemma urgent_words_nonempty (s : str) :
  any_contains urgent_deadline_words s = true → s ≠ [].
Proof. intros H ->. vm_compute in H. discriminate. Qed.

Lemma soon_words_nonempty (s : str) :
  any_contains soon_deadline_words s = true → s ≠ [].
Proof. intros H ->. vm_compute in H. discriminate. Qed.

Lemma truthy_str (s : str) : s ≠ [] → truthy (PStr s) = true.
Proof. destruct s; [congruence | reflexivity]. Qed.

(** C7: the priority an action item gets from its deadline: [high] when
    the deadline contains 本周, 明天 or 今天; otherwise [medium] when it
    contains 下周 or 月底; otherwise [low] when it is not empty; an empty
    (or missing) deadline leaves the item as it is; and a deadline on
    which the test raises gets [medium].  The pass does this to every
    action item of the summary. *)
Theorem deadline_sets_priority :
  (∀ (summary : dict) (actions : list dict),
     dict_get (u "action_items") summary = Some (PList (map PDict actions)) →
     _add_time_sensitivity summary =
       Ok (dict_set (u "action_items")
             (PList (map PDict (map time_sensitive actions))) summary)) ∧
  (∀ (action : dict) (deadline : pyval),
     dict_get_default (u "deadline") (PStr []) action = deadline →
     (∀ s, deadline = PStr s →
        any_contains (map u ["本周"; "明天"; "今天"]%string) s = true →
        time_sensitive action = set_str (u "priority") (u "high") action) ∧
     (∀ s, deadline = PStr s →
        any_contains (map u ["本周"; "明天"; "今天"]%string) s = false →
        any_contains (map u ["下周"; "月底"]%string) s = true →
        time_sensitive action = set_str (u "priority") (u "medium") action) ∧
     (∀ s, deadline = PStr s → s ≠ [] →
        any_contains (map u ["本周"; "明天"; "今天"]%string) s = false →
        any_contains (map u ["下周"; "月底"]%string) s = false →
        time_sensitive action = set_str (u "priority") (u "low") action) ∧
     (deadline = PStr [] → time_sensitive action = action) ∧
     (truthy deadline = true →
        (∃ e, py_in (u "本周") deadline = Raise e) →
        time_sensitive action = set_str (u "priority") (u "medium") action)).
Proof.
  split.
  - intros summary actions Hk. unfold _add_time_sensitivity.
    apply (for_each_item_dicts _ time_sensitive _ _ Hk).
  - intros action deadline Hd. unfold time_sensitive. rewrite Hd.
    change (map u ["本周"; "明天"; "今天"]%string) with urgent_deadline_words.
    change (map u ["下周"; "月底"]%string) with soon_deadline_words.
    repeat apply conj.
    + intros s -> Hu. rewrite (truthy_str _ (urgent_words_nonempty _ Hu)).
      unfold deadline_priority. rewrite !any_in_str, Hu. reflexivity.
    + intros s -> Hu Hs. rewrite (truthy_str _ (soon_words_nonempty _ Hs)).
      unfold deadline_priority. rewrite !any_in_str, Hu.
      unfold mbind, res_bind. rewrite Hs. reflexivity.
    + intros s -> Hne Hu Hs. rewrite (truthy_str _ Hne).
      unfold deadline_priority. rewrite !any_in_str, Hu.
      unfold mbind, res_bind. rewrite Hs. reflexivity.
    + intros ->. reflexivity.
    + intros Ht [e He]. rewrite Ht. unfold deadline_priority.
      unfold urgent_deadline_words. cbn [map].
      rewrite (any_in_raises _ _ _ _ He). reflexivity.
Qed.

Lemma deadline_sets_priority_witness :
  time_sensitive [(u "task", PStr (u "提交报告")); (u "deadline", PStr (u "本周五"))]
    = [(u "task", PStr (u "提交报告")); (u "deadline", PStr (u "本周五"));
       (u "priority", PStr (u "high"))] ∧
  time_sensitive [(u "deadline", PStr (u "下周")); (u "priority", PStr (u "low"))]
    = [(u "deadline", PStr (u "下周")); (u "priority", PStr (u "medium"))] ∧
  time_sensitive [(u "deadline", PStr (u "2024-05-01"))]
    = [(u "deadline", PStr (u "2024-05-01")); (u "priority", PStr (u "low"))] ∧
  time_sensitive [(u "task", PStr (u "跟进")); (u "deadline", PStr (u ""))]
    = [(u "task", PStr (u "跟进")); (u "deadline", PStr (u ""))] ∧
  time_sensitive [(u "deadline", PNum 20240501)]
    = [(u "deadline", PNum 20240501); (u "priority", PStr (u "medium"))].
Proof.
  pose proof (proj2 deadline_sets_priority) as H.
  split; [| split; [| split; [| split]]].
  - destruct (H [(u "task", PStr (u "提交报告")); (u "deadline", PStr (u "本周五"))]
                _ eq_refl) as (H1 & _).
    rewrite (H1 (u "本周五")); vm_compute; reflexivity.
  - destruct (H [(u "deadline", PStr (u "下周")); (u "priority", PStr (u "low"))]
                _ eq_refl) as (_ & H2 & _).
    rewrite (H2 (u "下周")); vm_compute; reflexivity.
  - destruct (H [(u "deadline", PStr (u "2024-05-01"))] _ eq_refl)
      as (_ & _ & H3 & _).
    rewrite (H3 (u "2024-05-01")); vm_compute; try reflexivity. discriminate.
  - destruct (H [(u "task", PStr (u "跟进")); (u "deadline", PStr (u ""))] _ eq_refl)
      as (_ & _ & _ & H4 & _).
    rewrite H4; vm_compute; reflexivity.
  - destruct (H [(u "deadline", PNum 20240501)] _ eq_refl) as (_ & _ & _ & _ & H5).
    rewrite H5; [vm_compute; reflexivity | vm_compute; reflexivity |].
    exists TypeError. reflexivity.
Defined.

(** *** Decision scoring *)

Ltac keys_differ :=
  let H := fresh in intros H; vm_compute in H; discriminate H.

Lemma importance_score_str (context : MeetingContext) (content : str) :
  importance_score context (PStr content)
    = Ok (stated_score (meeting_type context) content).
Proof.
  unfold importance_score, stated_score, patterns_for.
  destruct (meeting_templates !! meeting_type context) as [t |].
  - rewrite !any_in_str. unfold mbind, res_bind, mret, res_ret.
    destruct (any_contains (decision_patterns t) content),
      (any_contains high_impact_words content); reflexivity.
  - rewrite !any_in_str. unfold mbind, res_bind, mret, res_ret.
    destruct (any_contains high_impact_words content); reflexivity.
Qed.

Lemma tag_decision_str (context : MeetingContext) (decision : dict) :
  is_Some (content_of decision) →
  tag_decision context decision =
    Ok (stated_tag (meeting_type context) decision,
        shortlisted (meeting_type context) decision).
Proof.
  intros [c Hc]. unfold tag_decision, stated_tag, shortlisted, content_text.
  rewrite Hc. unfold content_of in Hc.
  destruct (dict_get_default (u "content") (PStr []) decision); try discriminate.
  injection Hc as ->. rewrite importance_score_str.
  unfold mbind, res_bind, mret, res_ret, stated_urgency, default.
  cbn [from_option id].
  set (n := stated_score (meeting_type context) c).
  destruct (2 <=? n)%nat eqn:E2; [reflexivity |].
  apply Nat.leb_gt in E2.
  destruct n as [| [| n]]; [reflexivity | reflexivity | lia].
Qed.

Lemma tag_decisions_str (context : MeetingContext) (decisions : list dict) :
  Forall (fun d => is_Some (content_of d)) decisions →
  tag_decisions context (map PDict decisions) =
    Ok (map PDict (map (stated_tag (meeting_type context)) decisions),
        map PDict (map (stated_tag (meeting_type context))
                     (List.filter (shortlisted (meeting_type context)) decisions))).
Proof.
  induction 1 as [|d ds Hd _ IH]; [reflexivity |].
  cbn [map tag_decisions on_dict List.filter].
  rewrite (tag_decision_str _ _ Hd). unfold mbind at 1. unfold res_bind at 1.
  rewrite IH. unfold mbind, res_bind, mret, res_ret.
  destruct (shortlisted (meeting_type context) d); reflexivity.
Qed.

(** C5: the score of a decision is 2 for a decision pattern of the
    meeting type in its content plus 1 for a high-impact word; every
    decision gets urgency [high] for a score of 2 or more, [medium] for
    1, [low] for 0, and those with 2 or more make up [key_decisions], the
    first three in their order.  Under strategic_planning a decision
    saying 我们决定批准该预算 scores at least 2, is [high] and is in
    [key_decisions]. *)
Theorem decision_scoring (context : MeetingContext) :
  let mt := meeting_type context in
  (∀ content : str,
     importance_score context (PStr content) =
       Ok ((if any_contains (patterns_for mt) content then 2 else 0)
           + (if any_contains
                   (map u ["批准"; "同意"; "决定"; "确定"; "通过"; "投资"; "预算"]%string)
                   content
              then 1 else 0))%nat) ∧
  (∀ (summary : dict) (decisions : list dict),
     dict_get (u "decisions") summary = Some (PList (map PDict decisions)) →
     Forall (fun d => is_Some (content_of d)) decisions →
     _identify_key_decisions summary context =
       Ok (let tagged :=
             dict_set (u "decisions")
               (PList (map PDict (map (stated_tag mt) decisions))) summary in
           match List.filter (shortlisted mt) decisions with
           | [] => tagged
           | key =>
               dict_set (u "key_decisions")
                 (PList (take 3 (map PDict (map (stated_tag mt) key)))) tagged
           end)) ∧
  (mt = u "strategic_planning" →
   (2 ≤ stated_score mt (u "我们决定批准该预算"))%nat ∧
   ∀ decision : dict,
     content_of decision = Some (u "我们决定批准该预算") →
     _identify_key_decisions [(u "decisions", PList [PDict decision])] context =
       Ok [ (u "decisions",
              PList [PDict (set_str (u "urgency") (u "high") decision)]);
            (u "key_decisions",
              PList [PDict (set_str (u "urgency") (u "high") decision)]) ]).
Proof.
  intros mt.
  assert (∀ (summary : dict) (decisions : list dict),
     dict_get (u "decisions") summary = Some (PList (map PDict decisions)) →
     Forall (fun d => is_Some (content_of d)) decisions →
     _identify_key_decisions summary context =
       Ok (let tagged :=
             dict_set (u "decisions")
               (PList (map PDict (map (stated_tag mt) decisions))) summary in
           match List.filter (shortlisted mt) decisions with
           | [] => tagged
           | key =>
               dict_set (u "key_decisions")
                 (PList (take 3 (map PDict (map (stated_tag mt) key)))) tagged
           end)) as Hpass.
  { intros summary decisions Hk Hall. unfold _identify_key_decisions.
    rewrite Hk. cbn [py_iter]. rewrite bind_Ok. cbv beta.
    rewrite (tag_decisions_str _ _ Hall). fold mt.
    rewrite !bind_Ok. unfold mret, res_ret. cbn [written_back].
    destruct (List.filter (shortlisted mt) decisions); reflexivity. }
  split; [| split].
  - intros content. apply importance_score_str.
  - exact Hpass.
  - intros Hmt.
    assert (stated_score mt (u "我们决定批准该预算") = 3%nat) as Hscore
      by (rewrite Hmt; vm_compute; reflexivity).
    split; [rewrite Hscore; lia |].
    intros decision Hc.
    rewrite (Hpass [(u "decisions", PList [PDict decision])] [decision]).
    + assert (shortlisted mt decision = true) as Hs.
      { unfold shortlisted, content_text. rewrite Hc. unfold default.
        cbn [from_option id]. rewrite Hscore. reflexivity. }
      assert (stated_tag mt decision = set_str (u "urgency") (u "high") decision)
        as Ht.
      { unfold stated_tag, content_text. rewrite Hc. unfold default.
        cbn [from_option id]. rewrite Hscore. reflexivity. }
      cbn [List.filter map]. rewrite Hs. cbn [map take]. rewrite Ht.
      cbv zeta. rewrite dict_set_here.
      rewrite dict_set_skip by (vm_compute; reflexivity). reflexivity.
    + reflexivity.
    + constructor; [rewrite Hc; eauto | constructor].
Qed.

Lemma decision_scoring_witness :
  _identify_key_decisions
    [(u "decisions",
       PList [PDict [(u "content", PStr (u "我们决定批准该预算"))]])]
    (context_of (u "strategic_planning")) =
  Ok [ (u "decisions",
         PList [PDict [ (u "content", PStr (u "我们决定批准该预算"));
                        (u "urgency", PStr (u "high")) ]]);
       (u "key_decisions",
         PList [PDict [ (u "content", PStr (u "我们决定批准该预算"));
                        (u "urgency", PStr (u "high")) ]]) ].
Proof.
  destruct (decision_scoring (context_of (u "strategic_planning")))
    as (_ & _ & H).
  destruct (H eq_refl) as [_ H2].
  exact (H2 [(u "content", PStr (u "我们决定批准该预算"))] eq_refl).
Defined.

(** *** Meeting types without a template *)

Lemma no_template (mt : str) :
  mt ≠ u "project_review" → mt ≠ u "weekly_meeting" →
  mt ≠ u "strategic_planning" →
  meeting_templates !! mt = None.
Proof.
  intros H1 H2 H3. unfold meeting_templates, meeting_templates_items.
  cbn [list_to_map foldr fst snd].
  rewrite !lookup_insert_ne by congruence. apply lookup_empty.
Qed.

Lemma score_without_template (context : MeetingContext) (content : pyval)
    (score : nat) :
  meeting_templates !! meeting_type context = None →
  importance_score context content = Ok score → (score ≤ 1)%nat.
Proof.
  intros Hno. unfold importance_score. rewrite Hno.
  unfold mret, res_ret. rewrite bind_Ok. intros H.
  apply bind_ok in H as (b & _ & H). injection H as <-.
  destruct b; lia.
Qed.

Lemma tag_decision_without_template (context : MeetingContext)
    (decision d' : dict) (key : bool) :
  meeting_templates !! meeting_type context = None →
  tag_decision context decision = Ok (d', key) →
  key = false ∧ not_high (PDict d').
Proof.
  intros Hno H. unfold tag_decision in H.
  apply bind_ok in H as (score & Hscore & H).
  pose proof (score_without_template _ _ _ Hno Hscore) as Hle.
  destruct score as [| [| n]]; [| | lia]; cbn in H; injection H as <- <-;
    (split; [reflexivity |]); eexists; (split; [reflexivity |]);
    unfold set_str; rewrite dict_get_set_eq; auto.
Qed.

Lemma tag_decisions_without_template (context : MeetingContext)
    (items items' keys : list pyval) :
  meeting_templates !! meeting_type context = None →
  tag_decisions context items = Ok (items', keys) →
  keys = [] ∧ Forall not_high items'.
Proof.
  intros Hno. revert items' keys.
  induction items as [|x items IH]; intros items' keys H.
  - injection H as <- <-. split; [reflexivity | constructor].
  - cbn [tag_decisions] in H.
    apply bind_ok in H as ([d key] & Hx & H).
    apply bind_ok in H as ([rest' keys'] & Hrest & H).
    injection H as <- <-.
    destruct x; try discriminate Hx. cbn [on_dict] in Hx.
    destruct (tag_decision_without_template _ _ _ _ Hno Hx) as [-> Hd].
    destruct (IH _ _ Hrest) as [-> Hall].
    split; [reflexivity | constructor; assumption].
Qed.

Lemma for_each_item_other (key k : str) (body : dict → res dict)
    (summary s' : dict) :
  k ≠ key → for_each_item key body summary = Ok s' →
  dict_get k s' = dict_get k summary.
Proof.
  intros Hne H. unfold for_each_item in H.
  destruct (dict_get key summary) as [v |]; [| injection H as <-; reflexivity].
  apply bind_ok in H as (items & _ & H).
  apply bind_ok in H as (items' & _ & H).
  injection H as <-. apply dict_get_set_ne, Hne.
Qed.

Lemma identify_without_template (context : MeetingContext) (summary s' : dict) :
  meeting_templates !! meeting_type context = None →
  _identify_key_decisions summary context = Ok s' →
  dict_get (u "key_decisions") s' = dict_get (u "key_decisions") summary ∧
  ∀ items, dict_get (u "decisions") s' = Some (PList items) →
    Forall not_high items.
Proof.
  intros Hno H. unfold _identify_key_decisions in H.
  destruct (dict_get (u "decisions") summary) as [v |] eqn:Hk.
  - apply bind_ok in H as ([s1 keys] & H1 & H).
    apply bind_ok in H1 as (items & Hiter & H1).
    apply bind_ok in H1 as ([items' keys'] & Htag & H1).
    injection H1 as <- <-.
    destruct (tag_decisions_without_template _ _ _ _ Hno Htag) as [-> Hall].
    injection H as <-. split.
    + apply dict_get_set_ne. keys_differ.
    + intros l Hl. rewrite dict_get_set_eq in Hl. injection Hl as Hl.
      destruct v; try discriminate Hl; try discriminate Hiter.
      cbn [written_back] in Hl. injection Hl as <-. exact Hall.
  - unfold mret, res_ret in H. rewrite bind_Ok in H. injection H as <-.
    split; [reflexivity |]. intros l Hl. congruence.
Qed.

(** C10: under a meeting type that has no template (general_meeting
    among them) no decision scores more than 1, so after
    [post_process_summary] every decision carries urgency [medium] or
    [low], never [high], and the summary's [key_decisions] entry is what
    it was before: none is added. *)
Theorem no_template_never_high (context : MeetingContext) :
  meeting_type context ≠ u "project_review" →
  meeting_type context ≠ u "weekly_meeting" →
  meeting_type context ≠ u "strategic_planning" →
  (∀ (content : pyval) (score : nat),
     importance_score context content = Ok score → (score ≤ 1)%nat) ∧
  (∀ summary s' : pyval,
     post_process_summary summary context = Ok s' →
     ∃ d d' : dict,
       summary = PDict d ∧ s' = PDict d' ∧
       dict_get (u "key_decisions") d' = dict_get (u "key_decisions") d ∧
       ∀ items, dict_get (u "decisions") d' = Some (PList items) →
         Forall
           (fun x => ∃ decision, x = PDict decision ∧
              (dict_get (u "urgency") decision = Some (PStr (u "medium")) ∨
               dict_get (u "urgency") decision = Some (PStr (u "low"))))
           items).
Proof.
  intros H1 H2 H3. pose proof (no_template _ H1 H2 H3) as Hno. split.
  - intros content score. apply score_without_template, Hno.
  - intros summary s' H. destruct summary as [ | | | | | d]; try discriminate H.
    cbn [post_process_summary] in H.
    apply bind_ok in H as (d3 & Hadj & H).
    apply bind_ok in H as (d4 & Htime & H).
    apply bind_ok in H as (d5 & Hid & H).
    injection H as <-. exists d, d5.
    destruct (identify_without_template _ _ _ Hno Hid) as [Hkey Hall].
    split; [reflexivity |]. split; [reflexivity |]. split; [| exact Hall].
    rewrite Hkey.
    assert (u "key_decisions" ≠ u "action_items") as Ha by keys_differ.
    assert (u "key_decisions" ≠ u "key_points") as Hp by keys_differ.
    rewrite (for_each_item_other _ _ _ _ _ Ha Htime).
    rewrite (for_each_item_other _ _ _ _ _ Hp Hadj).
    unfold set_str. rewrite !dict_get_set_ne by keys_differ. reflexivity.
Qed.

(** A general meeting whose only decision names an approval and a budget:
    one point for the high-impact words, none for a pattern. *)
Lemma no_template_never_high_witness :
  post_process_summary
    (PDict [(u "decisions",
              PList [PDict [(u "content", PStr (u "我们决定批准该预算"))]])])
    (context_of (u "general_meeting")) =
  Ok (PDict [ (u "decisions",
                PList [PDict [ (u "content", PStr (u "我们决定批准该预算"));
                               (u "urgency", PStr (u "medium")) ]]);
              (u "industry", PStr (u "general"));
              (u "meeting_type", PStr (u "general_meeting")) ]) ∧
  (∀ (content : pyval) (score : nat),
     importance_score (context_of (u "general_meeting")) content = Ok score →
     (score ≤ 1)%nat).
Proof.
  split; [vm_compute; reflexivity |].
  exact (proj1 (no_template_never_high (context_of (u "general_meeting"))
                  ltac:(keys_differ) ltac:(keys_differ) ltac:(keys_differ))).
Defined.

End PostProcessFacts.

(** ** Keyword extraction *)

Module KeywordFacts.
Import ContextOptimizer Samples.

Lemma str_in_spec (w : str) (l : list str) : str_in w l = true ↔ In w l.
Proof.
  unfold str_in. rewrite existsb_exists. split.
  - intros (x & Hx & E). apply str_eqb_eq in E. subst; exact Hx.
  - intros H. exists w. split; [exact H | apply str_eqb_refl].
Qed.

Lemma In_take {A} (n : nat) (l : list A) (x : A) : In x (take n l) → In x l.
Proof.
  intros H. rewrite <- (firstn_skipn n l). apply in_or_app. left; exact H.
Qed.

(** *** The frequency table *)

Lemma lookup_bump_same (w : str) (table : list (str * nat)) :
  lookup_freq w (bump w table) = S (lookup_freq w table).
Proof.
  induction table as [|[k n] table IH]; simpl.
  - rewrite str_eqb_refl; reflexivity.
  - destruct (str_eqb w k) eqn:E; simpl; rewrite E; [reflexivity | exact IH].
Qed.

Lemma lookup_bump_other (w w' : str) (table : list (str * nat)) :
  w' ≠ w → lookup_freq w' (bump w table) = lookup_freq w' table.
Proof.
  intros Hne. induction table as [|[k n] table IH]; simpl.
  - apply str_eqb_neq in Hne. rewrite Hne; reflexivity.
  - destruct (str_eqb w k) eqn:E; simpl.
    + apply str_eqb_eq in E; subst k.
      apply str_eqb_neq in Hne. rewrite Hne. reflexivity.
    + destruct (str_eqb w' k); [reflexivity | exact IH].
Qed.

Lemma bump_keys (w : str) (table : list (str * nat)) :
  map fst (bump w table) =
    if str_in w (map fst table) then map fst table else map fst table ++ [w].
Proof.
  induction table as [|[k n] table IH]; [reflexivity |].
  cbn [bump map fst]. unfold str_in in *. cbn [existsb].
  destruct (str_eqb w k) eqn:E; [reflexivity |].
  cbn [map fst orb]. rewrite IH.
  destruct (existsb (str_eqb w) (map fst table)); reflexivity.
Qed.

Lemma bump_NoDup (w : str) (table : list (str * nat)) :
  NoDup (map fst table) → NoDup (map fst (bump w table)).
Proof.
  intros H. rewrite bump_keys. destruct (str_in w (map fst table)) eqn:E.
  - exact H.
  - apply NoDup_app. split; [exact H |]. split.
    + intros x Hx Hx'. apply list_elem_of_In in Hx, Hx'.
      destruct Hx' as [<- | []]. apply str_in_spec in Hx. congruence.
    + apply NoDup_singleton.
Qed.

Lemma bump_positive (w : str) (table : list (str * nat)) :
  Forall (fun p => 0 < snd p)%nat table →
  Forall (fun p => 0 < snd p)%nat (bump w table).
Proof.
  induction 1 as [|[k n] table Hp Hrest IH]; simpl.
  - repeat constructor.
  - destruct (str_eqb w k); constructor; simpl in *; auto; lia.
Qed.

(** With distinct keys, an entry is what a lookup finds. *)
Lemma lookup_freq_In (w : str) (n : nat) (table : list (str * nat)) :
  NoDup (map fst table) → In (w, n) table → lookup_freq w table = n.
Proof.
  induction table as [|[k m] table IH]; intros Hnd Hin; [destruct Hin |].
  cbn [map fst] in Hnd. apply NoDup_cons in Hnd as [Hk Hnd].
  simpl. destruct Hin as [E | Hin].
  - injection E as -> ->. rewrite str_eqb_refl. reflexivity.
  - destruct (str_eqb w k) eqn:E.
    + apply str_eqb_eq in E; subst k. exfalso. apply Hk.
      apply list_elem_of_In. apply (in_map fst) in Hin. exact Hin.
    + apply IH; assumption.
Qed.

Lemma lookup_freq_found (w : str) (table : list (str * nat)) :
  lookup_freq w table ≠ 0%nat → In (w, lookup_freq w table) table.
Proof.
  induction table as [|[k m] table IH]; simpl; [congruence |].
  destruct (str_eqb w k) eqn:E.
  - apply str_eqb_eq in E; subst k. left; reflexivity.
  - intros H. right. apply IH, H.
Qed.

Lemma occurrences_snoc (w x : str) (words : list str) :
  occurrences w (words ++ [x]) =
    (if str_eqb w x then S (occurrences w words) else occurrences w words).
Proof.
  unfold occurrences. rewrite List.filter_app, length_app. simpl.
  destruct (str_eqb w x); simpl; lia.
Qed.

Lemma occurrences_In (w : str) (words : list str) :
  (0 < occurrences w words)%nat → In w words.
Proof.
  unfold occurrences. intros H.
  destruct (List.filter (str_eqb w) words) as [|x l] eqn:E; [simpl in H; lia |].
  assert (In x (List.filter (str_eqb w) words)) as Hx by (rewrite E; left; reflexivity).
  apply List.filter_In in Hx as [Hx Hw]. apply str_eqb_eq in Hw. subst; exact Hx.
Qed.

Lemma count_step (seen : list str) (table : list (str * nat)) (word : str) :
  counted seen table →
  counted (seen ++ [word])
    (if (2 <? length word)%nat then bump word table else table).
Proof.
  intros (Hnd & Hpos & Hfreq). destruct (2 <? length word)%nat eqn:Hlen.
  - split; [apply bump_NoDup, Hnd |]. split; [apply bump_positive, Hpos |].
    intros w. rewrite occurrences_snoc. destruct (str_eqb w word) eqn:E.
    + apply str_eqb_eq in E; subst w.
      rewrite lookup_bump_same, Hfreq, Hlen. reflexivity.
    + apply str_eqb_neq in E. rewrite (lookup_bump_other _ _ _ E). apply Hfreq.
  - split; [exact Hnd |]. split; [exact Hpos |].
    intros w. rewrite occurrences_snoc, Hfreq. destruct (str_eqb w word) eqn:E.
    + apply str_eqb_eq in E; subst w. rewrite Hlen. reflexivity.
    + reflexivity.
Qed.

Lemma count_loop (words seen : list str) (table : list (str * nat)) :
  counted seen table →
  counted (seen ++ words)
    (fold_left
       (fun word_freq word =>
          if (2 <? length word)%nat then bump word word_freq else word_freq)
       words table).
Proof.
  revert seen table; induction words as [|word words IH]; intros seen table H.
  - rewrite app_nil_r. exact H.
  - cbn [fold_left].
    replace (seen ++ word :: words) with ((seen ++ [word]) ++ words)
      by (rewrite <- app_assoc; reflexivity).
    apply IH, count_step, H.
Qed.

Lemma count_words_counted (words : list str) :
  counted words (count_words words).
Proof.
  apply (count_loop words [] []). split; [constructor |].
  split; [constructor |]. intros w. destruct (2 <? length w)%nat; reflexivity.
Qed.

(** The entries of a counted table. *)
Lemma counted_entries (words : list str) (table : list (str * nat)) :
  counted words table →
  ∀ w n, In (w, n) table ↔
    (2 < length w ∧ 0 < n ∧ n = occurrences w words)%nat.
Proof.
  intros (Hnd & Hpos & Hfreq) w n. split.
  - intros Hin. pose proof (lookup_freq_In _ _ _ Hnd Hin) as E.
    rewrite List.Forall_forall in Hpos. specialize (Hpos _ Hin). simpl in Hpos.
    rewrite Hfreq in E. destruct (2 <? length w)%nat eqn:Hlen; [| lia].
    apply Nat.ltb_lt in Hlen. lia.
  - intros (Hlen & Hn & ->). apply Nat.ltb_lt in Hlen.
    pose proof (Hfreq w) as E. rewrite Hlen in E. rewrite <- E.
    apply lookup_freq_found. lia.
Qed.

(** *** Sorting by frequency *)

Lemma insert_desc_perm (x : str * nat) (l : list (str * nat)) :
  Permutation (x :: l) (insert_desc x l).
Proof.
  induction l as [|y l IH]; simpl; [reflexivity |].
  destruct (snd x <? snd y)%nat; [| reflexivity].
  rewrite perm_swap. apply perm_skip, IH.
Qed.

Lemma sorted_desc_perm (items : list (str * nat)) :
  Permutation items (sorted_desc items).
Proof.
  induction items as [|x items IH]; simpl; [reflexivity |].
  rewrite <- insert_desc_perm. apply perm_skip, IH.
Qed.

Lemma insert_desc_sorted (x : str * nat) (l : list (str * nat)) :
  Sorted by_frequency l → Sorted by_frequency (insert_desc x l).
Proof.
  induction 1 as [|y l Hs IH Hhd]; simpl.
  - repeat constructor.
  - destruct (snd x <? snd y)%nat eqn:E.
    + constructor; [exact IH |].
      destruct l as [|z l]; simpl.
      * constructor. unfold by_frequency. apply Nat.ltb_lt in E. lia.
      * destruct (snd x <? snd z)%nat.
        -- inversion Hhd; subst. constructor. assumption.
        -- constructor. unfold by_frequency. apply Nat.ltb_lt in E. lia.
    + constructor; [constructor; assumption |].
      constructor. unfold by_frequency. apply Nat.ltb_ge in E. lia.
Qed.

Lemma sorted_desc_sorted (items : list (str * nat)) :
  Sorted by_frequency (sorted_desc items).
Proof.
  induction items as [|x items IH]; simpl; [constructor |].
  apply insert_desc_sorted, IH.
Qed.

(** *** The industry words *)

Lemma add_industry_words_prepends (transcript : str) (ws kws : list str) :
  ∃ added,
    add_industry_words transcript ws kws = added ++ kws ∧
    ∀ k, In k added → In k ws ∧ contains k transcript = true ∧ ¬ In k kws.
Proof.
  unfold add_industry_words. revert kws.
  induction ws as [|w ws IH]; intros kws.
  - exists []. split; [reflexivity | intros k []].
  - cbn [fold_left].
    destruct (contains w transcript && negb (str_in w kws)) eqn:E.
    + apply andb_true_iff in E as [Hc Hn].
      apply negb_true_iff in Hn.
      destruct (IH (w :: kws)) as (added & -> & Hadded).
      exists (added ++ [w]). split; [rewrite <- app_assoc; reflexivity |].
      intros k Hk. apply in_app_or in Hk as [Hk | [<- | []]].
      * destruct (Hadded k Hk) as (H1 & H2 & H3).
        split; [right; exact H1 |]. split; [exact H2 |].
        intros Hin. apply H3. right; exact Hin.
      * split; [left; reflexivity |]. split; [exact Hc |].
        intros Hin. apply str_in_spec in Hin. congruence.
    + destruct (IH kws) as (added & -> & Hadded).
      exists added. split; [reflexivity |].
      intros k Hk. destruct (Hadded k Hk) as (H1 & H2 & H3).
      split; [right; exact H1 | split; assumption].
Qed.

(** *** The tokens *)

Lemma forallb_rev {A} (f : A → bool) (l : list A) :
  forallb f l = true → forallb f (rev l) = true.
Proof.
  rewrite !forallb_forall. intros H x Hx. apply H, in_rev, Hx.
Qed.

(** Every token is a non-empty run of word characters of the text. *)
Lemma findall_words_tokens (isw : N → bool) (s cur w : str) :
  forallb isw cur = true →
  In w (findall_words isw cur s) →
  w ≠ [] ∧ forallb isw w = true ∧ contains w (rev cur ++ s) = true.
Proof.
  revert cur; induction s as [|c s IH]; intros cur Hcur Hin.
  - cbn [findall_words] in Hin. destruct cur as [|x cur]; [destruct Hin |].
    destruct Hin as [<- | []]. split.
    + intros E. apply (f_equal (@length N)) in E.
      rewrite length_rev in E. discriminate E.
    + split; [apply forallb_rev, Hcur |].
      apply contains_spec. exists [], []. rewrite !app_nil_r. reflexivity.
  - cbn [findall_words] in Hin. destruct (isw c) eqn:Hc.
    + destruct (IH (c :: cur)) as (H1 & H2 & H3); [| exact Hin |].
      * cbn [forallb]. rewrite Hc, Hcur. reflexivity.
      * split; [exact H1 |]. split; [exact H2 |].
        cbn [rev] in H3. rewrite <- app_assoc in H3. exact H3.
    + apply in_app_or in Hin as [Hin | Hin].
      * destruct cur as [|x cur]; [destruct Hin |].
        destruct Hin as [<- | []]. split.
        -- intros E. apply (f_equal (@length N)) in E.
           rewrite length_rev in E. discriminate E.
        -- split; [apply forallb_rev, Hcur |].
           apply contains_spec. exists [], (c :: s). reflexivity.
      * destruct (IH [] eq_refl Hin) as (H1 & H2 & H3).
        split; [exact H1 |]. split; [exact H2 |].
        apply contains_spec in H3 as (a & b & E). cbn [rev app] in E.
        apply contains_spec. exists (rev cur ++ c :: a), b.
        rewrite E, <- app_assoc. reflexivity.
Qed.

(** The loop over the industry words: the words come in front, there are
    at most as many as the vocabulary has, no word is entered twice, and
    every word of the vocabulary that occurs in the transcript is in the
    list afterwards. *)
Lemma add_industry_words_spec (transcript : str) (ws kws : list str) :
  ∃ added,
    add_industry_words transcript ws kws = added ++ kws ∧
    (length added ≤ length ws)%nat ∧
    (NoDup kws → NoDup (added ++ kws)) ∧
    ∀ k, In k ws → contains k transcript = true → In k (added ++ kws).
Proof.
  unfold add_industry_words. revert kws.
  induction ws as [|w ws IH]; intros kws.
  - exists []. split; [reflexivity |]. split; [simpl; lia |].
    split; [auto |]. intros k [].
  - cbn [fold_left].
    destruct (contains w transcript && negb (str_in w kws)) eqn:E.
    + apply andb_true_iff in E as [Hc Hn]. apply negb_true_iff in Hn.
      destruct (IH (w :: kws)) as (added & -> & Hlen & Hnd & Hall).
      exists (added ++ [w]).
      replace ((added ++ [w]) ++ kws) with (added ++ w :: kws)
        by (rewrite <- app_assoc; reflexivity).
      split; [reflexivity |].
      split; [rewrite length_app; simpl; lia |].
      split.
      * intros Hk. apply Hnd. apply NoDup_cons. split; [| exact Hk].
        intros Hin. apply list_elem_of_In, str_in_spec in Hin. congruence.
      * intros k [<- | Hk] Hck; [| exact (Hall k Hk Hck)].
        apply in_or_app. right. left. reflexivity.
    + destruct (IH kws) as (added & -> & Hlen & Hnd & Hall).
      exists added. split; [reflexivity |].
      split; [simpl; lia |]. split; [exact Hnd |].
      intros k [<- | Hk] Hck; [| exact (Hall k Hk Hck)].
      rewrite Hck in E. cbn [andb] in E. apply negb_false_iff in E.
      apply str_in_spec in E. apply in_or_app. right. exact E.
Qed.

Lemma top_tokens_NoDup (tokens : list str) :
  NoDup (map fst (take 20 (sorted_desc (count_words tokens)))).
Proof.
  destruct (count_words_counted tokens) as (Hnd & _ & _).
  apply (sublist_NoDup _ (map fst (sorted_desc (count_words tokens)))).
  - rewrite <- (sorted_desc_perm (count_words tokens)). exact Hnd.
  - rewrite <- firstn_map. apply sublist_take.
Qed.

Lemma top_tokens_counted (tokens : list str) (k : str) :
  In k (map fst (take 20 (sorted_desc (count_words tokens)))) →
  (2 < length k)%nat ∧ In k tokens.
Proof.
  intros Hk. apply in_map_iff in Hk as ([w n] & <- & Hin).
  apply In_take in Hin.
  apply (Permutation_in _ (Permutation_sym (sorted_desc_perm _))) in Hin.
  apply (counted_entries _ _ (count_words_counted tokens)) in Hin
    as (Hlen & Hn & ->).
  split; [exact Hlen | apply occurrences_In, Hn].
Qed.

Lemma industry_vocabulary_small (industry : str) (terms : list str) :
  industry_keywords !! industry = Some terms → (length terms ≤ 8)%nat.
Proof.
  intros H. apply elem_of_list_to_map_2, list_elem_of_In in H.
  unfold industry_keywords_items in H.
  destruct H as [H | [H | [H | [H | []]]]];
    injection H as _ E; rewrite <- E; vm_compute; lia.
Qed.

(** With a vocabulary that lists no word twice the loop puts in front,
    last word first, exactly the words that occur in the transcript and
    are not yet among the keywords. *)
Lemma add_industry_words_exact (transcript : str) (ws kws : list str) :
  NoDup ws →
  add_industry_words transcript ws kws =
    rev (List.filter
           (fun w => contains w transcript && negb (str_in w kws)) ws) ++ kws.
Proof.
  unfold add_industry_words. intros Hnd. revert kws.
  induction Hnd as [|w ws Hw _ IH]; intros kws; [reflexivity |].
  cbn [fold_left List.filter].
  destruct (contains w transcript && negb (str_in w kws)) eqn:E.
  - rewrite IH. cbn [rev]. rewrite <- app_assoc. cbn [app]. do 2 f_equal.
    apply filter_ext_in. intros x Hx.
    unfold str_in. cbn [existsb].
    assert (str_eqb x w = false) as ->; [| reflexivity].
    apply str_eqb_neq. intros ->. apply Hw, list_elem_of_In, Hx.
  - apply IH.
Qed.

Lemma industry_vocabulary_distinct (industry : str) (terms : list str) :
  industry_keywords !! industry = Some terms → NoDup terms.
Proof.
  intros H. apply elem_of_list_to_map_2, list_elem_of_In in H.
  unfold industry_keywords_items in H.
  destruct H as [H | [H | [H | [H | []]]]]; injection H as _ E; rewrite <- E;
    cbn [map];
    repeat (apply NoDup_cons; split;
            [ intros Hin; apply list_elem_of_In, str_in_spec in Hin;
              vm_compute in Hin; discriminate Hin |]);
    apply NoDup_nil; exact I.
Qed.

(** C4 (as the code has it): the result has at most 15 entries, and
    each entry is a token longer than 2 or an industry term that occurs
    in the transcript.  It is made by counting the tokens longer than 2,
    ordering them by descending frequency, keeping the first 20, putting
    before them, last term first, exactly the terms of the industry's
    vocabulary that occur in the transcript and are not among those 20,
    and keeping the first 15.  A term put in front is always returned,
    whatever its length: no vocabulary has more than 8 terms. *)
Theorem extract_keywords_content (isw : N → bool) (transcript industry : str) :
  let tokens := findall_words isw [] transcript in
  let result := _extract_keywords isw transcript industry in
  (length result ≤ 15)%nat ∧
  (∀ k, In k result →
     (2 < length k)%nat ∧ In k tokens ∨
     ∃ terms, industry_keywords !! industry = Some terms ∧
              In k terms ∧ contains k transcript = true) ∧
  ∃ (table : list (str * nat)) (added : list str),
    (∀ w n, In (w, n) table ↔
       (2 < length w ∧ 0 < n ∧ n = occurrences w tokens)%nat) ∧
    Sorted by_frequency table ∧
    result = take 15 (added ++ map fst (take 20 table)) ∧
    (∀ k, In k added →
      (∃ terms, industry_keywords !! industry = Some terms ∧ In k terms) ∧
      contains k transcript = true ∧
      ¬ In k (map fst (take 20 table))) ∧
    added =
      match industry_keywords !! industry with
      | Some terms =>
          rev (List.filter
                 (fun w => contains w transcript
                           && negb (str_in w (map fst (take 20 table))))
                 terms)
      | None => []
      end ∧
    (∀ terms k,
       industry_keywords !! industry = Some terms → In k terms →
       contains k transcript = true →
       ¬ In k (map fst (take 20 table)) →
       In k added ∧ In k result).
Proof.
  intros tokens result.
  set (table := sorted_desc (count_words tokens)).
  set (top := map fst (take 20 table)).
  set (added :=
         match industry_keywords !! industry with
         | Some terms =>
             rev (List.filter
                    (fun w => contains w transcript && negb (str_in w top))
                    terms)
         | None => []
         end).
  assert (∀ w n, In (w, n) table ↔
            (2 < length w ∧ 0 < n ∧ n = occurrences w tokens)%nat) as Htable.
  { intros w n. rewrite <- (counted_entries _ _ (count_words_counted tokens)).
    split; apply Permutation_in;
      [symmetry |]; apply sorted_desc_perm. }
  assert (result = take 15 (added ++ top)) as Hres.
  { unfold result, _extract_keywords, added. fold tokens. fold table. fold top.
    destruct (industry_keywords !! industry) as [terms |] eqn:Hterms;
      [| reflexivity].
    rewrite (add_industry_words_exact _ _ _
               (industry_vocabulary_distinct _ _ Hterms)).
    reflexivity. }
  assert (∀ k, In k added ↔
            ∃ terms, industry_keywords !! industry = Some terms ∧
                     In k terms ∧ contains k transcript = true ∧
                     ¬ In k top) as Hadded.
  { intros k. unfold added.
    destruct (industry_keywords !! industry) as [terms |].
    - rewrite <- in_rev, filter_In, andb_true_iff, negb_true_iff. split.
      + intros (Hin & Hc & Hn). exists terms.
        split; [reflexivity |]. split; [exact Hin |]. split; [exact Hc |].
        intros Hk. apply str_in_spec in Hk. congruence.
      + intros (terms' & [= <-] & Hin & Hc & Hn).
        split; [exact Hin |]. split; [exact Hc |].
        destruct (str_in k top) eqn:E; [| reflexivity].
        apply str_in_spec in E. contradiction.
    - split; [intros [] | intros (terms & H & _); discriminate H]. }
  assert (length added ≤ 8)%nat as Hsmall.
  { unfold added. destruct (industry_keywords !! industry) as [terms |] eqn:Hterms;
      [| simpl; lia].
    rewrite length_rev.
    pose proof (industry_vocabulary_small _ _ Hterms).
    pose proof (filter_length_le
                  (fun w => contains w transcript && negb (str_in w top)) terms).
    lia. }
  split; [| split].
  - rewrite Hres, length_take. lia.
  - intros k Hk. rewrite Hres in Hk. apply In_take in Hk.
    apply in_app_or in Hk as [Hk | Hk].
    + right. apply Hadded in Hk as (terms & Ht & Hin & Hc & _). eauto.
    + left. apply (top_tokens_counted tokens), Hk.
  - exists table, added. split; [exact Htable |].
    split; [apply sorted_desc_sorted |]. split; [exact Hres |].
    split.
    { intros k Hk. apply Hadded in Hk as (terms & Ht & Hin & Hc & Hn). eauto. }
    split; [reflexivity |].
    intros terms k Ht Hin Hc Hn.
    assert (In k added) as Hk by (apply Hadded; eauto).
    split; [exact Hk |].
    rewrite Hres, firstn_app, (firstn_all2 added) by lia.
    apply in_or_app. left. exact Hk.
Qed.

(** C4, as stated, fails: for the transcript 迭代 and the industry tech
    the result is the industry term 迭代 itself, which has length 2. *)
Lemma short_industry_term_returned :
  ¬ ∀ (isw : N → bool) (transcript industry k : str),
      In k (_extract_keywords isw transcript industry) → (2 < length k)%nat.
Proof.
  intros H.
  specialize (H isw_ascii_han (u "迭代") (u "tech") (u "迭代")).
  assert (2 < length (u "迭代"))%nat as Hlt.
  { apply H. vm_compute. left. reflexivity. }
  vm_compute in Hlt. lia.
Qed.

Lemma extract_keywords_content_witness :
  (length (_extract_keywords isw_ascii_han
             (u "the cat and the dog and the bird ab 迭代 部署") (u "tech"))
     ≤ 15)%nat.
Proof.
  exact (proj1 (extract_keywords_content isw_ascii_han
                  (u "the cat and the dog and the bird ab 迭代 部署") (u "tech"))).
Defined.

Example keywords_of_short_transcript :
  _extract_keywords isw_ascii_han (u "迭代") (u "tech") = [u "迭代"].
Proof. vm_compute. reflexivity. Qed.

Example keywords_by_frequency :
  _extract_keywords isw_ascii_han
    (u "the cat and the dog and the bird ab 迭代 部署") (u "tech") =
    map u ["部署"; "迭代"; "the"; "and"; "cat"; "dog"; "bird"]%string.
Proof. vm_compute. reflexivity. Qed.

End KeywordFacts.

(** ** More on the service manager *)

Module ManagerMore.
Import Adapter Samples ManagerFacts.

Section Facts.

Context {W : Type}.
Implicit Types (m : AIServiceManager W) (a : AIServiceAdapter W).
Implicit Types (w : W) (tr : list event) (t p name : str).

Lemma well_probed_app t p tr1 tr2 :
  well_probed t p tr1 → well_probed t p tr2 → well_probed t p (tr1 ++ tr2).
Proof.
  induction 1 as [| name tr H IH | name msg tr H IH | msg tr H IH]; intros H2;
    cbn [app].
  - exact H2.
  - apply well_probed_probe, IH, H2.
  - apply well_probed_call, IH, H2.
  - apply well_probed_warning, IH, H2.
Qed.

Lemma probes_app tr1 tr2 : probes (tr1 ++ tr2) = probes tr1 ++ probes tr2.
Proof. unfold probes. apply omap_app. Qed.

Lemma calls_app tr1 tr2 : calls (tr1 ++ tr2) = calls tr1 ++ calls tr2.
Proof. unfold calls. apply omap_app. Qed.

Ltac trace_count :=
  unfold probes, calls in *; cbn [omap list_omap length] in *.

Lemma probes_attempt name msg t p :
  probes [CallIsAvailable name; LogInfo msg; CallGenerateSummary name t p]
    = [name].
Proof. reflexivity. Qed.

Lemma calls_attempt name msg t p :
  calls [CallIsAvailable name; LogInfo msg; CallGenerateSummary name t p]
    = [name].
Proof. reflexivity. Qed.

Lemma registered_lookup m name a :
  adapters m !! name = Some a → registered m name = true.
Proof. intros H. unfold registered. rewrite H. reflexivity. Qed.

(** What a failed first block leaves in the trace. *)
Lemma primary_fails_trace m t p w tr w' :
  primary_fails m t p w tr w' →
  well_probed t p tr ∧ (length (probes tr) ≤ 1)%nat ∧
  (length (calls tr) ≤ length (probes tr))%nat ∧
  Forall (fun n => registered m n = true) (probes tr).
Proof.
  intros H. destruct H as
    [w Hd | name w Hd Hreg | name a w w1 Hd Hreg Hav
     | name a w w1 e w2 Hd Hreg Hav Hgen].
  - split; [constructor |]. trace_count. split; [lia |]. split; [lia | constructor].
  - split; [constructor |]. trace_count. split; [lia |]. split; [lia | constructor].
  - split; [repeat constructor |]. trace_count. split; [lia |]. split; [lia |].
    constructor; [| constructor]. exact (registered_lookup _ _ _ Hreg).
  - split; [apply well_probed_call; repeat constructor |]. trace_count.
    split; [lia |]. split; [lia |].
    constructor; [| constructor]. exact (registered_lookup _ _ _ Hreg).
Qed.

(** What the names passed over leave in the trace. *)
Lemma passes_over_trace m t p order w tr w' :
  passes_over m t p order w tr w' →
  well_probed t p tr ∧ (length (probes tr) ≤ length order)%nat ∧
  (length (calls tr) ≤ length (probes tr))%nat ∧
  Forall (fun n => registered m n = true) (probes tr).
Proof.
  induction 1 as
    [w | name rest w tr w' Hreg _ IH | name a rest w w1 tr w' Hreg Hav _ IH
     | name a rest w w1 e w2 tr w' Hreg Hav Hgen _ IH].
  - split; [constructor |]. trace_count. split; [lia |]. split; [lia | constructor].
  - destruct IH as (H1 & H2 & H3 & H4).
    split; [exact H1 |]. cbn [length]. split; [lia |]. split; assumption.
  - destruct IH as (H1 & H2 & H3 & H4).
    split; [constructor; exact H1 |]. trace_count.
    split; [lia |]. split; [lia |].
    constructor; [exact (registered_lookup _ _ _ Hreg) | exact H4].
  - destruct IH as (H1 & H2 & H3 & H4).
    split; [apply well_probed_call; constructor; exact H1 |].
    cbn [app]. trace_count. split; [lia |]. split; [lia |].
    constructor; [exact (registered_lookup _ _ _ Hreg) | exact H4].
Qed.

(** The run, decomposed: the primary answers; or it fails and a fallback
    answers after the names before it were passed over; or it fails and
    the whole order is passed over. *)
Lemma run_cases m t p w :
  (∃ name a w1 doc w2,
     designated m = Some name ∧ adapters m !! name = Some a ∧
     is_available a w = (true, w1) ∧
     generate_summary a t p w1 = (Returned doc, w2) ∧
     generate_summary_with_fallback m t p w =
       ([ CallIsAvailable name; LogInfo (u "使用适配器: " ++ name);
          CallGenerateSummary name t p ], Returned doc, w2)) ∨
  (∃ tr0 w0 pre name post a tr1 w1 w2 doc w3,
     primary_fails m t p w tr0 w0 ∧
     fallback_order m = pre ++ name :: post ∧
     passes_over m t p pre w0 tr1 w1 ∧
     adapters m !! name = Some a ∧
     is_available a w1 = (true, w2) ∧
     generate_summary a t p w2 = (Returned doc, w3) ∧
     generate_summary_with_fallback m t p w =
       (tr0 ++ tr1 ++
          [ CallIsAvailable name; LogInfo (u "使用降级适配器: " ++ name);
            CallGenerateSummary name t p ], Returned doc, w3)) ∨
  (∃ tr0 w0 tr1 w1,
     primary_fails m t p w tr0 w0 ∧
     passes_over m t p (fallback_order m) w0 tr1 w1 ∧
     generate_summary_with_fallback m t p w =
       (tr0 ++ tr1, Raised exhausted, w1)).
Proof.
  destruct (try_primary_cases m t p w) as
    [(name & a & w1 & doc & w2 & Hd & Hreg & Hav & Hgen) | (tr0 & w0 & Hp)].
  - left. exists name, a, w1, doc, w2.
    do 4 (split; [assumption |]).
    unfold generate_summary_with_fallback.
    unfold mbind at 1. unfold eff_bind at 1.
    rewrite (try_primary_returned _ _ _ _ _ _ _ _ _ Hd Hreg Hav Hgen).
    reflexivity.
  - right. destruct (fallback_walk_cases m t p (fallback_order m) w0) as
      [(tr1 & w1 & Hf)
      | (pre & name & post & a & tr1 & w1 & w2 & doc & w3
         & Hord & Hpre & Hreg & Hav & Hgen)].
    + right. exists tr0, w0, tr1, w1.
      do 2 (split; [assumption |]).
      rewrite (fallback_after_primary _ _ _ _ _ _ Hp).
      rewrite (try_fallbacks_all_pass _ _ _ _ _ _ _ Hf).
      rewrite app_nil_r. reflexivity.
    + left. exists tr0, w0, pre, name, post, a, tr1, w1, w2, doc, w3.
      do 6 (split; [assumption |]).
      rewrite (fallback_after_primary _ _ _ _ _ _ Hp), Hord.
      rewrite (try_fallbacks_passes _ _ _ _ (name :: post) _ _ _ Hpre).
      rewrite (try_fallbacks_head_returned _ _ _ _ _ post _ _ _ _ Hreg Hav Hgen).
      rewrite app_nil_r. reflexivity.
Qed.

(** X2: in every run [generate_summary] is called only on an adapter
    probed just before, with the transcript and prompt given; only
    registered adapters are probed; there are at most as many calls as
    probes, and at most one probe more than the fallback order has
    names. *)
Theorem calls_follow_probes m t p w :
  ∀ tr r w', generate_summary_with_fallback m t p w = (tr, r, w') →
    well_probed t p tr ∧
    (length (calls tr) ≤ length (probes tr))%nat ∧
    (length (probes tr) ≤ 1 + length (fallback_order m))%nat ∧
    Forall (fun n => registered m n = true) (probes tr).
Proof.
  intros tr r w' Hrun.
  destruct (run_cases m t p w) as
    [(name & a & w1 & doc & w2 & Hd & Hreg & Hav & Hgen & Hrun')
    | [(tr0 & w0 & pre & name & post & a & tr1 & w1 & w2 & doc & w3
        & Hp & Hord & Hpre & Hreg & Hav & Hgen & Hrun')
      | (tr0 & w0 & tr1 & w1 & Hp & Hf & Hrun')]];
    rewrite Hrun' in Hrun; injection Hrun as <- <- <-.
  - split; [apply well_probed_call; constructor |]. trace_count.
    split; [lia |]. split; [lia |].
    constructor; [exact (registered_lookup _ _ _ Hreg) | constructor].
  - destruct (primary_fails_trace _ _ _ _ _ _ Hp) as (A1 & A2 & A3 & A4).
    destruct (passes_over_trace _ _ _ _ _ _ _ Hpre) as (B1 & B2 & B3 & B4).
    split.
    { apply well_probed_app; [exact A1 |].
      apply well_probed_app; [exact B1 |].
      apply well_probed_call. constructor. }
    rewrite !probes_app, !calls_app, Hord.
    rewrite probes_attempt, calls_attempt, !length_app. cbn [length].
    split; [lia |]. split; [lia |].
    apply Forall_app. split; [exact A4 |].
    apply Forall_app. split; [exact B4 |].
    constructor; [exact (registered_lookup _ _ _ Hreg) | constructor].
  - destruct (primary_fails_trace _ _ _ _ _ _ Hp) as (A1 & A2 & A3 & A4).
    destruct (passes_over_trace _ _ _ _ _ _ _ Hf) as (B1 & B2 & B3 & B4).
    split; [apply well_probed_app; assumption |].
    rewrite !probes_app, !calls_app, !length_app.
    split; [lia |]. split; [lia |].
    apply Forall_app. split; assumption.
Qed.

(** The operation, written out over its two blocks. *)
Lemma run_unfold m t p w :
  generate_summary_with_fallback m t p w =
    (let '(tr0, r, w0) := try_primary m t p w in
     match r with
     | Some doc => (tr0 ++ [], Returned doc, w0)
     | None =>
         let '(tr1, r', w1) := try_fallbacks m t p (fallback_order m) w0 in
         (tr0 ++ tr1 ++ [],
          match r' with Some doc => Returned doc | None => Raised exhausted end,
          w1)
     end).
Proof.
  unfold generate_summary_with_fallback. unfold mbind at 1. unfold eff_bind at 1.
  destruct (try_primary m t p w) as [[tr0 [doc |]] w0]; [reflexivity |].
  unfold mbind, eff_bind.
  destruct (try_fallbacks m t p (fallback_order m) w0) as [[tr1 [doc |]] w1];
    reflexivity.
Qed.

(** The loop looks a name up before anything else. *)
Lemma try_fallbacks_filter m t p order w :
  try_fallbacks m t p (List.filter (registered m) order) w =
  try_fallbacks m t p order w.
Proof.
  revert w; induction order as [|name rest IH]; intros w; [reflexivity |].
  cbn [List.filter]. unfold registered at 1.
  destruct (adapters m !! name) as [a |] eqn:Hreg.
  - cbn [try_fallbacks]. rewrite Hreg. eff_run.
    destruct (is_available a w) as [[|] w1]; [| rewrite IH; reflexivity].
    destruct (generate_summary a t p w1) as [[doc | e] w2]; [reflexivity |].
    rewrite IH. reflexivity.
  - cbn [try_fallbacks]. rewrite Hreg. apply IH.
Qed.

Lemma try_fallbacks_same_registry m m' t p order w :
  adapters m' = adapters m →
  try_fallbacks m' t p order w = try_fallbacks m t p order w.
Proof.
  intros E. revert w; induction order as [|name rest IH]; intros w;
    [reflexivity |].
  cbn [try_fallbacks]. rewrite E.
  destruct (adapters m !! name) as [a |]; [| apply IH].
  eff_run. destruct (is_available a w) as [[|] w1]; [| rewrite IH; reflexivity].
  destruct (generate_summary a t p w1) as [[doc | e] w2]; [reflexivity |].
  rewrite IH. reflexivity.
Qed.

(** X3: names in the fallback order that are not registered have no
    effect at all: dropping them from the order leaves the events, the
    result and the final state of every run as they were. *)
Theorem unregistered_names_have_no_effect m t p w :
  generate_summary_with_fallback
    (set_fallback_order (List.filter (registered m) (fallback_order m)) m) t p w
  = generate_summary_with_fallback m t p w.
Proof.
  rewrite !run_unfold.
  change (try_primary (set_fallback_order
            (List.filter (registered m) (fallback_order m)) m) t p w)
    with (try_primary m t p w).
  destruct (try_primary m t p w) as [[tr0 [doc |]] w0]; [reflexivity |].
  cbn [fallback_order set_fallback_order].
  rewrite (try_fallbacks_same_registry m
             (set_fallback_order
                (List.filter (registered m) (fallback_order m)) m)
             t p _ w0 eq_refl).
  rewrite try_fallbacks_filter. reflexivity.
Qed.

(** X5: registering an adapter under a non-empty name and then
    designating that name always succeeds; afterwards the name is the
    designated primary and resolves to the adapter just registered, the
    fallback order is what it was, and every other name resolves as
    before. *)
Theorem register_then_designate m name a :
  name ≠ [] →
  ∃ m',
    snd (set_primary_adapter name (snd (register_adapter name a m)))
      = Returned m' ∧
    designated m' = Some name ∧
    adapters m' !! name = Some a ∧
    fallback_order m' = fallback_order m ∧
    ∀ n, n ≠ name → adapters m' !! n = adapters m !! n.
Proof.
  intros Hne. unfold set_primary_adapter, register_adapter. cbn [snd adapters].
  rewrite lookup_insert_eq. eexists. split; [reflexivity |].
  cbn [designated current_adapter adapters fallback_order].
  split; [destruct name; [congruence | reflexivity] |].
  split; [apply lookup_insert_eq |]. split; [reflexivity |].
  intros n Hn. apply lookup_insert_ne. congruence.
Qed.

(** X6: the primary is held by name: registering another adapter under
    the designated name replaces the primary, and the next run probes
    and calls the new adapter, whatever was registered there before. *)
Theorem reregistration_replaces_primary m name a' t p w w1 doc w2 :
  designated m = Some name →
  is_available a' w = (true, w1) →
  generate_summary a' t p w1 = (Returned doc, w2) →
  generate_summary_with_fallback (snd (register_adapter name a' m)) t p w =
    ([ CallIsAvailable name;
       LogInfo (u "使用适配器: " ++ name);
       CallGenerateSummary name t p ],
     Returned doc, w2).
Proof.
  intros Hd Hav Hgen. unfold generate_summary_with_fallback.
  unfold mbind at 1. unfold eff_bind at 1.
  rewrite (try_primary_returned _ name a' t p w w1 doc w2); [reflexivity | | | |].
  - exact Hd.
  - unfold register_adapter. cbn [snd adapters]. apply lookup_insert_eq.
  - exact Hav.
  - exact Hgen.
Qed.

Lemma try_fallbacks_agree m m' t p order w :
  (∀ n, In n order → adapters m' !! n = adapters m !! n) →
  try_fallbacks m' t p order w = try_fallbacks m t p order w.
Proof.
  revert w; induction order as [|name rest IH]; intros w E; [reflexivity |].
  assert (∀ w0, try_fallbacks m' t p rest w0 = try_fallbacks m t p rest w0)
    as IH' by (intros w0; apply IH; intros n Hn; apply E; right; exact Hn).
  cbn [try_fallbacks]. rewrite (E name) by (left; reflexivity).
  destruct (adapters m !! name) as [a |]; [| apply IH'].
  eff_run. destruct (is_available a w) as [[|] w1]; [| rewrite IH'; reflexivity].
  destruct (generate_summary a t p w1) as [[doc | e] w2]; [reflexivity |].
  rewrite IH'. reflexivity.
Qed.

Lemma try_primary_agree m m' t p w :
  current_adapter m' = current_adapter m →
  (∀ n, designated m = Some n → adapters m' !! n = adapters m !! n) →
  try_primary m' t p w = try_primary m t p w.
Proof.
  intros Hc E. unfold try_primary.
  assert (designated m' = designated m) as ->
    by (unfold designated; rewrite Hc; reflexivity).
  destruct (designated m) as [n |]; [| reflexivity].
  rewrite (E n eq_refl). reflexivity.
Qed.

(** X21: an adapter registered under a name that is neither the
    designated primary nor in the fallback order is never touched:
    registering it leaves the events, the result and the final state of
    every run as they were. *)
Theorem unused_adapter_has_no_effect m name a t p w :
  designated m ≠ Some name →
  ¬ In name (fallback_order m) →
  generate_summary_with_fallback (snd (register_adapter name a m)) t p w
  = generate_summary_with_fallback m t p w.
Proof.
  intros Hd Hf. rewrite !run_unfold.
  rewrite (try_primary_agree m (snd (register_adapter name a m))).
  - destruct (try_primary m t p w) as [[tr0 [doc |]] w0]; [reflexivity |].
    change (fallback_order (snd (register_adapter name a m)))
      with (fallback_order m).
    rewrite (try_fallbacks_agree m (snd (register_adapter name a m))).
    + reflexivity.
    + intros n Hn. unfold register_adapter. cbn [snd adapters].
      apply lookup_insert_ne. intros ->. exact (Hf Hn).
  - reflexivity.
  - intros n Hn. unfold register_adapter. cbn [snd adapters].
    apply lookup_insert_ne. intros ->. exact (Hd Hn).
Qed.

End Facts.

(** An adapter registered in [long_walk] under a name of its own. *)
Lemma unused_adapter_has_no_effect_witness :
  generate_summary_with_fallback
    (snd (register_adapter (u "spare") degrading long_walk))
    sample_transcript sample_prompt 0%nat
  = generate_summary_with_fallback long_walk sample_transcript sample_prompt
      0%nat.
Proof.
  apply (unused_adapter_has_no_effect long_walk (u "spare") degrading).
  - vm_compute. discriminate.
  - vm_compute. intros H. repeat destruct H as [H | H]; try discriminate H.
    exact H.
Defined.

(** The run of [long_walk]. *)
Lemma calls_follow_probes_witness :
  ∃ tr r w',
    generate_summary_with_fallback long_walk sample_transcript sample_prompt
      0%nat = (tr, r, w') ∧
    well_probed sample_transcript sample_prompt tr ∧
    (length (calls tr) ≤ length (probes tr))%nat.
Proof.
  destruct (generate_summary_with_fallback long_walk sample_transcript
              sample_prompt 0%nat) as [[tr r] w'] eqn:E.
  exists tr, r, w'. split; [reflexivity |].
  destruct (calls_follow_probes long_walk sample_transcript sample_prompt
              0%nat tr r w' E) as (H1 & H2 & _).
  split; assumption.
Defined.

Lemma register_then_designate_witness :
  ∃ m',
    snd (set_primary_adapter openai (snd (register_adapter openai flaky all_down)))
      = Returned m' ∧
    designated m' = Some openai ∧
    adapters m' !! openai = Some flaky.
Proof.
  destruct (register_then_designate all_down openai flaky) as
    (m' & H1 & H2 & H3 & _); [vm_compute; discriminate |].
  exists m'. auto.
Defined.

(** In [all_down] the primary [openai] is unavailable; registering
    [degrading] under that name makes the next run succeed. *)
Lemma reregistration_replaces_primary_witness :
  designated all_down = Some openai ∧
  generate_summary_with_fallback (snd (register_adapter openai degrading all_down))
    sample_transcript sample_prompt 0%nat =
    ([ CallIsAvailable openai;
       LogInfo (u "使用适配器: " ++ openai);
       CallGenerateSummary openai sample_transcript sample_prompt ],
     Returned (_create_fallback_summary sample_transcript), 1%nat).
Proof.
  split; [reflexivity |].
  apply (reregistration_replaces_primary all_down openai degrading
           sample_transcript sample_prompt 0%nat 0%nat _ 1%nat); reflexivity.
Defined.

End ManagerMore.

(** ** The manager with adapters of any kind *)

Module UnrestrictedFacts.
Import Adapter Samples.

Ltac any_run :=
  unfold mbind, mret, eff_bind, eff_ret, log,
    any_call_is_available, any_call_generate_summary.

Section Facts.

Context {W : Type}.

Implicit Types (m : AnyManager W) (a : AnyAdapter W) (t p : str) (w : W).



(** One turn of the loop, written out. *)
Lemma any_fallbacks_unfold m t p name rest w :
  any_try_fallbacks m t p (name :: rest) w =
    match any_adapters m !! name with
    | None => any_try_fallbacks m t p rest w
    | Some a =>
        let '(answer, w1) := any_is_available a w in
        match answer with
        | inr raised => ([CallIsAvailable name], Some (inr raised), w1)
        | inl false =>
            let '(tr, r, w') := any_try_fallbacks m t p rest w1 in
            (CallIsAvailable name :: tr, r, w')
        | inl true =>
            let '(r, w2) := any_generate_summary a t p w1 in
            match r with
            | inl doc =>
                ([ CallIsAvailable name;
                   LogInfo (u "使用降级适配器: " ++ name);
                   CallGenerateSummary name t p ], Some (inl doc), w2)
            | inr raised =>
                if is_Exception raised then
                  let '(tr, r, w') := any_try_fallbacks m t p rest w2 in
                  ([ CallIsAvailable name;
                     LogInfo (u "使用降级适配器: " ++ name);
                     CallGenerateSummary name t p;
                     LogWarning (u "降级适配器失败: "
                                   ++ exn_str (thrown_exn raised)) ] ++ tr,
                   r, w')
                else
                  ([ CallIsAvailable name;
                     LogInfo (u "使用降级适配器: " ++ name);
                     CallGenerateSummary name t p ],
                   Some (inr raised), w2)
            end
        end
    end.
Proof.
  cbn [any_try_fallbacks].
  destruct (any_adapters m !! name) as [a |]; [| reflexivity].
  any_run. destruct (any_is_available a w) as [[[|] | raised] w1];
    [| | reflexivity].
  - destruct (any_generate_summary a t p w1) as [[doc | raised] w2];
      [reflexivity |].
    destruct (is_Exception raised); [| reflexivity].
    destruct (any_try_fallbacks m t p rest w2) as [[tr r] w']. reflexivity.
  - destruct (any_try_fallbacks m t p rest w1) as [[tr r] w']. reflexivity.
Qed.

Lemma any_run_unfold m t p w :
  any_generate_summary_with_fallback m t p w =
    (let '(tr0, r, w0) := any_try_primary m t p w in
     match r with
     | Some ending => (tr0 ++ [], ending, w0)
     | None =>
         let '(tr1, r', w1) :=
           any_try_fallbacks m t p (any_fallback_order m) w0 in
         (tr0 ++ tr1 ++ [],
          match r' with
          | Some ending => ending
          | None => inr (Thrown exhausted true)
          end, w1)
     end).
Proof.
  unfold any_generate_summary_with_fallback. unfold mbind at 1.
  unfold eff_bind at 1.
  destruct (any_try_primary m t p w) as [[tr0 [ending |]] w0]; [reflexivity |].
  unfold mbind, eff_bind.
  destruct (any_try_fallbacks m t p (any_fallback_order m) w0)
    as [[tr1 [ending |]] w1]; reflexivity.
Qed.









(** *** The restricted adapters among the others *)

Lemma any_primary_of (m : AIServiceManager W) t p w :
  any_try_primary (any_manager_of m) t p w =
    (let '(tr, r, w') := try_primary m t p w in
     (tr, option_map inl r, w')).
Proof.
  unfold any_try_primary, try_primary, any_designated, designated.
  cbn [any_manager_of any_current_adapter any_adapters].
  destruct (current_adapter m) as [[|c n] |]; [reflexivity | | reflexivity].
  rewrite lookup_fmap. destruct (adapters m !! (c :: n)) as [a |];
    [| reflexivity].
  cbn [fmap option_fmap option_map]. any_run. ManagerFacts.eff_run.
  cbn [any_of any_is_available any_generate_summary].
  destruct (is_available a w) as [[|] w1]; [| reflexivity].
  destruct (generate_summary a t p w1) as [[doc | e] w2]; reflexivity.
Qed.

Lemma any_fallbacks_of (m : AIServiceManager W) t p order w :
  any_try_fallbacks (any_manager_of m) t p order w =
    (let '(tr, r, w') := try_fallbacks m t p order w in
     (tr, option_map inl r, w')).
Proof.
  revert w; induction order as [|name rest IH]; intros w; [reflexivity |].
  rewrite any_fallbacks_unfold. cbn [try_fallbacks].
  cbn [any_manager_of any_adapters]. rewrite lookup_fmap.
  destruct (adapters m !! name) as [a |]; [| apply IH].
  cbn [fmap option_fmap option_map]. ManagerFacts.eff_run.
  cbn [any_of any_is_available any_generate_summary].
  destruct (is_available a w) as [[|] w1].
  - destruct (generate_summary a t p w1) as [[doc | e] w2]; [reflexivity |].
    cbn [as_ending is_Exception thrown_exn].
    change (any_of <$> adapters m) with (any_adapters (any_manager_of m)).
    rewrite IH.
    destruct (try_fallbacks m t p rest w2) as [[tr r] w']. reflexivity.
  - change (any_of <$> adapters m) with (any_adapters (any_manager_of m)).
    rewrite IH.
    destruct (try_fallbacks m t p rest w1) as [[tr r] w']. reflexivity.
Qed.

(** On adapters of the restricted kind the operation given for any
    adapter is the operation given for them: same events, same result,
    same final state. *)
Lemma restricted_run_agrees (m : AIServiceManager W) t p w :
  any_generate_summary_with_fallback (any_manager_of m) t p w =
    (let '(tr, r, w') := generate_summary_with_fallback m t p w in
     (tr, as_ending r, w')).
Proof.
  rewrite any_run_unfold, ManagerMore.run_unfold, any_primary_of.
  destruct (try_primary m t p w) as [[tr0 [doc |]] w0]; [reflexivity |].
  cbn [option_map any_manager_of any_fallback_order].
  change {| any_adapters := any_of <$> adapters m;
            any_current_adapter := current_adapter m;
            any_fallback_order := fallback_order m |}
    with (any_manager_of m).
  rewrite any_fallbacks_of.
  destruct (try_fallbacks m t p (fallback_order m) w0) as [[tr1 [doc |]] w1];
    reflexivity.
Qed.



End Facts.


(** Without the two conditions on the other adapters the fallback is not
    reached: what the primary's call raises, being no [Exception], and
    what the primary's probe raises go to the caller. *)
Example interrupt_reaches_the_caller :
  any_generate_summary_with_fallback interrupted_primary
    sample_transcript sample_prompt 0%nat =
    ([ CallIsAvailable openai;
       LogInfo (u "使用适配器: " ++ openai);
       CallGenerateSummary openai sample_transcript sample_prompt ],
     inr (Thrown (Exception "KeyboardInterrupt" (u "")) false), 1%nat).
Proof. vm_compute. reflexivity. Qed.

Example probe_error_reaches_the_caller :
  any_generate_summary_with_fallback probe_raising_primary
    sample_transcript sample_prompt 0%nat =
    ([CallIsAvailable openai],
     inr (Thrown (Exception "ConnectionError" (u "refused")) true), 0%nat).
Proof. vm_compute. reflexivity. Qed.

End UnrestrictedFacts.

(** ** More on post-processing *)

Module PostProcessMore.
Import Adapter ContextOptimizer Samples PostProcessFacts.

(** *** Dicts *)

Lemma dict_set_same (k : str) (v : pyval) (d : dict) :
  dict_get k d = Some v → dict_set k v d = d.
Proof.
  induction d as [|[k' v'] d IH]; simpl; [discriminate |].
  destruct (str_eqb k k') eqn:E.
  - intros [= ->]. apply str_eqb_eq in E. subst. reflexivity.
  - intros H. rewrite (IH H). reflexivity.
Qed.

Lemma dict_set_set (k : str) (v v' : pyval) (d : dict) :
  dict_set k v (dict_set k v' d) = dict_set k v d.
Proof.
  induction d as [|[k' v0] d IH]; simpl.
  - rewrite str_eqb_refl. reflexivity.
  - destruct (str_eqb k k') eqn:E; simpl.
    + rewrite str_eqb_refl. reflexivity.
    + rewrite E, IH. reflexivity.
Qed.

Lemma dict_get_default_set_ne (k k' : str) (dflt v : pyval) (d : dict) :
  k ≠ k' →
  dict_get_default k dflt (dict_set k' v d) = dict_get_default k dflt d.
Proof.
  intros H. unfold dict_get_default. rewrite (dict_get_set_ne _ _ _ _ H).
  reflexivity.
Qed.

(** *** Loops over the items of a collection *)

Lemma mapM_on_dict_inv (body : dict → res dict) (l l' : list pyval) :
  mapM (on_dict (fun d => d' ← body d; mret (PDict d'))) l = Ok l' →
  Forall2 (steps body) l l'.
Proof.
  revert l'; induction l as [|x l IH]; intros l' H.
  - injection H as <-. constructor.
  - cbn [mapM] in H. apply bind_ok in H as (y & Hx & H).
    apply bind_ok in H as (ys & Hl & H). injection H as <-.
    constructor; [| apply IH, Hl].
    destruct x; try discriminate Hx. cbn [on_dict] in Hx.
    apply bind_ok in Hx as (d' & Hb & Hx). injection Hx as <-.
    eexists _, _. eauto.
Qed.

Lemma mapM_on_dict_intro (body : dict → res dict) (l l' : list pyval) :
  Forall2 (steps body) l l' →
  mapM (on_dict (fun d => d' ← body d; mret (PDict d'))) l = Ok l'.
Proof.
  induction 1 as [|x x' l l' (d & d' & -> & -> & Hb) _ IH]; [reflexivity |].
  cbn [mapM on_dict]. rewrite Hb, bind_Ok. unfold mret at 1, res_ret at 1.
  rewrite bind_Ok, IH, bind_Ok. reflexivity.
Qed.

Lemma loop_items_list (body : dict → res dict) (l l' : list pyval) :
  Forall2 (steps body) l l' → loop_items body (PList l) = Ok (PList l').
Proof.
  intros H. unfold loop_items. cbn [py_iter]. rewrite bind_Ok.
  rewrite (mapM_on_dict_intro _ _ _ H), bind_Ok. reflexivity.
Qed.

(** A loop that ends does so over a list of dicts, or over an empty
    string or dict, which it leaves alone. *)
Lemma loop_items_inv (body : dict → res dict) (v v' : pyval) :
  loop_items body v = Ok v' →
  (∃ l l', v = PList l ∧ v' = PList l' ∧ Forall2 (steps body) l l') ∨
  (v' = v ∧ (v = PStr [] ∨ v = PDict [])).
Proof.
  unfold loop_items. intros H.
  apply bind_ok in H as (items & Hiter & H).
  apply bind_ok in H as (items' & Hmap & H). injection H as <-.
  destruct v as [ | | | s | l | d]; try discriminate Hiter;
    cbn [py_iter] in Hiter; injection Hiter as <-.
  - right. destruct s as [|c s]; [auto | discriminate Hmap].
  - left. exists l, items'. split; [reflexivity |]. split; [reflexivity |].
    apply mapM_on_dict_inv, Hmap.
  - right. destruct d as [|kv d]; [auto | discriminate Hmap].
Qed.

Lemma loop_items_empty_str (body : dict → res dict) :
  loop_items body (PStr []) = Ok (PStr []).
Proof. reflexivity. Qed.

Lemma loop_items_empty_dict (body : dict → res dict) :
  loop_items body (PDict []) = Ok (PDict []).
Proof. reflexivity. Qed.

(** [for_each_item] through the value under its key. *)
Lemma for_each_item_loop (key : str) (body : dict → res dict) (summary : dict) :
  for_each_item key body summary =
    match dict_get key summary with
    | None => Ok summary
    | Some v => v' ← loop_items body v; mret (dict_set key v' summary)
    end.
Proof.
  unfold for_each_item, loop_items.
  destruct (dict_get key summary) as [v |]; [| reflexivity].
  destruct (py_iter v) as [items | e]; [| reflexivity].
  rewrite !bind_Ok.
  destruct (mapM _ items) as [items' | e]; reflexivity.
Qed.

Lemma steps_settle (body : dict → res dict) (l l' : list pyval) :
  settles body → Forall2 (steps body) l l' → Forall2 (steps body) l' l'.
Proof.
  intros Hs. induction 1 as [|x x' l l' (d & d' & -> & -> & Hb) _ IH];
    constructor; [| exact IH].
  eexists _, _. split; [reflexivity |]. split; [reflexivity |]. apply Hs in Hb.
  exact Hb.
Qed.

Lemma loop_items_settles (body : dict → res dict) (v v' : pyval) :
  settles body → loop_items body v = Ok v' → loop_items body v' = Ok v'.
Proof.
  intros Hs H.
  destruct (loop_items_inv _ _ _ H) as
    [(l & l' & -> & -> & Hl) | (-> & [-> | ->])].
  - apply loop_items_list. exact (steps_settle _ _ _ Hs Hl).
  - reflexivity.
  - reflexivity.
Qed.

(** Running a settled loop again on what it left changes nothing. *)
Lemma for_each_item_again (key : str) (body : dict → res dict)
    (s s' s'' : dict) :
  settles body →
  for_each_item key body s = Ok s' →
  dict_get key s'' = dict_get key s' →
  for_each_item key body s'' = Ok s''.
Proof.
  intros Hs H Hsame. rewrite for_each_item_loop in *.
  destruct (dict_get key s) as [v |] eqn:Hk.
  - apply bind_ok in H as (v' & Hloop & H). injection H as <-.
    rewrite dict_get_set_eq in Hsame. rewrite Hsame.
    rewrite (loop_items_settles _ _ _ Hs Hloop), bind_Ok.
    unfold mret, res_ret. rewrite (dict_set_same _ _ _ Hsame). reflexivity.
  - injection H as <-. rewrite Hk in Hsame. rewrite Hsame. reflexivity.
Qed.

(** *** The three bodies *)

Lemma any_in_scannable (words : list str) (v : pyval) :
  scannable v = true → ∃ b, any_in words v = Ok b.
Proof.
  intros Hv. induction words as [|w words [b IH]]; [eexists; reflexivity |].
  cbn [any_in].
  assert (∃ c, py_in w v = Ok c) as [c ->]
    by (destruct v; try discriminate Hv; eexists; reflexivity).
  rewrite bind_Ok. destruct c; eauto.
Qed.

Lemma adjust_point_result (context : MeetingContext) (point point' : dict) :
  adjust_point context point = Ok point' →
  point' = point ∨ point' = set_str (u "importance") (u "high") point.
Proof.
  unfold adjust_point. intros H.
  destruct (str_eqb (meeting_type context) (u "project_review")).
  - apply bind_ok in H as ([|] & _ & H); injection H as <-; auto.
  - destruct (str_eqb (meeting_type context) (u "strategic_planning")).
    + apply bind_ok in H as ([|] & _ & H); injection H as <-; auto.
    + injection H as <-; auto.
Qed.

Lemma adjust_point_settles (context : MeetingContext) :
  settles (adjust_point context).
Proof.
  intros p p' H. unfold adjust_point in *.
  assert (∀ v, dict_get_default (u "content") (PStr [])
                 (set_str (u "importance") v p)
               = dict_get_default (u "content") (PStr []) p) as Hc.
  { intros v. apply dict_get_default_set_ne. keys_differ. }
  destruct (str_eqb (meeting_type context) (u "project_review")).
  - apply bind_ok in H as ([|] & Hb & H); injection H as <-.
    + rewrite Hc, Hb, bind_Ok. unfold mret, res_ret, set_str.
      rewrite dict_set_set. reflexivity.
    + rewrite Hb, bind_Ok. reflexivity.
  - destruct (str_eqb (meeting_type context) (u "strategic_planning")).
    + apply bind_ok in H as ([|] & Hb & H); injection H as <-.
      * rewrite Hc, Hb, bind_Ok. unfold mret, res_ret, set_str.
        rewrite dict_set_set. reflexivity.
      * rewrite Hb, bind_Ok. reflexivity.
    + injection H as <-. reflexivity.
Qed.

Lemma time_sensitive_result (action : dict) :
  time_sensitive action = action ∨
  ∃ p, time_sensitive action = set_str (u "priority") p action.
Proof.
  unfold time_sensitive.
  destruct (truthy _); [| auto].
  destruct (deadline_priority _); eauto.
Qed.

Lemma time_sensitive_settles :
  settles (fun a => mret (time_sensitive a)).
Proof.
  intros a a' H. injection H as <-. unfold mret, res_ret. f_equal.
  assert (∀ v, dict_get_default (u "deadline") (PStr [])
                 (set_str (u "priority") v a)
               = dict_get_default (u "deadline") (PStr []) a) as Hd.
  { intros v. apply dict_get_default_set_ne. keys_differ. }
  unfold time_sensitive at 2.
  destruct (truthy (dict_get_default (u "deadline") (PStr []) a)) eqn:Ht.
  - destruct (deadline_priority (dict_get_default (u "deadline") (PStr []) a))
      as [p | e] eqn:Hp.
    + unfold time_sensitive. rewrite Hd, Ht, Hp. unfold set_str.
      apply dict_set_set.
    + unfold time_sensitive. rewrite Hd, Ht, Hp. unfold set_str.
      apply dict_set_set.
  - unfold time_sensitive. rewrite Ht. reflexivity.
Qed.

Lemma tag_decision_result (context : MeetingContext) (d d' : dict) (key : bool) :
  tag_decision context d = Ok (d', key) →
  ∃ urgency, d' = set_str (u "urgency") urgency d.
Proof.
  unfold tag_decision. intros H. apply bind_ok in H as (score & _ & H).
  destruct (2 <=? score)%nat; [| destruct (1 <=? score)%nat];
    injection H as <- <-; eauto.
Qed.

Lemma tag_decision_settles (context : MeetingContext) (d d' : dict) (key : bool) :
  tag_decision context d = Ok (d', key) →
  tag_decision context d' = Ok (d', key).
Proof.
  intros H.
  assert (∀ v, dict_get_default (u "content") (PStr [])
                 (set_str (u "urgency") v d)
               = dict_get_default (u "content") (PStr []) d) as Hc.
  { intros v. apply dict_get_default_set_ne. keys_differ. }
  unfold tag_decision in *. cbv zeta in *.
  apply bind_ok in H as (score & Hscore & H).
  destruct (2 <=? score)%nat eqn:E2; [| destruct (1 <=? score)%nat eqn:E1];
    injection H as <- <-; rewrite Hc, Hscore, bind_Ok, E2, ?E1;
    unfold mret, res_ret, set_str; rewrite dict_set_set; reflexivity.
Qed.

Lemma tag_decisions_settles (context : MeetingContext)
    (items items' keys : list pyval) :
  tag_decisions context items = Ok (items', keys) →
  tag_decisions context items' = Ok (items', keys).
Proof.
  revert items' keys. induction items as [|x items IH]; intros items' keys H.
  - injection H as <- <-. reflexivity.
  - cbn [tag_decisions] in H.
    apply bind_ok in H as ([d key] & Hx & H).
    apply bind_ok in H as ([rest' keys'] & Hrest & H).
    injection H as <- <-.
    destruct x; try discriminate Hx. cbn [on_dict] in Hx.
    cbn [tag_decisions on_dict].
    rewrite (tag_decision_settles _ _ _ _ Hx), bind_Ok.
    rewrite (IH _ _ Hrest), bind_Ok. reflexivity.
Qed.

Lemma tag_decisions_length (context : MeetingContext)
    (items items' keys : list pyval) :
  tag_decisions context items = Ok (items', keys) →
  Forall2 (same_except (u "urgency")) items items'.
Proof.
  revert items' keys. induction items as [|x items IH]; intros items' keys H.
  - injection H as <- <-. constructor.
  - cbn [tag_decisions] in H.
    apply bind_ok in H as ([d key] & Hx & H).
    apply bind_ok in H as ([rest' keys'] & Hrest & H).
    injection H as <- <-.
    destruct x; try discriminate Hx. cbn [on_dict] in Hx.
    constructor; [| exact (IH _ _ Hrest)].
    destruct (tag_decision_result _ _ _ _ Hx) as [urgency ->].
    eexists _, _. split; [reflexivity |]. split; [reflexivity |].
    intros k Hk. apply dict_get_set_ne, Hk.
Qed.

(** *** The pass over the decisions *)

Lemma identify_unfold (context : MeetingContext) (summary : dict) :
  _identify_key_decisions summary context =
    match dict_get (u "decisions") summary with
    | None => Ok summary
    | Some v =>
        '(v', keys) ← tag_value context v;
        mret (with_key_decisions keys (dict_set (u "decisions") v' summary))
    end.
Proof.
  unfold _identify_key_decisions, tag_value.
  destruct (dict_get (u "decisions") summary) as [v |]; [| reflexivity].
  destruct (py_iter v) as [items | e]; [| reflexivity].
  unfold mbind, res_bind.
  destruct (tag_decisions context items) as [[items' keys] | e];
    [| reflexivity].
  destruct keys; reflexivity.
Qed.

Lemma tag_value_inv (context : MeetingContext) (v v' : pyval)
    (keys : list pyval) :
  tag_value context v = Ok (v', keys) →
  (∃ l l', v = PList l ∧ v' = PList l' ∧
           tag_decisions context l = Ok (l', keys)) ∨
  (v' = v ∧ keys = [] ∧ (v = PStr [] ∨ v = PDict [])).
Proof.
  unfold tag_value. intros H.
  apply bind_ok in H as (items & Hiter & H).
  apply bind_ok in H as ([items' keys'] & Htag & H). injection H as <- <-.
  destruct v as [ | | | s | l | d]; try discriminate Hiter;
    cbn [py_iter] in Hiter; injection Hiter as <-.
  - right. destruct s as [|c s]; [| discriminate Htag].
    injection Htag as <- <-. auto.
  - left. eauto.
  - right. destruct d as [|kv d]; [| discriminate Htag].
    injection Htag as <- <-. auto.
Qed.

Lemma tag_value_list (context : MeetingContext) (l l' keys : list pyval) :
  tag_decisions context l = Ok (l', keys) →
  tag_value context (PList l) = Ok (PList l', keys).
Proof.
  intros H. unfold tag_value. cbn [py_iter]. rewrite bind_Ok, H, bind_Ok.
  reflexivity.
Qed.

Lemma tag_value_settles (context : MeetingContext) (v v' : pyval)
    (keys : list pyval) :
  tag_value context v = Ok (v', keys) → tag_value context v' = Ok (v', keys).
Proof.
  intros H. destruct (tag_value_inv _ _ _ _ H) as
    [(l & l' & -> & -> & Htag) | (-> & -> & [-> | ->])].
  - apply tag_value_list, (tag_decisions_settles _ _ _ _ Htag).
  - reflexivity.
  - reflexivity.
Qed.

Lemma with_key_decisions_other (keys : list pyval) (k : str) (d : dict) :
  k ≠ u "key_decisions" →
  dict_get k (with_key_decisions keys d) = dict_get k d.
Proof.
  intros Hk. destruct keys; [reflexivity |]. apply dict_get_set_ne, Hk.
Qed.

Lemma identify_other (context : MeetingContext) (s s' : dict) (k : str) :
  k ≠ u "decisions" → k ≠ u "key_decisions" →
  _identify_key_decisions s context = Ok s' →
  dict_get k s' = dict_get k s.
Proof.
  intros H1 H2 H. rewrite identify_unfold in H.
  destruct (dict_get (u "decisions") s) as [v |];
    [| injection H as <-; reflexivity].
  apply bind_ok in H as ([v' keys] & _ & H). injection H as <-.
  rewrite (with_key_decisions_other _ _ _ H2). apply dict_get_set_ne, H1.
Qed.

Lemma identify_again (context : MeetingContext) (s s' : dict) :
  _identify_key_decisions s context = Ok s' →
  _identify_key_decisions s' context = Ok s'.
Proof.
  intros H. rewrite identify_unfold in *.
  destruct (dict_get (u "decisions") s) as [v |] eqn:Hk.
  - apply bind_ok in H as ([v' keys] & Htag & H). injection H as <-.
    assert (u "decisions" ≠ u "key_decisions") as Hne by keys_differ.
    rewrite (with_key_decisions_other _ _ _ Hne), dict_get_set_eq.
    rewrite (tag_value_settles _ _ _ _ Htag), bind_Ok.
    unfold mret, res_ret. f_equal.
    rewrite (dict_set_same (u "decisions") v');
      [| rewrite (with_key_decisions_other _ _ _ Hne); apply dict_get_set_eq].
    destruct keys as [|x keys]; [reflexivity |].
    cbn [with_key_decisions]. apply dict_set_set.
  - injection H as <-. rewrite Hk. reflexivity.
Qed.

(** *** The whole of post-processing *)

(** The four steps a run that returns went through. *)
Lemma post_process_inv (summary s' : pyval) (context : MeetingContext) :
  post_process_summary summary context = Ok s' →
  ∃ d d3 d4 d5,
    summary = PDict d ∧ s' = PDict d5 ∧
    _adjust_priority_by_meeting_type
      (set_str (u "meeting_type") (meeting_type context)
         (set_str (u "industry") (industry context) d)) context = Ok d3 ∧
    _add_time_sensitivity d3 = Ok d4 ∧
    _identify_key_decisions d4 context = Ok d5.
Proof.
  intros H. destruct summary as [ | | | | | d]; try discriminate H.
  cbn [post_process_summary] in H.
  apply bind_ok in H as (d3 & Hadj & H).
  apply bind_ok in H as (d4 & Htime & H).
  apply bind_ok in H as (d5 & Hid & H).
  injection H as <-. exists d, d3, d4, d5. auto.
Qed.

Lemma stamped_other (context : MeetingContext) (d : dict) (k : str) :
  k ≠ u "industry" → k ≠ u "meeting_type" →
  dict_get k (set_str (u "meeting_type") (meeting_type context)
                (set_str (u "industry") (industry context) d))
    = dict_get k d.
Proof.
  intros H1 H2. unfold set_str. rewrite !dict_get_set_ne by assumption.
  reflexivity.
Qed.

Ltac key_facts :=
  assert (u "industry" ≠ u "meeting_type") as Kim by keys_differ;
  assert (u "industry" ≠ u "key_points") as Kip by keys_differ;
  assert (u "industry" ≠ u "action_items") as Kia by keys_differ;
  assert (u "industry" ≠ u "decisions") as Kid by keys_differ;
  assert (u "industry" ≠ u "key_decisions") as Kik by keys_differ;
  assert (u "meeting_type" ≠ u "key_points") as Kmp by keys_differ;
  assert (u "meeting_type" ≠ u "action_items") as Kma by keys_differ;
  assert (u "meeting_type" ≠ u "decisions") as Kmd by keys_differ;
  assert (u "meeting_type" ≠ u "key_decisions") as Kmk by keys_differ;
  assert (u "key_points" ≠ u "industry") as Kpi by keys_differ;
  assert (u "key_points" ≠ u "meeting_type") as Kpm by keys_differ;
  assert (u "key_points" ≠ u "action_items") as Kpa by keys_differ;
  assert (u "key_points" ≠ u "decisions") as Kpd by keys_differ;
  assert (u "key_points" ≠ u "key_decisions") as Kpk by keys_differ;
  assert (u "action_items" ≠ u "industry") as Kai by keys_differ;
  assert (u "action_items" ≠ u "meeting_type") as Kam by keys_differ;
  assert (u "action_items" ≠ u "key_points") as Kap by keys_differ;
  assert (u "action_items" ≠ u "decisions") as Kad by keys_differ;
  assert (u "action_items" ≠ u "key_decisions") as Kak by keys_differ;
  assert (u "decisions" ≠ u "industry") as Kdi by keys_differ;
  assert (u "decisions" ≠ u "meeting_type") as Kdm by keys_differ;
  assert (u "decisions" ≠ u "key_points") as Kdp by keys_differ;
  assert (u "decisions" ≠ u "action_items") as Kda by keys_differ;
  assert (u "decisions" ≠ u "key_decisions") as Kdk by keys_differ.

(** X7: post-processing is idempotent: run again, with the same
    context, on a summary it has returned, it returns that summary
    unchanged. *)
Theorem post_process_idempotent (summary s' : pyval) (context : MeetingContext) :
  post_process_summary summary context = Ok s' →
  post_process_summary s' context = Ok s'.
Proof.
  intros H.
  destruct (post_process_inv _ _ _ H) as
    (d & d3 & d4 & d5 & -> & -> & Hadj & Htime & Hid).
  key_facts. unfold _adjust_priority_by_meeting_type, _add_time_sensitivity in *.
  assert (dict_get (u "industry") d5 = Some (PStr (industry context))) as Hi.
  { rewrite (identify_other _ _ _ _ Kid Kik Hid).
    rewrite (for_each_item_other _ _ _ _ _ Kia Htime).
    rewrite (for_each_item_other _ _ _ _ _ Kip Hadj).
    unfold set_str. rewrite (dict_get_set_ne _ _ _ _ Kim).
    apply dict_get_set_eq. }
  assert (dict_get (u "meeting_type") d5 = Some (PStr (meeting_type context)))
    as Hm.
  { rewrite (identify_other _ _ _ _ Kmd Kmk Hid).
    rewrite (for_each_item_other _ _ _ _ _ Kma Htime).
    rewrite (for_each_item_other _ _ _ _ _ Kmp Hadj).
    apply dict_get_set_eq. }
  cbn [post_process_summary]. unfold set_str at 2.
  rewrite (dict_set_same _ _ _ Hi). unfold set_str at 1.
  rewrite (dict_set_same _ _ _ Hm).
  unfold _adjust_priority_by_meeting_type, _add_time_sensitivity.
  rewrite (for_each_item_again _ _ _ d3 d5 (adjust_point_settles context) Hadj).
  - rewrite bind_Ok.
    rewrite (for_each_item_again _ _ _ d4 d5 time_sensitive_settles Htime).
    + rewrite bind_Ok, (identify_again _ _ _ Hid). reflexivity.
    + apply (identify_other _ _ _ _ Kad Kak Hid).
  - rewrite (identify_other _ _ _ _ Kpd Kpk Hid).
    apply (for_each_item_other _ _ _ _ _ Kpa Htime).
Qed.

(** *** What the passes leave alone *)

Lemma steps_same_except (tag : str) (body : dict → res dict)
    (l l' : list pyval) :
  (∀ d d', body d = Ok d' → ∀ k, k ≠ tag → dict_get k d' = dict_get k d) →
  Forall2 (steps body) l l' → Forall2 (same_except tag) l l'.
Proof.
  intros Hb. induction 1 as [|x x' l l' (d & d' & -> & -> & H) _ IH];
    constructor; [| exact IH].
  eexists _, _. split; [reflexivity |]. split; [reflexivity |].
  exact (Hb _ _ H).
Qed.

Lemma adjust_point_frame (context : MeetingContext) (d d' : dict) :
  adjust_point context d = Ok d' →
  ∀ k, k ≠ u "importance" → dict_get k d' = dict_get k d.
Proof.
  intros H k Hk. destruct (adjust_point_result _ _ _ H) as [-> | ->];
    [reflexivity | apply dict_get_set_ne, Hk].
Qed.

Lemma time_sensitive_frame (d d' : dict) :
  mret (time_sensitive d) = Ok d' →
  ∀ k, k ≠ u "priority" → dict_get k d' = dict_get k d.
Proof.
  intros H k Hk. injection H as <-.
  destruct (time_sensitive_result d) as [-> | [p ->]];
    [reflexivity | apply dict_get_set_ne, Hk].
Qed.

(** A loop over a list leaves a list of the same length whose items
    differ from the old ones in the tag at most. *)
Lemma for_each_item_list (key tag : str) (body : dict → res dict)
    (s s' : dict) (l : list pyval) :
  (∀ d d', body d = Ok d' → ∀ k, k ≠ tag → dict_get k d' = dict_get k d) →
  for_each_item key body s = Ok s' →
  dict_get key s = Some (PList l) →
  ∃ l', dict_get key s' = Some (PList l') ∧ Forall2 (same_except tag) l l'.
Proof.
  intros Hb H Hk. rewrite for_each_item_loop, Hk in H.
  apply bind_ok in H as (v' & Hloop & H). injection H as <-.
  destruct (loop_items_inv _ _ _ Hloop) as
    [(l0 & l' & [= <-] & -> & Hl) | (_ & [[=] | [=]])].
  exists l'. split; [apply dict_get_set_eq |].
  exact (steps_same_except _ _ _ _ Hb Hl).
Qed.

Lemma identify_list (context : MeetingContext) (s s' : dict) (l : list pyval) :
  _identify_key_decisions s context = Ok s' →
  dict_get (u "decisions") s = Some (PList l) →
  ∃ l', dict_get (u "decisions") s' = Some (PList l') ∧
        Forall2 (same_except (u "urgency")) l l'.
Proof.
  intros H Hk. rewrite identify_unfold, Hk in H.
  apply bind_ok in H as ([v' keys] & Htag & H). injection H as <-.
  destruct (tag_value_inv _ _ _ _ Htag) as
    [(l0 & l' & [= <-] & -> & Hl) | (_ & _ & [[=] | [=]])].
  exists l'. split.
  - rewrite with_key_decisions_other by keys_differ. apply dict_get_set_eq.
  - exact (tag_decisions_length _ _ _ _ Hl).
Qed.

(** X8: what post-processing does not touch.  Every top-level entry
    other than [industry], [meeting_type], [key_points], [action_items],
    [decisions] and [key_decisions] is returned as it came; and a list of
    key points, action items or decisions keeps its length and its
    order, each item differing from the old one at most in [importance],
    [priority] or [urgency] respectively. *)
Theorem post_process_frame (d d' : dict) (context : MeetingContext) :
  post_process_summary (PDict d) context = Ok (PDict d') →
  (∀ k, ¬ In k written_keys → dict_get k d' = dict_get k d) ∧
  (∀ l, dict_get (u "key_points") d = Some (PList l) →
     ∃ l', dict_get (u "key_points") d' = Some (PList l') ∧
           Forall2 (same_except (u "importance")) l l') ∧
  (∀ l, dict_get (u "action_items") d = Some (PList l) →
     ∃ l', dict_get (u "action_items") d' = Some (PList l') ∧
           Forall2 (same_except (u "priority")) l l') ∧
  (∀ l, dict_get (u "decisions") d = Some (PList l) →
     ∃ l', dict_get (u "decisions") d' = Some (PList l') ∧
           Forall2 (same_except (u "urgency")) l l').
Proof.
  intros H.
  destruct (post_process_inv _ _ _ H) as
    (d0 & d3 & d4 & d5 & [= <-] & [= <-] & Hadj & Htime & Hid).
  key_facts. unfold _adjust_priority_by_meeting_type, _add_time_sensitivity in *.
  split; [| split; [| split]].
  - intros k Hk.
    assert (k ≠ u "industry" ∧ k ≠ u "meeting_type" ∧ k ≠ u "key_points" ∧
            k ≠ u "action_items" ∧ k ≠ u "decisions" ∧ k ≠ u "key_decisions")
      as (N1 & N2 & N3 & N4 & N5 & N6).
    { repeat apply conj; intros ->; apply Hk; unfold written_keys; cbn [map In];
        tauto. }
    rewrite (identify_other _ _ _ _ N5 N6 Hid).
    rewrite (for_each_item_other _ _ _ _ _ N4 Htime).
    rewrite (for_each_item_other _ _ _ _ _ N3 Hadj).
    apply stamped_other; assumption.
  - intros l Hl.
    rewrite <- (stamped_other context d _ Kpi Kpm) in Hl.
    destruct (for_each_item_list _ _ _ _ _ _ (adjust_point_frame context) Hadj Hl)
      as (l' & Hl' & Hrel).
    exists l'. split; [| exact Hrel].
    rewrite (identify_other _ _ _ _ Kpd Kpk Hid).
    rewrite (for_each_item_other _ _ _ _ _ Kpa Htime). exact Hl'.
  - intros l Hl.
    rewrite <- (stamped_other context d _ Kai Kam) in Hl.
    rewrite <- (for_each_item_other _ _ _ _ _ Kap Hadj) in Hl.
    destruct (for_each_item_list _ _ _ _ _ _ time_sensitive_frame Htime Hl)
      as (l' & Hl' & Hrel).
    exists l'. split; [| exact Hrel].
    rewrite (identify_other _ _ _ _ Kad Kak Hid). exact Hl'.
  - intros l Hl.
    rewrite <- (stamped_other context d _ Kdi Kdm) in Hl.
    rewrite <- (for_each_item_other _ _ _ _ _ Kdp Hadj) in Hl.
    rewrite <- (for_each_item_other _ _ _ _ _ Kda Htime) in Hl.
    exact (identify_list _ _ _ _ Hid Hl).
Qed.

(** *** Summaries that go through, and summaries that do not *)

Lemma steps_exist (body : dict → res dict) (elem : pyval → bool)
    (l : list pyval) :
  (∀ x, elem x = true → ∃ d d', x = PDict d ∧ body d = Ok d') →
  forallb elem l = true → ∃ l', Forall2 (steps body) l l'.
Proof.
  intros Hb. induction l as [|x l IH]; intros H.
  - exists []. constructor.
  - cbn [forallb] in H. apply andb_true_iff in H as [Hx Hl].
    destruct (IH Hl) as [l' Hl']. destruct (Hb x Hx) as (d & d' & -> & Hd).
    exists (PDict d' :: l'). constructor; [| exact Hl'].
    eexists _, _. eauto.
Qed.

Lemma for_each_item_runs (key : str) (body : dict → res dict)
    (elem : pyval → bool) (s : dict) :
  (∀ x, elem x = true → ∃ d d', x = PDict d ∧ body d = Ok d') →
  collection_of key elem s = true →
  ∃ s', for_each_item key body s = Ok s'.
Proof.
  intros Hb H. rewrite for_each_item_loop. unfold collection_of in H.
  destruct (dict_get key s) as [v |]; [| eauto].
  destruct v as [ | | | | l | ]; try discriminate H.
  destruct (steps_exist _ _ _ Hb H) as [l' Hl'].
  rewrite (loop_items_list _ _ _ Hl'), bind_Ok. eauto.
Qed.

Lemma collection_of_same (key : str) (elem : pyval → bool) (s s' : dict) :
  dict_get key s' = dict_get key s →
  collection_of key elem s' = collection_of key elem s.
Proof. intros H. unfold collection_of. rewrite H. reflexivity. Qed.

Lemma adjust_point_runs (context : MeetingContext) (x : pyval) :
  has_scannable_content x = true →
  ∃ d d', x = PDict d ∧ adjust_point context d = Ok d'.
Proof.
  intros H. destruct x as [ | | | | | d]; try discriminate H.
  cbn [has_scannable_content] in H. exists d. unfold adjust_point.
  destruct (str_eqb (meeting_type context) (u "project_review")).
  - destruct (any_in_scannable (map u ["风险"; "延期"; "阻塞"]%string) _ H)
      as [b ->]. rewrite bind_Ok. eauto.
  - destruct (str_eqb (meeting_type context) (u "strategic_planning")).
    + destruct (any_in_scannable (map u ["投资"; "战略"; "方向"]%string) _ H)
        as [b ->]. rewrite bind_Ok. eauto.
    + eauto.
Qed.

Lemma time_sensitive_runs (x : pyval) :
  is_dict x = true →
  ∃ d d', x = PDict d ∧ mret (time_sensitive d) = Ok d'.
Proof.
  intros H. destruct x as [ | | | | | d]; try discriminate H. eauto.
Qed.

Lemma tag_decision_runs (context : MeetingContext) (d : dict) :
  scannable (dict_get_default (u "content") (PStr []) d) = true →
  ∃ d' key, tag_decision context d = Ok (d', key).
Proof.
  intros H. unfold tag_decision, importance_score.
  destruct (any_in_scannable high_impact_words _ H) as [b Hb].
  destruct (meeting_templates !! meeting_type context) as [t |].
  - destruct (any_in_scannable (decision_patterns t) _ H) as [c Hc].
    rewrite Hc, Hb. unfold mbind, res_bind, mret, res_ret.
    destruct (2 <=? _)%nat; [| destruct (1 <=? _)%nat]; eauto.
  - rewrite Hb. unfold mbind, res_bind, mret, res_ret.
    destruct (2 <=? _)%nat; [| destruct (1 <=? _)%nat]; eauto.
Qed.

Lemma tag_decisions_runs (context : MeetingContext) (l : list pyval) :
  forallb has_scannable_content l = true →
  ∃ l' keys, tag_decisions context l = Ok (l', keys).
Proof.
  induction l as [|x l IH]; intros H; [eexists _, _; reflexivity |].
  cbn [forallb] in H. apply andb_true_iff in H as [Hx Hl].
  destruct (IH Hl) as (l' & keys & Hl').
  destruct x as [ | | | | | d]; try discriminate Hx.
  destruct (tag_decision_runs context d Hx) as (d' & key & Hd).
  cbn [tag_decisions on_dict]. rewrite Hd, bind_Ok, Hl', bind_Ok. eauto.
Qed.

Lemma identify_runs (context : MeetingContext) (s : dict) :
  collection_of (u "decisions") has_scannable_content s = true →
  ∃ s', _identify_key_decisions s context = Ok s'.
Proof.
  intros H. rewrite identify_unfold. unfold collection_of in H.
  destruct (dict_get (u "decisions") s) as [v |]; [| eauto].
  destruct v as [ | | | | l | ]; try discriminate H.
  destruct (tag_decisions_runs context l H) as (l' & keys & Hl).
  rewrite (tag_value_list _ _ _ _ Hl), bind_Ok. eauto.
Qed.

Lemma processable_runs (d : dict) (context : MeetingContext) :
  processable d = true →
  ∃ d', post_process_summary (PDict d) context = Ok (PDict d').
Proof.
  unfold processable. rewrite !andb_true_iff. intros [[Hp Ha] Hd].
  key_facts. cbn [post_process_summary].
  unfold _adjust_priority_by_meeting_type, _add_time_sensitivity.
  destruct (for_each_item_runs (u "key_points") (adjust_point context)
              has_scannable_content
              (set_str (u "meeting_type") (meeting_type context)
                 (set_str (u "industry") (industry context) d))
              (adjust_point_runs context)) as [d3 Hadj].
  { rewrite (collection_of_same _ _ d); [exact Hp |].
    apply stamped_other; assumption. }
  rewrite Hadj, bind_Ok.
  destruct (for_each_item_runs (u "action_items")
              (fun a => mret (time_sensitive a)) is_dict d3 time_sensitive_runs)
    as [d4 Htime].
  { rewrite (collection_of_same _ _ d); [exact Ha |].
    rewrite (for_each_item_other _ _ _ _ _ Kap Hadj).
    apply stamped_other; assumption. }
  rewrite Htime, bind_Ok.
  destruct (identify_runs context d4) as [d5 Hid].
  { rewrite (collection_of_same _ _ d); [exact Hd |].
    rewrite (for_each_item_other _ _ _ _ _ Kda Htime).
    rewrite (for_each_item_other _ _ _ _ _ Kdp Hadj).
    apply stamped_other; assumption. }
  rewrite Hid, bind_Ok. eauto.
Qed.

(** X9: post-processing returns, whatever the context, on every
    summary dict in which [key_points], [action_items] and [decisions]
    are each either missing or a list of dicts, with the [content] of
    every key point and decision a string, a list or a dict (or
    missing).  No other entry of the summary matters. *)
Theorem processable_summary_goes_through (d : dict) (context : MeetingContext) :
  processable d = true →
  ∃ d', post_process_summary (PDict d) context = Ok (PDict d').
Proof. apply processable_runs. Qed.

(** What a run that returns must have found under a key it loops over. *)
Lemma post_process_iterates (d : dict) (s' : pyval) (context : MeetingContext)
    (key : str) (v : pyval) :
  In key (map u ["key_points"; "action_items"; "decisions"]%string) →
  dict_get key d = Some v →
  post_process_summary (PDict d) context = Ok s' →
  ∃ items, py_iter v = Ok items.
Proof.
  intros Hkey Hv H.
  destruct (post_process_inv _ _ _ H) as
    (d0 & d3 & d4 & d5 & [= <-] & -> & Hadj & Htime & Hid).
  key_facts. unfold _adjust_priority_by_meeting_type, _add_time_sensitivity in *.
  cbn [map In] in Hkey. destruct Hkey as [<- | [<- | [<- | []]]].
  - rewrite <- (stamped_other context d _ Kpi Kpm) in Hv.
    rewrite for_each_item_loop, Hv in Hadj.
    apply bind_ok in Hadj as (v' & Hloop & _).
    unfold loop_items in Hloop. apply bind_ok in Hloop as (items & Hi & _).
    eauto.
  - rewrite <- (stamped_other context d _ Kai Kam) in Hv.
    rewrite <- (for_each_item_other _ _ _ _ _ Kap Hadj) in Hv.
    rewrite for_each_item_loop, Hv in Htime.
    apply bind_ok in Htime as (v' & Hloop & _).
    unfold loop_items in Hloop. apply bind_ok in Hloop as (items & Hi & _).
    eauto.
  - rewrite <- (stamped_other context d _ Kdi Kdm) in Hv.
    rewrite <- (for_each_item_other _ _ _ _ _ Kdp Hadj) in Hv.
    rewrite <- (for_each_item_other _ _ _ _ _ Kda Htime) in Hv.
    rewrite identify_unfold, Hv in Hid.
    apply bind_ok in Hid as ([v' keys] & Htag & _).
    unfold tag_value in Htag. apply bind_ok in Htag as (items & Hi & _).
    eauto.
Qed.

(** X10: a key that is present but holds [null] (or a number, or a
    bool) is not treated like a missing key: when [key_points],
    [action_items] or [decisions] holds such a value, post-processing
    raises, and for [key_points] the error is a [TypeError]. *)
Theorem null_collection_raises (d : dict) (context : MeetingContext)
    (key : str) (v : pyval) :
  In key (map u ["key_points"; "action_items"; "decisions"]%string) →
  dict_get key d = Some v →
  scannable v = false →
  (∃ e, post_process_summary (PDict d) context = Raise e) ∧
  (key = u "key_points" →
   post_process_summary (PDict d) context = Raise TypeError).
Proof.
  intros Hkey Hv Hs. split.
  - destruct (post_process_summary (PDict d) context) as [s' | e] eqn:H;
      [| eauto].
    destruct (post_process_iterates _ _ _ _ _ Hkey Hv H) as [items Hi].
    destruct v; discriminate.
  - intros ->. key_facts. cbn [post_process_summary].
    unfold _adjust_priority_by_meeting_type.
    rewrite for_each_item_loop, (stamped_other context d _ Kpi Kpm), Hv.
    destruct v; try discriminate Hs; reflexivity.
Qed.

(** X11: under a meeting type other than project_review and
    strategic_planning the pass over the key points changes nothing: if
    it returns, it returns the summary it was given. *)
Theorem other_types_leave_key_points (s s' : dict) (context : MeetingContext) :
  meeting_type context ≠ u "project_review" →
  meeting_type context ≠ u "strategic_planning" →
  _adjust_priority_by_meeting_type s context = Ok s' →
  s' = s.
Proof.
  intros H1 H2 H. apply str_eqb_neq in H1, H2.
  assert (∀ l l', Forall2 (steps (adjust_point context)) l l' → l' = l) as Hid.
  { induction 1 as [|x x' l l' (d & d' & -> & -> & Hb) _ IH]; [reflexivity |].
    unfold adjust_point in Hb. rewrite H1, H2 in Hb. injection Hb as <-.
    rewrite IH. reflexivity. }
  unfold _adjust_priority_by_meeting_type in H. rewrite for_each_item_loop in H.
  destruct (dict_get (u "key_points") s) as [v |] eqn:Hk;
    [| injection H as <-; reflexivity].
  apply bind_ok in H as (v' & Hloop & H). injection H as <-.
  apply dict_set_same. rewrite Hk. f_equal.
  destruct (loop_items_inv _ _ _ Hloop) as
    [(l & l' & -> & -> & Hl) | (-> & _)]; [| reflexivity].
  rewrite (Hid _ _ Hl). reflexivity.
Qed.

(** *** Degradation templates through post-processing *)

Lemma template_form (f : family) (transcript : str) :
  degradation_template f transcript =
    PDict [ (u "title", PStr (title_marker f));
            (u "overview",
              PStr (overview_text f
                      (length (take (line_limit f) (split_lines transcript)))));
            (u "key_points",
              PList (imap (key_point (topic_label f))
                       (take (line_limit f) (split_lines transcript))));
            (u "decisions", PList []);
            (u "action_items", PList []);
            (u "risks", PList []);
            (u "opportunities", PList []) ].
Proof.
  destruct f;
    cbv [degradation_template _create_fallback_summary
           _create_local_fallback_summary _create_baidu_fallback_summary
           title_marker overview_text topic_label line_limit];
    exact eq_refl.
Qed.

Lemma imap_scannable (g : nat → str → pyval) (lines : list str) :
  (∀ i l, has_scannable_content (g i l) = true) →
  forallb has_scannable_content (imap g lines) = true.
Proof.
  revert g; induction lines as [|l lines IH]; intros g Hg; [reflexivity |].
  cbn [imap forallb]. rewrite Hg. apply IH. intros i x; apply Hg.
Qed.

Lemma key_point_scannable (label : str) (i : nat) (line : str) :
  has_scannable_content (key_point label i line) = true.
Proof. reflexivity. Qed.

(** X12: post-processing never fails on a degradation template,
    whichever family made it and whatever the transcript and context: it
    returns the template stamped with industry and meeting type, with as
    many key points as before, the same title, still no decisions and
    action items, and no [key_decisions]. *)
Theorem template_post_processes (f : family) (transcript : str)
    (context : MeetingContext) :
  ∃ d',
    post_process_summary (degradation_template f transcript) context
      = Ok (PDict d') ∧
    dict_get (u "industry") d' = Some (PStr (industry context)) ∧
    dict_get (u "meeting_type") d' = Some (PStr (meeting_type context)) ∧
    dict_get (u "title") d' = Some (PStr (title_marker f)) ∧
    dict_get (u "decisions") d' = Some (PList []) ∧
    dict_get (u "action_items") d' = Some (PList []) ∧
    dict_get (u "key_decisions") d' = None ∧
    ∃ points,
      dict_get (u "key_points") d' = Some (PList points) ∧
      length points = length (take (line_limit f) (split_lines transcript)).
Proof.
  rewrite template_form.
  set (lines := take (line_limit f) (split_lines transcript)).
  set (d := [ (u "title", PStr (title_marker f));
              (u "overview", PStr (overview_text f (length lines)));
              (u "key_points", PList (imap (key_point (topic_label f)) lines));
              (u "decisions", PList []);
              (u "action_items", PList []);
              (u "risks", PList []);
              (u "opportunities", PList []) ]).
  assert (dict_get (u "title") d = Some (PStr (title_marker f))) as Dt
    by (unfold d; dict_lookup; reflexivity).
  assert (dict_get (u "key_points") d =
            Some (PList (imap (key_point (topic_label f)) lines))) as Dp
    by (unfold d; dict_lookup; reflexivity).
  assert (dict_get (u "decisions") d = Some (PList [])) as Dd
    by (unfold d; dict_lookup; reflexivity).
  assert (dict_get (u "action_items") d = Some (PList [])) as Da
    by (unfold d; dict_lookup; reflexivity).
  assert (dict_get (u "key_decisions") d = None) as Dk.
  { unfold d. repeat (rewrite dict_get_skip by (vm_compute; reflexivity)).
    reflexivity. }
  assert (processable d = true) as Hproc.
  { unfold processable, collection_of. rewrite Dp, Dd, Da.
    rewrite (imap_scannable _ _ (key_point_scannable (topic_label f))).
    reflexivity. }
  destruct (processable_runs d context Hproc) as [d' Hrun].
  exists d'. split; [exact Hrun |].
  destruct (post_process_inv _ _ _ Hrun) as
    (d0 & d3 & d4 & d5 & [= <-] & [= <-] & Hadj & Htime & Hid).
  key_facts. unfold _adjust_priority_by_meeting_type, _add_time_sensitivity in *.
  assert (u "title" ≠ u "industry") as T1 by keys_differ.
  assert (u "title" ≠ u "meeting_type") as T2 by keys_differ.
  assert (u "title" ≠ u "key_points") as T3 by keys_differ.
  assert (u "title" ≠ u "action_items") as T4 by keys_differ.
  assert (u "title" ≠ u "decisions") as T5 by keys_differ.
  assert (u "title" ≠ u "key_decisions") as T6 by keys_differ.
  assert (u "key_decisions" ≠ u "industry") as Q1 by keys_differ.
  assert (u "key_decisions" ≠ u "meeting_type") as Q2 by keys_differ.
  assert (u "key_decisions" ≠ u "key_points") as Q3 by keys_differ.
  assert (u "key_decisions" ≠ u "action_items") as Q4 by keys_differ.
  assert (u "key_decisions" ≠ u "decisions") as Q5 by keys_differ.
  assert (dict_get (u "decisions") d4 = Some (PList [])) as Dd4.
  { rewrite (for_each_item_other _ _ _ _ _ Kda Htime).
    rewrite (for_each_item_other _ _ _ _ _ Kdp Hadj).
    rewrite (stamped_other context d _ Kdi Kdm). exact Dd. }
  assert (d' = dict_set (u "decisions") (PList []) d4) as Ed.
  { rewrite identify_unfold, Dd4 in Hid. injection Hid as <-. reflexivity. }
  repeat apply conj.
  - rewrite (identify_other _ _ _ _ Kid Kik Hid).
    rewrite (for_each_item_other _ _ _ _ _ Kia Htime).
    rewrite (for_each_item_other _ _ _ _ _ Kip Hadj).
    unfold set_str. rewrite (dict_get_set_ne _ _ _ _ Kim).
    apply dict_get_set_eq.
  - rewrite (identify_other _ _ _ _ Kmd Kmk Hid).
    rewrite (for_each_item_other _ _ _ _ _ Kma Htime).
    rewrite (for_each_item_other _ _ _ _ _ Kmp Hadj).
    apply dict_get_set_eq.
  - rewrite (identify_other _ _ _ _ T5 T6 Hid).
    rewrite (for_each_item_other _ _ _ _ _ T4 Htime).
    rewrite (for_each_item_other _ _ _ _ _ T3 Hadj).
    rewrite (stamped_other context d _ T1 T2). exact Dt.
  - rewrite Ed. apply dict_get_set_eq.
  - rewrite (identify_other _ _ _ _ Kad Kak Hid).
    assert (dict_get (u "action_items") d3 = Some (PList [])) as Da3.
    { rewrite (for_each_item_other _ _ _ _ _ Kap Hadj).
      rewrite (stamped_other context d _ Kai Kam). exact Da. }
    destruct (for_each_item_list _ _ _ _ _ _ time_sensitive_frame Htime Da3)
      as (l' & Hl' & Hrel).
    inversion Hrel; subst. exact Hl'.
  - rewrite Ed, (dict_get_set_ne _ _ _ _ Q5).
    rewrite (for_each_item_other _ _ _ _ _ Q4 Htime).
    rewrite (for_each_item_other _ _ _ _ _ Q3 Hadj).
    rewrite (stamped_other context d _ Q1 Q2). exact Dk.
  - assert (dict_get (u "key_points")
              (set_str (u "meeting_type") (meeting_type context)
                 (set_str (u "industry") (industry context) d))
            = Some (PList (imap (key_point (topic_label f)) lines))) as Dp2
      by (rewrite (stamped_other context d _ Kpi Kpm); exact Dp).
    destruct (for_each_item_list _ _ _ _ _ _ (adjust_point_frame context)
                Hadj Dp2) as (l' & Hl' & Hrel).
    exists l'. split.
    + rewrite (identify_other _ _ _ _ Kpd Kpk Hid).
      rewrite (for_each_item_other _ _ _ _ _ Kpa Htime). exact Hl'.
    + rewrite <- (Forall2_length _ _ _ Hrel). apply length_imap.
Qed.

(** *** Sample runs *)

Lemma sample_reply_processed :
  post_process_summary (PDict sample_reply) (context_of (u "project_review")) =
  Ok (PDict
        [ (u "title", PStr (u "周会"));
          (u "key_points",
            PList [PDict [ (u "content", PStr (u "项目延期的风险"));
                           (u "importance", PStr (u "high")) ]]);
          (u "decisions",
            PList [PDict [ (u "content", PStr (u "同意调整排期"));
                           (u "urgency", PStr (u "high")) ]]);
          (u "action_items",
            PList [PDict [ (u "task", PStr (u "更新计划"));
                           (u "deadline", PStr (u "明天"));
                           (u "priority", PStr (u "high")) ]]);
          (u "industry", PStr (u "general"));
          (u "meeting_type", PStr (u "project_review"));
          (u "key_decisions",
            PList [PDict [ (u "content", PStr (u "同意调整排期"));
                           (u "urgency", PStr (u "high")) ]]) ]).
Proof. vm_compute. reflexivity. Defined.

Lemma post_process_idempotent_witness :
  ∃ s',
    post_process_summary (PDict sample_reply) (context_of (u "project_review"))
      = Ok s' ∧
    post_process_summary s' (context_of (u "project_review")) = Ok s'.
Proof.
  eexists. split; [exact sample_reply_processed |].
  exact (post_process_idempotent _ _ _ sample_reply_processed).
Defined.

Lemma post_process_frame_witness :
  ∃ d',
    post_process_summary (PDict sample_reply) (context_of (u "project_review"))
      = Ok (PDict d') ∧
    dict_get (u "title") d' = dict_get (u "title") sample_reply.
Proof.
  eexists. split; [exact sample_reply_processed |].
  apply (proj1 (post_process_frame _ _ _ sample_reply_processed)).
  vm_compute. intros H. repeat destruct H as [H | H]; try discriminate H.
  exact H.
Defined.

Lemma processable_summary_goes_through_witness :
  processable sample_reply = true ∧
  ∃ d', post_process_summary (PDict sample_reply) (context_of (u "weekly_meeting"))
          = Ok (PDict d').
Proof.
  assert (processable sample_reply = true) as H by (vm_compute; reflexivity).
  split; [exact H |].
  exact (processable_summary_goes_through sample_reply
           (context_of (u "weekly_meeting")) H).
Defined.

(** A reply whose [decisions] is [null]. *)
Lemma null_collection_raises_witness :
  ∃ e,
    post_process_summary
      (PDict [(u "title", PStr (u "周会")); (u "decisions", PNone)])
      (context_of (u "general_meeting")) = Raise e.
Proof.
  refine (proj1 (null_collection_raises
                   [(u "title", PStr (u "周会")); (u "decisions", PNone)]
                   (context_of (u "general_meeting")) (u "decisions") PNone
                   _ _ _)).
  - vm_compute. tauto.
  - vm_compute. reflexivity.
  - reflexivity.
Defined.

Lemma other_types_leave_key_points_witness :
  _adjust_priority_by_meeting_type sample_reply (context_of (u "weekly_meeting"))
    = Ok sample_reply.
Proof.
  assert (∃ s', _adjust_priority_by_meeting_type sample_reply
                  (context_of (u "weekly_meeting")) = Ok s') as [s' H]
    by (eexists; vm_compute; reflexivity).
  rewrite H. f_equal.
  apply (other_types_leave_key_points sample_reply s'
           (context_of (u "weekly_meeting"))); [keys_differ | keys_differ | exact H].
Defined.

End PostProcessMore.

(** ** More on industry detection and keywords *)

Module ClassificationMore.
Import ContextOptimizer Samples.

Section Lowering.

Context (lower_at : str → N → str → str).

(** Chinese characters are their own lower case; any other character is
    replaced by at least one character, none of them Chinese; and no
    capital Latin letter is left in a lowered text. *)
Hypothesis lower_han : ∀ before c after,
  han c = true → lower_at before c after = [c].
Hypothesis lower_other : ∀ before c after,
  han c = false →
  lower_at before c after ≠ [] ∧
  ∀ x, In x (lower_at before c after) → han x = false.
Hypothesis lower_no_capital : ∀ before c after x,
  In x (lower_at before c after) → x < 65 ∨ 90 < x.

Lemma lower_go_no_capital (pre s : str) (x : N) :
  In x (lower_go lower_at pre s) → x < 65 ∨ 90 < x.
Proof.
  revert pre; induction s as [|c s IH]; intros pre H; [destruct H |].
  cbn [lower_go] in H. apply in_app_or in H as [H | H].
  - exact (lower_no_capital _ _ _ _ H).
  - exact (IH _ H).
Qed.

(** A keyword with a capital Latin letter is never found in a lowered
    text. *)
Lemma capital_keyword_dead (kw s : str) (c : N) :
  In c kw → 65 ≤ c ≤ 90 → contains kw (lower lower_at s) = false.
Proof.
  intros Hin Hc. destruct (contains kw (lower lower_at s)) eqn:E; [| reflexivity].
  apply contains_spec in E as (x & y & E).
  assert (In c (lower_go lower_at [] s)) as H.
  { unfold lower in E. rewrite E. apply in_or_app. right.
    apply in_or_app. left. exact Hin. }
  apply lower_go_no_capital in H. lia.
Qed.

Lemma any_contains_app (l1 l2 : list str) (s : str) :
  any_contains (l1 ++ l2) s = any_contains l1 s || any_contains l2 s.
Proof. unfold any_contains. apply existsb_app. Qed.

Lemma any_contains_cons (kw : str) (l : list str) (s : str) :
  any_contains (kw :: l) s = contains kw s || any_contains l s.
Proof. reflexivity. Qed.

(** A word list with one capitalised keyword in it behaves, on the
    lowered text, as the list without that keyword does on the text. *)
Lemma any_contains_lower_dead (l1 l2 : list str) (kw s : str) (c : N) :
  In c kw → 65 ≤ c ≤ 90 →
  Forall (fun kw => kw ≠ [] ∧ all_han kw) (l1 ++ l2) →
  any_contains (l1 ++ kw :: l2) (lower lower_at s) = any_contains (l1 ++ l2) s.
Proof.
  intros Hin Hc Hall. apply Forall_app in Hall as [H1 H2].
  rewrite !any_contains_app, any_contains_cons.
  rewrite (capital_keyword_dead kw s c Hin Hc).
  rewrite !(ClassificationFacts.any_contains_lower lower_at lower_han lower_other)
    by assumption.
  reflexivity.
Qed.

(** X13: the industry is decided by the Chinese keywords alone, tried
    in the order tech, finance, manufacturing, healthcare, with general
    when none occurs.  The keywords ROI and FDA of the finance and
    healthcare lists never match, since they are looked for in the
    lowered transcript: a transcript whose only keyword is ROI or FDA is
    general. *)
Theorem industry_priority_order (transcript : str) :
  _detect_industry lower_at transcript =
    (if any_contains tech_keywords transcript then u "tech"
     else if any_contains
               (map u ["投资"; "预算"; "成本"; "收益"; "风险"; "现金流"]%string)
               transcript
          then u "finance"
     else if any_contains manufacturing_keywords transcript
          then u "manufacturing"
     else if any_contains
               (map u ["临床"; "医疗"; "合规"; "安全性"; "有效性"]%string)
               transcript
          then u "healthcare"
     else u "general").
Proof.
  unfold _detect_industry.
  rewrite !(ClassificationFacts.any_contains_lower lower_at lower_han lower_other
              tech_keywords)
    by (apply ClassificationFacts.chinese_words; vm_compute; reflexivity).
  rewrite !(ClassificationFacts.any_contains_lower lower_at lower_han lower_other
              manufacturing_keywords)
    by (apply ClassificationFacts.chinese_words; vm_compute; reflexivity).
  assert (any_contains finance_keywords (lower lower_at transcript) =
          any_contains
            (map u ["投资"; "预算"; "成本"; "收益"; "风险"; "现金流"]%string)
            transcript) as ->.
  { apply (any_contains_lower_dead (map u ["投资"; "预算"]%string)
             (map u ["成本"; "收益"; "风险"; "现金流"]%string)
             (u "ROI") transcript 82).
    - vm_compute. tauto.
    - lia.
    - apply ClassificationFacts.chinese_words. vm_compute. reflexivity. }
  assert (any_contains healthcare_keywords (lower lower_at transcript) =
          any_contains
            (map u ["临床"; "医疗"; "合规"; "安全性"; "有效性"]%string)
            transcript) as ->.
  { apply (any_contains_lower_dead (map u ["临床"; "医疗"; "合规"]%string)
             (map u ["安全性"; "有效性"]%string)
             (u "FDA") transcript 70).
    - vm_compute. tauto.
    - lia.
    - apply ClassificationFacts.chinese_words. vm_compute. reflexivity. }
  reflexivity.
Qed.

End Lowering.

Lemma lower_ascii_no_capital (before : str) (c : N) (after : str) (x : N) :
  In x (lower_ascii before c after) → x < 65 ∨ 90 < x.
Proof.
  unfold lower_ascii. destruct ((65 <=? c) && (c <=? 90)) eqn:E.
  - intros [<- | []]. apply andb_true_iff in E as [E _].
    apply N.leb_le in E. lia.
  - intros [<- | []]. apply andb_false_iff in E as [E | E];
      apply N.leb_gt in E; lia.
Qed.

(** A transcript about the return on investment, in Latin letters. *)
Lemma industry_priority_order_witness :
  _detect_industry lower_ascii (u "ROI is 12%, FDA agreed") = u "general".
Proof.
  rewrite (industry_priority_order lower_ascii
             ClassificationFacts.lower_ascii_han
             ClassificationFacts.lower_ascii_other lower_ascii_no_capital).
  vm_compute. reflexivity.
Defined.

End ClassificationMore.

Module KeywordMore.
Import ContextOptimizer Samples KeywordFacts.

(** X14: no keyword is returned twice. *)
Theorem extract_keywords_distinct (isw : N → bool) (transcript industry : str) :
  NoDup (_extract_keywords isw transcript industry).
Proof.
  unfold _extract_keywords.
  pose proof (top_tokens_NoDup (findall_words isw [] transcript)) as Hnd.
  destruct (industry_keywords !! industry) as [terms |].
  - destruct (add_industry_words_spec transcript terms
                (map fst (take 20 (sorted_desc
                   (count_words (findall_words isw [] transcript))))))
      as (added & E & _ & H & _).
    eapply sublist_NoDup; [| apply sublist_take].
    rewrite E. exact (H Hnd).
  - eapply sublist_NoDup; [exact Hnd | apply sublist_take].
Qed.

(** X15: a term of the industry's vocabulary that occurs in the
    transcript is always among the keywords returned, unless it is itself
    a token longer than 2: the terms are put in front of the tokens, and
    no vocabulary has more than 8 of them. *)
Theorem industry_terms_surface (isw : N → bool)
    (transcript industry : str) (terms : list str) (k : str) :
  industry_keywords !! industry = Some terms →
  In k terms →
  contains k transcript = true →
  (length k ≤ 2)%nat ∨ ¬ In k (findall_words isw [] transcript) →
  In k (_extract_keywords isw transcript industry).
Proof.
  intros Hterms Hk Hc Hnot. unfold _extract_keywords. rewrite Hterms.
  set (kws := map fst (take 20 (sorted_desc
                (count_words (findall_words isw [] transcript))))).
  destruct (add_industry_words_spec transcript terms kws)
    as (added & -> & Hlen & _ & Hall).
  pose proof (industry_vocabulary_small _ _ Hterms) as Hsmall.
  rewrite firstn_app, (firstn_all2 added) by lia.
  apply in_or_app. left.
  destruct (in_app_or _ _ _ (Hall k Hk Hc)) as [H | H]; [exact H |].
  apply top_tokens_counted in H as [H1 H2].
  destruct Hnot as [Hnot | Hnot]; [lia | contradiction].
Qed.

(** 测试 has two characters, so it is no counted token; it is returned
    as a term of the tech vocabulary. *)
Lemma industry_terms_surface_witness :
  In (u "测试") (_extract_keywords isw_ascii_han (u "下周开始测试") (u "tech")).
Proof.
  apply (industry_terms_surface isw_ascii_han (u "下周开始测试") (u "tech")
           (map u ["敏捷开发"; "迭代"; "MVP"; "技术栈"; "架构"; "部署"; "测试"; "上线"]%string)).
  - vm_compute. reflexivity.
  - vm_compute. tauto.
  - vm_compute. reflexivity.
  - left. vm_compute. lia.
Defined.

End KeywordMore.

(** ** Subtitle lines and the basic summary *)

Module AgentFacts.
Import Adapter Agent Samples.

(** Lists written with [++] and [::], brought to one shape. *)
Ltac list_norm :=
  repeat first [rewrite <- app_assoc | progress cbn [app]].

Lemma contains_single (c : N) (s : str) : contains [c] s = true ↔ In c s.
Proof.
  rewrite contains_spec. split.
  - intros (x & y & ->). apply in_or_app. right. left. reflexivity.
  - intros H. apply in_split in H as (x & y & ->). exists x, y. reflexivity.
Qed.

Lemma no_char_spec (c : N) (s : str) : no_char c s = true ↔ ¬ In c s.
Proof.
  unfold no_char. rewrite forallb_forall. split.
  - intros H Hin. specialize (H c Hin). rewrite N.eqb_refl in H. discriminate.
  - intros H x Hx. apply negb_true_iff, N.eqb_neq. intros ->. exact (H Hx).
Qed.

(** *** Splitting *)

Lemma split_on_nonempty (sep : N) (s : str) : split_on sep s ≠ [].
Proof.
  destruct s as [|c s]; simpl; [discriminate |].
  destruct (c =? sep); [discriminate |].
  destruct (split_on sep s); discriminate.
Qed.

Lemma split_on_absent (sep : N) (s : str) :
  ¬ In sep s → split_on sep s = [s].
Proof.
  induction s as [|c s IH]; intros H; [reflexivity |].
  cbn [split_on]. destruct (c =? sep) eqn:E.
  - apply N.eqb_eq in E. subst. exfalso. apply H. left. reflexivity.
  - rewrite IH; [reflexivity |]. intros Hin. apply H. right. exact Hin.
Qed.

Lemma split_on_first (sep : N) (a b : str) :
  ¬ In sep a → split_on sep (a ++ sep :: b) = a :: split_on sep b.
Proof.
  induction a as [|c a IH]; intros H.
  - cbn [app split_on]. rewrite N.eqb_refl. reflexivity.
  - cbn [app split_on]. destruct (c =? sep) eqn:E.
    + apply N.eqb_eq in E. subst. exfalso. apply H. left. reflexivity.
    + rewrite IH; [reflexivity |]. intros Hin. apply H. right. exact Hin.
Qed.

Lemma split_lines_split_on (s : str) : split_lines s = split_on newline s.
Proof.
  induction s as [|c s IH]; [reflexivity |].
  cbn [split_lines split_on]. rewrite IH. reflexivity.
Qed.

Lemma after_first_found (sep : N) (a b : str) :
  ¬ In sep a → after_first sep (a ++ sep :: b) = Some b.
Proof.
  induction a as [|c a IH]; intros H.
  - cbn [app after_first]. rewrite N.eqb_refl. reflexivity.
  - cbn [app after_first]. destruct (c =? sep) eqn:E.
    + apply N.eqb_eq in E. subst. exfalso. apply H. left. reflexivity.
    + apply IH. intros Hin. apply H. right. exact Hin.
Qed.

Lemma after_first_present (sep : N) (s : str) :
  In sep s → ∃ rest, after_first sep s = Some rest.
Proof.
  induction s as [|c s IH]; intros H; [destruct H |].
  cbn [after_first]. destruct (c =? sep) eqn:E; [eauto |].
  destruct H as [-> | H]; [rewrite N.eqb_refl in E; discriminate | auto].
Qed.

(** A text with the separator in it has a second piece. *)
Lemma split_on_second (sep : N) (s : str) :
  In sep s → ∃ part, split_on sep s !! 1%nat = Some part.
Proof.
  intros H. apply in_split in H as (a & b & ->).
  revert b. induction a as [|c a IH]; intros b.
  - cbn [app split_on]. rewrite N.eqb_refl.
    pose proof (split_on_nonempty sep b).
    destruct (split_on sep b) as [|l ls]; [congruence |]. exists l. reflexivity.
  - cbn [app split_on]. destruct (c =? sep).
    + pose proof (split_on_nonempty sep (a ++ sep :: b)).
      destruct (split_on sep (a ++ sep :: b)) as [|l ls]; [congruence |].
      exists l. reflexivity.
    + destruct (IH b) as [part Hp].
      destruct (split_on sep (a ++ sep :: b)) as [|l ls]; [discriminate Hp |].
      exists part. exact Hp.
Qed.

Lemma join_lines_cons (l : str) (ls : list str) :
  ls ≠ [] → join_lines (l :: ls) = l ++ newline :: join_lines ls.
Proof. destruct ls; [congruence | reflexivity]. Qed.

(** Lines without a line break are read back as they were joined. *)
Lemma split_join_lines (ls : list str) :
  ls ≠ [] → Forall (fun l => ¬ In newline l) ls →
  split_lines (join_lines ls) = ls.
Proof.
  induction ls as [|l ls IH]; intros Hne Hall; [congruence |].
  inversion Hall as [|? ? Hl Hls]; subst.
  destruct ls as [|l' ls].
  - cbn [join_lines]. rewrite split_lines_split_on. apply split_on_absent, Hl.
  - rewrite join_lines_cons by discriminate.
    rewrite split_lines_split_on, split_on_first by exact Hl.
    rewrite <- split_lines_split_on, IH; [reflexivity | discriminate | exact Hls].
Qed.

Lemma join_lines_snoc (ls : list str) (l : str) :
  join_lines (ls ++ [l]) = concat (map (fun x => x ++ [newline]) ls) ++ l.
Proof.
  induction ls as [|x ls IH]; [reflexivity |].
  cbn [app map concat]. rewrite join_lines_cons by (destruct ls; discriminate).
  rewrite IH, <- !app_assoc. reflexivity.
Qed.

Section Whitespace.

Context (isspace : N → bool).

(** *** Stripping *)

Lemma lstrip_spaces (ws s : str) :
  forallb isspace ws = true → lstrip isspace (ws ++ s) = lstrip isspace s.
Proof.
  induction ws as [|c ws IH]; intros H; [reflexivity |].
  cbn [forallb] in H. apply andb_true_iff in H as [Hc Hws].
  cbn [app lstrip]. rewrite Hc. apply IH, Hws.
Qed.

Lemma lstrip_solid (c : N) (s : str) :
  isspace c = false → lstrip isspace (c :: s) = c :: s.
Proof. intros H. cbn [lstrip]. rewrite H. reflexivity. Qed.

Lemma lstrip_suffix (s : str) :
  ∃ ws, s = ws ++ lstrip isspace s ∧ forallb isspace ws = true.
Proof.
  induction s as [|c s (ws & E & H)]; [exists []; split; reflexivity |].
  cbn [lstrip]. destruct (isspace c) eqn:Hc.
  - exists (c :: ws). cbn [app forallb]. rewrite Hc, H, <- E. split; reflexivity.
  - exists []. split; reflexivity.
Qed.

Lemma lstrip_length (s : str) : (length (lstrip isspace s) ≤ length s)%nat.
Proof.
  destruct (lstrip_suffix s) as (ws & E & _).
  rewrite E at 2. rewrite length_app. lia.
Qed.

Lemma lstrip_same_length (s : str) :
  length (lstrip isspace s) = length s → lstrip isspace s = s.
Proof.
  intros H. destruct (lstrip_suffix s) as (ws & E & _).
  rewrite E in H at 2. rewrite length_app in H.
  destruct ws; [symmetry; exact E | simpl in H; lia].
Qed.

Lemma rstrip_spaces (s ws : str) :
  forallb isspace ws = true → rstrip isspace (s ++ ws) = rstrip isspace s.
Proof.
  intros H. unfold rstrip. rewrite rev_app_distr, lstrip_spaces;
    [reflexivity |].
  rewrite forallb_forall in *. intros x Hx. apply H, in_rev, Hx.
Qed.

Lemma rstrip_solid (s : str) (c : N) :
  isspace c = false → rstrip isspace (s ++ [c]) = s ++ [c].
Proof.
  intros H. unfold rstrip. rewrite rev_app_distr. cbn [rev app].
  rewrite (lstrip_solid _ _ H). cbn [rev]. rewrite rev_involutive. reflexivity.
Qed.

Lemma rstrip_length (s : str) : (length (rstrip isspace s) ≤ length s)%nat.
Proof.
  unfold rstrip. rewrite length_rev.
  pose proof (lstrip_length (rev s)) as H. rewrite length_rev in H. exact H.
Qed.

Lemma rstrip_same_length (s : str) :
  length (rstrip isspace s) = length s → rstrip isspace s = s.
Proof.
  unfold rstrip. rewrite length_rev. intros H.
  rewrite lstrip_same_length by (rewrite H, length_rev; reflexivity).
  apply rev_involutive.
Qed.

(** A text that stripping leaves alone is empty or has a first and a
    last character that are no whitespace. *)
Lemma strip_fixed (s : str) :
  strip isspace s = s → lstrip isspace s = s ∧ rstrip isspace s = s.
Proof.
  intros H. unfold strip in H.
  assert (lstrip isspace s = s) as E.
  { apply lstrip_same_length. apply (f_equal (@length N)) in H.
    pose proof (rstrip_length (lstrip isspace s)). pose proof (lstrip_length s). lia. }
  rewrite E in H. auto.
Qed.

Lemma lstrip_fixed_head (s : str) :
  lstrip isspace s = s → s = [] ∨ ∃ c rest, s = c :: rest ∧ isspace c = false.
Proof.
  destruct s as [|c s]; [auto |]. intros H. right. exists c, s.
  split; [reflexivity |]. cbn [lstrip] in H.
  destruct (isspace c) eqn:E; [| reflexivity].
  pose proof (lstrip_length s) as L. rewrite H in L. simpl in L. lia.
Qed.

Lemma rstrip_fixed_last (s : str) :
  rstrip isspace s = s → s = [] ∨ ∃ init c, s = init ++ [c] ∧ isspace c = false.
Proof.
  intros H. unfold rstrip in H.
  assert (lstrip isspace (rev s) = rev s) as E
    by (rewrite <- H at 2; rewrite rev_involutive; reflexivity).
  destruct (lstrip_fixed_head _ E) as [E0 | (c & rest & E1 & Hc)].
  - left. apply (f_equal (@rev N)) in E0. rewrite rev_involutive in E0. exact E0.
  - right. exists (rev rest), c. split; [| exact Hc].
    apply (f_equal (@rev N)) in E1. rewrite rev_involutive in E1. exact E1.
Qed.

(** Whitespace around a text that stripping leaves alone is what
    stripping removes. *)
Lemma strip_padded (ws1 core ws2 : str) :
  forallb isspace ws1 = true → forallb isspace ws2 = true →
  lstrip isspace core = core → rstrip isspace core = core →
  strip isspace (ws1 ++ core ++ ws2) = core.
Proof.
  intros H1 H2 Hl Hr. unfold strip. rewrite (lstrip_spaces _ _ H1).
  destruct (lstrip_fixed_head _ Hl) as [-> | (c & rest & -> & Hc)].
  - cbn [app]. rewrite <- (app_nil_r ws2), (lstrip_spaces _ _ H2). reflexivity.
  - cbn [app]. rewrite (lstrip_solid _ _ Hc).
    change (c :: rest ++ ws2) with ((c :: rest) ++ ws2).
    rewrite (rstrip_spaces _ _ H2). exact Hr.
Qed.

Lemma lstrip_app_solid (c : N) (a b : str) :
  isspace c = false → lstrip isspace ((c :: a) ++ b) = (c :: a) ++ b.
Proof. intros H. apply lstrip_solid, H. Qed.

Lemma rstrip_app_solid (a b : str) (c : N) :
  isspace c = false → rstrip isspace (a ++ b ++ [c]) = a ++ b ++ [c].
Proof. intros H. rewrite app_assoc. apply rstrip_solid, H. Qed.

(** A text that begins with a character that is no whitespace is not
    stripped to nothing. *)
Lemma strip_solid_nonempty (c : N) (s : str) :
  isspace c = false → strip isspace (c :: s) ≠ [].
Proof.
  intros H. unfold strip. rewrite (lstrip_solid _ _ H).
  unfold rstrip. cbn [rev]. intros E.
  apply (f_equal (@rev N)) in E. rewrite rev_involutive in E. cbn [rev] in E.
  destruct (lstrip_suffix (rev s ++ [c])) as (ws & E' & Hws).
  rewrite E, app_nil_r in E'. rewrite <- E' in Hws.
  rewrite forallb_app in Hws. cbn [forallb] in Hws. rewrite H in Hws.
  rewrite andb_false_r in Hws. discriminate.
Qed.

Lemma strip_with_solid (a : str) (c : N) (b : str) :
  isspace c = false → strip isspace (a ++ c :: b) ≠ [].
Proof.
  intros H E. unfold strip in E.
  destruct (lstrip_suffix (a ++ c :: b)) as (ws1 & E1 & H1).
  set (t := lstrip isspace (a ++ c :: b)) in *.
  assert (rstrip isspace t = [] → forallb isspace t = true) as Hall.
  { intros Ht. unfold rstrip in Ht.
    apply (f_equal (@rev N)) in Ht. rewrite rev_involutive in Ht. cbn [rev] in Ht.
    destruct (lstrip_suffix (rev t)) as (ws & E' & Hws).
    rewrite Ht, app_nil_r in E'. rewrite <- E' in Hws.
    rewrite forallb_forall in *. intros x Hx. apply Hws, in_rev.
    rewrite rev_involutive. exact Hx. }
  specialize (Hall E).
  assert (forallb isspace (a ++ c :: b) = true) as Hab
    by (rewrite E1, forallb_app, H1, Hall; reflexivity).
  rewrite forallb_app in Hab. cbn [forallb] in Hab. rewrite H in Hab.
  rewrite andb_false_r in Hab. discriminate.
Qed.

Lemma lstrip_subset (s : str) (x : N) : In x (lstrip isspace s) → In x s.
Proof.
  destruct (lstrip_suffix s) as (ws & E & _). intros H.
  rewrite E. apply in_or_app. right. exact H.
Qed.

Lemma strip_subset (s : str) (x : N) : In x (strip isspace s) → In x s.
Proof.
  unfold strip, rstrip. intros H. apply in_rev, lstrip_subset in H.
  apply in_rev in H. apply lstrip_subset in H. exact H.
Qed.

(** *** Reading a line *)

Lemma split_on_pieces (sep : N) (s piece : str) (x : N) :
  In piece (split_on sep s) → In x piece → In x s.
Proof.
  revert piece; induction s as [|c s IH]; intros piece Hp Hx.
  - destruct Hp as [<- | []]. destruct Hx.
  - cbn [split_on] in Hp. destruct (c =? sep).
    + destruct Hp as [<- | Hp]; [destruct Hx |]. right. exact (IH _ Hp Hx).
    + pose proof (split_on_nonempty sep s) as Hne.
      destruct (split_on sep s) as [|l ls]; [congruence |].
      destruct Hp as [<- | Hp].
      * destruct Hx as [-> | Hx]; [left; reflexivity |].
        right. apply (IH l); [left; reflexivity | exact Hx].
      * right. apply (IH piece); [right; exact Hp | exact Hx].
Qed.

Lemma parse_part_never_fails (i : nat) (part : str) :
  parse_part isspace i part ≠ Failed.
Proof.
  unfold parse_part.
  destruct (contains (u ":") (strip isspace part)) eqn:E; [| discriminate].
  change (u ":") with [colon] in E. apply contains_single in E.
  destruct (after_first_present _ _ E) as [rest ->]. discriminate.
Qed.

(** A line with a [']'] in it and something that is no whitespace is
    read from its second piece alone. *)
Lemma parse_line_part (i : nat) (line part : str) (c : N) :
  In c line → isspace c = false →
  In rbracket line →
  split_on rbracket line !! 1%nat = Some part →
  parse_line isspace i line = parse_part isspace i part.
Proof.
  intros Hc Hsolid Hrb Hpart. unfold parse_line.
  assert (str_eqb (strip isspace line) [] = false) as ->.
  { apply str_eqb_neq. apply in_split in Hc as (a & b & ->).
    apply strip_with_solid, Hsolid. }
  assert (contains (u "]") line = true) as ->
    by (change (u "]") with [rbracket]; apply contains_single, Hrb).
  cbn [negb andb]. rewrite Hpart.
  destruct (contains (u ":") line) eqn:E; [reflexivity |].
  unfold parse_part.
  destruct (contains (u ":") (strip isspace part)) eqn:E'; [| reflexivity].
  change (u ":") with [colon] in E, E'. apply contains_single in E'.
  apply strip_subset in E'.
  assert (In colon line) as Hin.
  { apply (split_on_pieces rbracket line part); [| exact E'].
    apply list_elem_of_In. apply (list_elem_of_lookup_2 _ 1%nat). exact Hpart. }
  apply contains_single in Hin. congruence.
Qed.

Lemma strip_nil : strip isspace [] = [].
Proof. reflexivity. Qed.

Lemma imap_ext_nat {A B} (f g : nat → A → B) (l : list A) :
  (∀ k x, f k x = g k x) → imap f l = imap g l.
Proof.
  revert f g; induction l as [|x l IH]; intros f g H; [reflexivity |].
  cbn [imap]. rewrite H. f_equal. apply IH. intros k y. apply H.
Qed.

(** X16: the [except] branch of the loop is never taken: a line that
    passes the test has a second piece, and a second piece with a colon
    has something after the colon, so no line makes the parser log a
    failure. *)
Theorem parse_line_never_fails (i : nat) (line : str) :
  parse_line isspace i line ≠ Failed.
Proof.
  unfold parse_line.
  destruct (negb (str_eqb (strip isspace line) []) && contains (u "]") line
              && contains (u ":") line) eqn:E; [| discriminate].
  apply andb_true_iff in E as [E _]. apply andb_true_iff in E as [_ E].
  change (u "]") with [rbracket] in E. apply contains_single in E.
  destruct (split_on_second _ _ E) as [part ->].
  apply parse_part_never_fails.
Qed.

(** X17: what is read from a line is read from the text between its
    first and its second [']']: the bracketed time before it and whatever
    follows a second [']'] make no difference, so a content with a [']']
    in it is cut there. *)
Theorem parse_line_reads_second_field (i : nat) (a b c : str) :
  isspace rbracket = false →
  ¬ In rbracket a → ¬ In rbracket b →
  parse_line isspace i (a ++ rbracket :: b ++ rbracket :: c)
    = parse_line isspace i (rbracket :: b) ∧
  parse_line isspace i (a ++ rbracket :: b)
    = parse_line isspace i (rbracket :: b).
Proof.
  intros Hsolid Ha Hb.
  assert (∀ line, In rbracket line →
            split_on rbracket line !! 1%nat = Some b →
            parse_line isspace i line = parse_part isspace i b) as Hread
    by (intros line Hin Hp; exact (parse_line_part i line b rbracket Hin Hsolid Hin Hp)).
  assert (parse_line isspace i (rbracket :: b) = parse_part isspace i b) as ->.
  { apply Hread; [left; reflexivity |].
    pose proof (split_on_first rbracket [] b) as H0. cbn [app] in H0.
    rewrite H0 by (intros []).
    rewrite (split_on_absent _ _ Hb). reflexivity. }
  split.
  - apply Hread; [apply in_or_app; right; left; reflexivity |].
    rewrite (split_on_first _ _ _ Ha), (split_on_first _ _ _ Hb). reflexivity.
  - apply Hread; [apply in_or_app; right; left; reflexivity |].
    rewrite (split_on_first _ _ _ Ha), (split_on_absent _ _ Hb). reflexivity.
Qed.

(** *** The basic summary *)

Lemma basic_points_length (i : nat) (lines : list str) :
  (length (basic_points isspace i lines) ≤ length lines)%nat.
Proof.
  revert i; induction lines as [|l lines IH]; intros i; [reflexivity |].
  cbn [basic_points]. destruct (negb (str_eqb (strip isspace l) []));
    cbn [length]; specialize (IH (S i)); lia.
Qed.

Lemma basic_points_members (i : nat) (lines : list str) (kp : pyval) :
  In kp (basic_points isspace i lines) ↔
  ∃ k line, lines !! k = Some line ∧ strip isspace line ≠ [] ∧
            kp = key_point (u "讨论点") (i + k) (strip isspace line).
Proof.
  revert i; induction lines as [|l lines IH]; intros i.
  - split; [intros [] | intros (k & line & H & _); discriminate H].
  - cbn [basic_points]. destruct (str_eqb (strip isspace l) []) eqn:E; cbn [negb].
    + apply str_eqb_eq in E. rewrite IH. split.
      * intros (k & line & Hk & Hne & ->). exists (S k), line.
        split; [exact Hk |]. split; [exact Hne |]. f_equal. lia.
      * intros (k & line & Hk & Hne & ->). destruct k as [|k].
        -- injection Hk as ->. congruence.
        -- exists k, line. split; [exact Hk |]. split; [exact Hne |].
           f_equal. lia.
    + apply str_eqb_neq in E. cbn [In]. rewrite IH. split.
      * intros [<- | (k & line & Hk & Hne & ->)].
        -- exists 0%nat, l. split; [reflexivity |]. split; [exact E |].
           f_equal. lia.
        -- exists (S k), line. split; [exact Hk |]. split; [exact Hne |].
           f_equal. lia.
      * intros (k & line & Hk & Hne & ->). destruct k as [|k].
        -- injection Hk as ->. left. f_equal. lia.
        -- right. exists k, line. split; [exact Hk |]. split; [exact Hne |].
           f_equal. lia.
Qed.

(** The loop makes the key points of the OpenAI template exactly when no
    line is blank or has whitespace around it. *)
Lemma basic_points_as_template (i : nat) (lines : list str) :
  basic_points isspace i lines
    = imap (fun k => key_point (u "讨论点") (i + k)) lines ↔
  Forall (fun l => l ≠ [] ∧ strip isspace l = l) lines.
Proof.
  revert i; induction lines as [|l lines IH]; intros i.
  - split; [constructor | reflexivity].
  - cbn [basic_points imap].
    assert (imap ((fun k => key_point (u "讨论点") (i + k)) ∘ S) lines
            = imap (fun k => key_point (u "讨论点") (S i + k)) lines) as ->
      by (apply imap_ext_nat; intros k x; unfold compose; f_equal; lia).
    destruct (str_eqb (strip isspace l) []) eqn:E; cbn [negb].
    + apply str_eqb_eq in E. split.
      * intros H. apply (f_equal (@length pyval)) in H.
        cbn [length] in H. rewrite length_imap in H.
        pose proof (basic_points_length (S i) lines). lia.
      * intros H. inversion H as [|? ? [Hne Hs] _]; subst. congruence.
    + apply str_eqb_neq in E. rewrite Nat.add_0_r. split.
      * intros H. unfold key_point in H at 1 2. injection H as Hhd Htl.
        constructor.
        -- rewrite Hhd in E. auto.
        -- apply (IH (S i)), Htl.
      * intros H. inversion H as [|? ? [Hne Hs] Hrest]; subst.
        rewrite Hs. f_equal. apply (IH (S i)), Hrest.
Qed.

(** X19: the basic summary makes its key points from the first five
    lines of the transcript, one for each line that is not blank, with
    the line stripped as content and the line's position in its topic, so
    the topics of a transcript with blank lines skip numbers.  They are
    the key points of the OpenAI degradation template exactly when none
    of these lines is blank or has whitespace around it. *)
Theorem basic_summary_key_points (transcript : str) :
  let lines := take 5 (split_lines transcript) in
  let points := key_points (_create_basic_summary isspace transcript) in
  (length points ≤ length lines)%nat ∧ (length lines ≤ 5)%nat ∧
  (∀ kp, In kp points ↔
     ∃ k line, lines !! k = Some line ∧ strip isspace line ≠ [] ∧
               kp = key_point (u "讨论点") k (strip isspace line)) ∧
  ∃ d, _create_fallback_summary transcript = PDict d ∧
       (dict_get (u "key_points") d = Some (PList points) ↔
        Forall (fun l => l ≠ [] ∧ strip isspace l = l) lines).
Proof.
  intros lines points. unfold points. cbn [_create_basic_summary key_points].
  fold lines.
  split; [apply basic_points_length |].
  split; [unfold lines; rewrite length_take; lia |].
  split; [intros kp; apply (basic_points_members 0) |].
  eexists. split; [reflexivity |].
  fold lines.
  assert (dict_get (u "key_points")
            [ (u "title", PStr (u "会议摘要（OpenAI降级版）"));
              (u "overview",
                PStr (u "会议包含" ++ str_of_nat (length lines)
                        ++ u "个主要讨论点"));
              (u "key_points", PList (imap (key_point (u "讨论点")) lines));
              (u "decisions", PList []);
              (u "action_items", PList []);
              (u "risks", PList []);
              (u "opportunities", PList []) ]
          = Some (PList (imap (key_point (u "讨论点")) lines))) as ->
    by (dict_lookup; reflexivity).
  rewrite <- (basic_points_as_template 0). split.
  - intros [= H]. rewrite <- H. apply imap_ext_nat. reflexivity.
  - intros H. rewrite H. do 2 f_equal.
Qed.

Section Written.

(** The blank is whitespace; the opening bracket and the colon are
    not. *)
Hypothesis space_is_space : isspace space = true.
Hypothesis lbracket_solid : isspace lbracket = false.
Hypothesis colon_solid : isspace colon = false.

Lemma clean_fields (seg : MeetingSegment) :
  clean isspace seg = true →
  (¬ In newline (start_time seg) ∧ ¬ In rbracket (start_time seg)) ∧
  (¬ In newline (speaker seg) ∧ ¬ In rbracket (speaker seg) ∧
   ¬ In colon (speaker seg) ∧ strip isspace (speaker seg) = speaker seg) ∧
  (¬ In newline (content seg) ∧ ¬ In rbracket (content seg) ∧
   strip isspace (content seg) = content seg).
Proof.
  unfold clean. rewrite !andb_true_iff, !no_char_spec, !str_eqb_eq. tauto.
Qed.

(** The second piece of a written line, stripped. *)
Lemma written_part_stripped (seg : MeetingSegment) (blank : bool) :
  clean isspace seg = true →
  (blank = false → content seg = []) →
  strip isspace (space :: speaker seg ++ colon ::
                   (if blank then [space] else []) ++ content seg)
  = speaker seg ++ colon ::
      match content seg with [] => [] | _ :: _ => space :: content seg end.
Proof.
  intros Hclean Hblank.
  destruct (clean_fields _ Hclean) as (_ & (_ & _ & _ & Hsp) & (_ & _ & Hct)).
  destruct (strip_fixed _ Hsp) as [Hspl _].
  destruct (strip_fixed _ Hct) as [_ Hctr].
  set (sp := speaker seg) in *. set (ct := content seg) in *.
  set (core := sp ++ colon :: match ct with [] => [] | _ :: _ => space :: ct end).
  assert (lstrip isspace core = core) as Hl.
  { unfold core. destruct (lstrip_fixed_head _ Hspl) as [-> | (c & r & -> & Hc)].
    - apply lstrip_solid, colon_solid.
    - apply lstrip_solid, Hc. }
  assert (rstrip isspace core = core) as Hr.
  { unfold core. destruct (rstrip_fixed_last _ Hctr) as [-> | (init & c & E & Hc)].
    - apply rstrip_solid, colon_solid.
    - rewrite E. destruct (init ++ [c]) as [|x r] eqn:E2;
        [destruct init; discriminate E2 |].
      rewrite <- E2.
      replace (sp ++ colon :: space :: init ++ [c])
        with ((sp ++ colon :: space :: init) ++ [c])
        by (rewrite <- app_assoc; reflexivity).
      apply rstrip_solid, Hc. }
  assert (forallb isspace [space] = true) as Hws
    by (cbn [forallb]; rewrite space_is_space; reflexivity).
  destruct ct as [|x r] eqn:Ect.
  - rewrite app_nil_r.
    replace (space :: sp ++ colon :: (if blank then [space] else []))
      with ([space] ++ core ++ (if blank then [space] else []))
      by (unfold core; rewrite <- app_assoc; reflexivity).
    apply strip_padded; [exact Hws | destruct blank; [exact Hws | reflexivity]
                        | exact Hl | exact Hr].
  - destruct blank; [| specialize (Hblank eq_refl); discriminate Hblank].
    replace (space :: sp ++ colon :: [space] ++ x :: r)
      with ([space] ++ core ++ [])
      by (unfold core; rewrite app_nil_r; reflexivity).
    apply strip_padded; [exact Hws | reflexivity | exact Hl | exact Hr].
Qed.

Lemma written_read_back (i : nat) (seg : MeetingSegment) (blank : bool) :
  clean isspace seg = true →
  (blank = false → content seg = []) →
  parse_line isspace i (written blank seg) = Segment (reread i seg).
Proof.
  intros Hclean Hblank.
  destruct (clean_fields _ Hclean) as
    ((_ & Hst) & (_ & Hsprb & Hspc & Hsp) & (_ & Hctrb & Hct)).
  set (part := space :: speaker seg ++ colon ::
                 (if blank then [space] else []) ++ content seg).
  assert (¬ In rbracket part) as Hpart.
  { unfold part. intros [H | H]; [discriminate H |].
    apply in_app_or in H as [H | [H | H]]; [tauto | discriminate H |].
    apply in_app_or in H as [H | H]; [| tauto].
    destruct blank; [destruct H as [H | []]; discriminate H | destruct H]. }
  assert (written blank seg = (lbracket :: start_time seg) ++ rbracket :: part)
    as E by reflexivity.
  rewrite (parse_line_part i _ part lbracket).
  - unfold parse_part, part. rewrite (written_part_stripped _ _ Hclean Hblank).
    set (mid := match content seg with [] => [] | _ :: _ => space :: content seg end).
    assert (contains (u ":") (speaker seg ++ colon :: mid) = true) as ->.
    { change (u ":") with [colon]. apply contains_single.
      apply in_or_app. right. left. reflexivity. }
    rewrite (split_on_first _ _ _ Hspc), (after_first_found _ _ _ Hspc).
    cbn [hd]. rewrite Hsp.
    assert (strip isspace mid = content seg) as ->.
    { unfold mid. destruct (content seg) as [|x r] eqn:Ect; [reflexivity |].
      rewrite <- Ect in *.
      destruct (strip_fixed _ Hct) as [Hl Hr].
      replace (space :: content seg) with ([space] ++ content seg ++ [])
        by (rewrite app_nil_r; reflexivity).
      apply strip_padded; [| reflexivity | exact Hl | exact Hr].
      cbn [forallb]. rewrite space_is_space. reflexivity. }
    reflexivity.
  - left. reflexivity.
  - exact lbracket_solid.
  - rewrite E. apply in_or_app. right. left. reflexivity.
  - rewrite E. rewrite split_on_first.
    + rewrite (split_on_absent _ _ Hpart). reflexivity.
    + intros [H | H]; [discriminate H | tauto].
Qed.

Lemma written_lines_read_back (segs : list MeetingSegment) (lines : list str)
    (i : nat) :
  Forall2 (fun seg line =>
             clean isspace seg = true ∧
             ∃ blank, (blank = false → content seg = []) ∧
                      line = written blank seg) segs lines →
  parse_lines isspace i lines = imap (fun k => reread (i + k)) segs.
Proof.
  intros H. revert i. induction H as [|seg line segs lines (Hc & b & Hb & ->) _ IH];
    intros i; [reflexivity |].
  cbn [parse_lines imap]. rewrite (written_read_back _ _ _ Hc Hb).
  rewrite Nat.add_0_r. f_equal. rewrite IH. apply imap_ext_nat.
  intros k x. unfold compose. f_equal. lia.
Qed.

Lemma segment_line_written (seg : MeetingSegment) :
  segment_line seg = written true seg.
Proof.
  unfold segment_line, written.
  change (u "[") with [lbracket]. change (u "] ") with [rbracket; space].
  change (u ": ") with [colon; space].
  reflexivity.
Qed.

Lemma written_no_newline (seg : MeetingSegment) (blank : bool) :
  clean isspace seg = true → ¬ In newline (written blank seg).
Proof.
  intros Hclean.
  destruct (clean_fields _ Hclean) as ((Hst & _) & (Hsp & _) & (Hct & _)).
  unfold written. intros [H | H]; [discriminate H |].
  apply in_app_or in H as [H | [H | [H | H]]];
    [tauto | discriminate H | discriminate H |].
  apply in_app_or in H as [H | [H | H]]; [tauto | discriminate H |].
  apply in_app_or in H as [H | H]; [| tauto].
  destruct blank; [destruct H as [H | []]; discriminate H | destruct H].
Qed.

(** The last line of a text, as stripping the text leaves it. *)
Lemma written_tail (seg : MeetingSegment) :
  clean isspace seg = true →
  ∃ blank ws init c,
    (blank = false → content seg = []) ∧
    written true seg = written blank seg ++ ws ∧
    forallb isspace ws = true ∧
    written blank seg = init ++ [c] ∧ isspace c = false.
Proof.
  intros Hclean.
  destruct (clean_fields _ Hclean) as (_ & _ & (_ & _ & Hct)).
  destruct (strip_fixed _ Hct) as [_ Hr].
  destruct (rstrip_fixed_last _ Hr) as [E | (init & c & E & Hc)].
  - exists false, [space],
      (lbracket :: start_time seg ++ rbracket :: space :: speaker seg), colon.
    split; [auto |]. unfold written. rewrite E.
    split; [list_norm; reflexivity |].
    split; [cbn [forallb]; rewrite space_is_space; reflexivity |].
    split; [list_norm; reflexivity | exact colon_solid].
  - exists true, [],
      (lbracket :: start_time seg ++ rbracket :: space :: speaker seg
         ++ colon :: space :: init), c.
    split; [discriminate |]. rewrite app_nil_r.
    split; [reflexivity |]. split; [reflexivity |].
    split; [| exact Hc]. unfold written. rewrite E.
    list_norm. reflexivity.
Qed.

Lemma written_all (segs : list MeetingSegment) :
  Forall (fun seg => clean isspace seg = true) segs →
  Forall2 (fun seg line =>
             clean isspace seg = true ∧
             ∃ blank, (blank = false → content seg = []) ∧
                      line = written blank seg)
    segs (map segment_line segs).
Proof.
  induction 1 as [|seg segs Hc _ IH]; cbn [map]; constructor; [| exact IH].
  split; [exact Hc |]. exists true. split; [discriminate |].
  apply segment_line_written.
Qed.

(** X18: segments written out by [_segments_to_text] and read back by
    [_parse_subtitle_text] keep their speakers and contents, in order and
    none lost, when start time, speaker and content are free of line
    breaks and [']'], speaker and content have no surrounding whitespace
    and the speaker has no [':'].  The times are not read back: segment
    [i] comes back with the times 00:00:15i and 00:00:15(i+1) in place of
    its own; the end time is never written. *)
Theorem written_segments_read_back (segs : list MeetingSegment) :
  Forall (fun seg => clean isspace seg = true) segs →
  _parse_subtitle_text isspace (_segments_to_text segs) = imap reread segs.
Proof.
  intros Hclean. unfold _parse_subtitle_text, _segments_to_text.
  destruct segs as [|seg0 segs0] using rev_ind; [reflexivity |].
  clear IHsegs0. rename segs0 into init_segs, seg0 into last_seg.
  apply Forall_app in Hclean as [Hinit Hlast].
  inversion Hlast as [|? ? Hl _]; subst.
  rewrite map_app. cbn [map]. rewrite join_lines_snoc, segment_line_written.
  destruct (written_tail last_seg Hl)
    as (blank & ws & init & c & Hb & Ew & Hws & Ei & Hc).
  rewrite Ew.
  set (flat := concat (map (fun x => x ++ [newline])
                         (map segment_line init_segs))).
  assert (strip isspace (flat ++ written blank last_seg ++ ws)
          = flat ++ written blank last_seg) as ->.
  { replace (flat ++ written blank last_seg ++ ws)
      with ([] ++ (flat ++ written blank last_seg) ++ ws)
      by (cbn [app]; rewrite <- app_assoc; reflexivity).
    apply strip_padded; [reflexivity | exact Hws | |].
    - assert (∃ rest, flat ++ written blank last_seg = lbracket :: rest)
        as [rest ->].
      { unfold flat. destruct init_segs as [|s1 segs1]; [eexists; reflexivity |].
        cbn [map concat]. rewrite segment_line_written.
        eexists. reflexivity. }
      apply lstrip_solid, lbracket_solid.
    - rewrite Ei, app_assoc. apply rstrip_solid, Hc. }
  unfold flat. rewrite <- join_lines_snoc.
  rewrite split_join_lines.
  - rewrite (written_lines_read_back (init_segs ++ [last_seg]) _ 0%nat).
    + apply imap_ext_nat. reflexivity.
    + apply Forall2_app; [apply written_all, Hinit |].
      constructor; [| constructor]. split; [exact Hl |].
      exists blank. split; [exact Hb | reflexivity].
  - destruct (map segment_line init_segs); discriminate.
  - apply Forall_app. split.
    + apply List.Forall_forall. intros line Hin.
      apply in_map_iff in Hin as (seg & <- & Hseg).
      rewrite segment_line_written. apply written_no_newline.
      rewrite List.Forall_forall in Hinit. exact (Hinit _ Hseg).
    + constructor; [| constructor]. apply written_no_newline, Hl.
Qed.

End Written.

End Whitespace.

Lemma parse_line_reads_second_field_witness :
  isspace_ascii rbracket = false ∧
  parse_line isspace_ascii 2
    (u "[00:01:10" ++ rbracket :: u " 张三: 同意[1" ++ rbracket :: u "方案")
  = parse_line isspace_ascii 2 (rbracket :: u " 张三: 同意[1").
Proof.
  split; [reflexivity |].
  refine (proj1 (parse_line_reads_second_field isspace_ascii 2
                   (u "[00:01:10") (u " 张三: 同意[1") (u "方案") eq_refl _ _)).
  - apply no_char_spec. vm_compute. reflexivity.
  - apply no_char_spec. vm_compute. reflexivity.
Defined.

(** The content 同意[1]方案 comes back as 同意[1. *)
Example content_cut_at_bracket :
  _parse_subtitle_text isspace_ascii (u "[00:01:10] 张三: 同意[1]方案") =
    [ {| start_time := u "00:00:00"; end_time := u "00:00:15";
         speaker := u "张三"; content := u "同意[1" |} ].
Proof. vm_compute. reflexivity. Qed.

Lemma written_segments_read_back_witness :
  _parse_subtitle_text isspace_ascii (_segments_to_text sample_segments) =
    [ {| start_time := u "00:00:00"; end_time := u "00:00:15";
         speaker := u "张三"; content := u "开始: 项目评审" |};
      {| start_time := u "00:00:15"; end_time := u "00:00:30";
         speaker := u "李四"; content := u "" |} ].
Proof.
  rewrite (written_segments_read_back isspace_ascii eq_refl eq_refl eq_refl
             sample_segments).
  - vm_compute. reflexivity.
  - unfold sample_segments.
    apply List.Forall_cons; [vm_compute; reflexivity |].
    apply List.Forall_cons; [vm_compute; reflexivity |].
    apply List.Forall_nil.
Defined.

(** A transcript whose second line is blank: the topics are 讨论点1 and
    讨论点3. *)
Example basic_summary_skips_blank_lines :
  key_points (_create_basic_summary isspace_ascii
                [97; newline; 32; newline; 98]) =
    [ key_point (u "讨论点") 0 [97]; key_point (u "讨论点") 2 [98] ].
Proof. vm_compute. reflexivity. Qed.

End AgentFacts.

(** ** The reply of the local model *)

Module LocalReplyFacts.
Import Adapter Samples.

Lemma find_absent (c : N) (s : str) : ¬ In c s → find c s = (-1)%Z.
Proof.
  induction s as [|x s IH]; intros H; [reflexivity |].
  cbn [find]. destruct (x =? c) eqn:E.
  - apply N.eqb_eq in E. subst. exfalso. apply H. left. reflexivity.
  - rewrite IH; [reflexivity |]. intros Hin. apply H. right. exact Hin.
Qed.

Lemma find_first (c : N) (pre rest : str) :
  ¬ In c pre → find c (pre ++ c :: rest) = Z.of_nat (length pre).
Proof.
  induction pre as [|x pre IH]; intros H.
  - cbn [app find]. rewrite N.eqb_refl. reflexivity.
  - cbn [app find]. destruct (x =? c) eqn:E.
    + apply N.eqb_eq in E. subst. exfalso. apply H. left. reflexivity.
    + rewrite IH by (intros Hin; apply H; right; exact Hin).
      destruct (Z.of_nat (length pre) =? -1)%Z eqn:E'.
      * apply Z.eqb_eq in E'. lia.
      * cbn [length]. lia.
Qed.

Lemma rfind_absent (c : N) (s : str) : ¬ In c s → rfind c s = (-1)%Z.
Proof.
  induction s as [|x s IH]; intros H; [reflexivity |].
  cbn [rfind]. rewrite IH by (intros Hin; apply H; right; exact Hin).
  cbn. destruct (x =? c) eqn:E; [| reflexivity].
  apply N.eqb_eq in E. subst. exfalso. apply H. left. reflexivity.
Qed.

Lemma rfind_last (c : N) (pre rest : str) :
  ¬ In c rest → rfind c (pre ++ c :: rest) = Z.of_nat (length pre).
Proof.
  intros H. induction pre as [|x pre IH].
  - cbn [app rfind]. rewrite (rfind_absent _ _ H). cbn.
    rewrite N.eqb_refl. reflexivity.
  - cbn [app rfind]. rewrite IH.
    destruct (Z.of_nat (length pre) =? -1)%Z eqn:E'.
    + apply Z.eqb_eq in E'. lia.
    + cbn [length]. lia.
Qed.

Lemma find_cases (c : N) (s : str) :
  find c s = (-1)%Z ∧ ¬ In c s ∨
  ∃ pre rest, s = pre ++ c :: rest ∧ ¬ In c pre ∧
              find c s = Z.of_nat (length pre).
Proof.
  destruct (in_dec N.eq_dec c s) as [Hin | Hout].
  - right. apply list_elem_of_In, list_elem_of_split_l in Hin
      as (pre & rest & -> & Hpre).
    rewrite list_elem_of_In in Hpre.
    exists pre, rest. split; [reflexivity |]. split; [exact Hpre |].
    apply find_first, Hpre.
  - left. split; [apply find_absent, Hout | exact Hout].
Qed.

Lemma rfind_cases (c : N) (s : str) :
  rfind c s = (-1)%Z ∧ ¬ In c s ∨
  ∃ pre rest, s = pre ++ c :: rest ∧ ¬ In c rest ∧
              rfind c s = Z.of_nat (length pre).
Proof.
  destruct (in_dec N.eq_dec c s) as [Hin | Hout].
  - right. apply list_elem_of_In, list_elem_of_split_r in Hin
      as (pre & rest & -> & Hrest).
    rewrite list_elem_of_In in Hrest.
    exists pre, rest. split; [reflexivity |]. split; [exact Hrest |].
    apply rfind_last, Hrest.
  - left. split; [apply rfind_absent, Hout | exact Hout].
Qed.

(** Two ways of cutting one text, the first cut further left. *)
Lemma cut_twice (pre rest a post : str) (x y : N) :
  pre ++ x :: rest = a ++ y :: post →
  (length pre < length a)%nat →
  ∃ mid, a = pre ++ x :: mid ∧ rest = mid ++ y :: post.
Proof.
  revert a; induction pre as [|p pre IH]; intros a E Hlen.
  - destruct a as [|a0 a]; [simpl in Hlen; lia |].
    injection E as -> E. exists a. split; [reflexivity | exact E].
  - destruct a as [|a0 a]; [simpl in Hlen; lia |].
    injection E as -> E. simpl in Hlen.
    destruct (IH a E ltac:(lia)) as (mid & -> & ->).
    exists mid. split; reflexivity.
Qed.

Lemma slice_span (pre body post : str) :
  slice (pre ++ body ++ post) (Z.of_nat (length pre))
    (Z.of_nat (length pre + length body)) = body.
Proof.
  unfold slice. rewrite Nat2Z.id.
  replace (Z.to_nat (Z.of_nat (length pre + length body) - Z.of_nat (length pre)))
    with (length body) by lia.
  rewrite drop_app_length, take_app_length. reflexivity.
Qed.

Section LocalReply.

Context (json_loads : str → option pyval).

(** X20: of the model's response only the span from the first ['{']
    to the last ['}'] is parsed: the reply is what [json.loads] makes of
    that span, or the local template when it raises; whatever stands
    before or after the span makes no difference.  A response in which
    no ['}'] follows a ['{'] is not parsed at all and gives the
    template. *)
Theorem local_reply_span (transcript response : str) :
  (∀ pre mid post,
     response = pre ++ lbrace :: mid ++ rbrace :: post →
     ¬ In lbrace pre → ¬ In rbrace post →
     summary_of_response json_loads transcript response =
       default (_create_local_fallback_summary transcript)
         (json_loads (lbrace :: mid ++ [rbrace]))) ∧
  ((¬ ∃ pre mid post, response = pre ++ lbrace :: mid ++ rbrace :: post) →
   summary_of_response json_loads transcript response =
     _create_local_fallback_summary transcript).
Proof.
  split.
  - intros pre mid post -> Hpre Hpost. unfold summary_of_response.
    rewrite (find_first _ _ _ Hpre).
    replace (pre ++ lbrace :: mid ++ rbrace :: post)
      with ((pre ++ lbrace :: mid) ++ rbrace :: post)
      by (rewrite <- app_assoc; reflexivity).
    rewrite (rfind_last _ _ _ Hpost).
    assert ((Z.of_nat (length pre) =? -1)%Z = false) as ->
      by (apply Z.eqb_neq; lia).
    assert ((Z.of_nat (length pre)
             <? Z.of_nat (length (pre ++ lbrace :: mid)) + 1)%Z = true) as ->
      by (apply Z.ltb_lt; rewrite length_app; lia).
    cbn [negb andb].
    replace ((pre ++ lbrace :: mid) ++ rbrace :: post)
      with (pre ++ (lbrace :: mid ++ [rbrace]) ++ post)
      by (cbn [app]; rewrite <- !app_assoc; reflexivity).
    replace (Z.of_nat (length (pre ++ lbrace :: mid)) + 1)%Z
      with (Z.of_nat (length pre + length (lbrace :: mid ++ [rbrace])))
      by (rewrite length_app; cbn [length]; rewrite length_app; cbn [length]; lia).
    rewrite slice_span.
    destruct (json_loads (lbrace :: mid ++ [rbrace])); reflexivity.
  - intros Hnone. unfold summary_of_response.
    destruct (find_cases lbrace response)
      as [[-> _] | (pre & rest & E & Hpre & ->)]; [reflexivity |].
    destruct (rfind_cases rbrace response)
      as [[-> _] | (a & post & E' & Hpost & ->)].
    + assert ((Z.of_nat (length pre) <? -1 + 1)%Z = false) as ->
        by (apply Z.ltb_ge; lia).
      rewrite andb_false_r. reflexivity.
    + destruct (Z.of_nat (length pre) <? Z.of_nat (length a) + 1)%Z eqn:Hlt;
        [| rewrite andb_false_r; reflexivity].
      exfalso. apply Z.ltb_lt in Hlt.
      assert (length pre ≠ length a) as Hne.
      { intros Hlen. rewrite E in E'.
        apply app_inj_1 in E' as [_ E']; [| exact Hlen].
        discriminate E'. }
      rewrite E in E'.
      destruct (cut_twice _ _ _ _ _ _ E' ltac:(lia)) as (mid & _ & ->).
      apply Hnone. exists pre, mid, post. exact E.
Qed.

End LocalReply.

(** A response with words around an empty object. *)
Lemma local_reply_span_witness :
  summary_of_response json_loads_empty_object (u "会议")
    (u "好的，结果是 {} 。") = PDict [].
Proof.
  rewrite (proj1 (local_reply_span json_loads_empty_object (u "会议")
                    (u "好的，结果是 {} 。"))
             (u "好的，结果是 ") [] (u " 。")).
  - vm_compute. reflexivity.
  - vm_compute. reflexivity.
  - apply AgentFacts.no_char_spec. vm_compute. reflexivity.
  - apply AgentFacts.no_char_spec. vm_compute. reflexivity.
Defined.

Example reply_without_object :
  summary_of_response json_loads_empty_object (u "会议") (u "} 没有结果 {")
    = _create_local_fallback_summary (u "会议").
Proof. vm_compute. reflexivity. Qed.

End LocalReplyFacts.
